(** * OCPP 1.6 charging-session engine: OCPP16ServiceUtils

    A shallow embedding of [src/charging-station/ocpp/1.6/OCPP16ServiceUtils.ts]
    and the properties of its smart-charging manager, session coordinator
    and meter-value synthesizer.

    Conventions of the embedding
    - a JavaScript [Date] is its time value, a [Z] number of milliseconds;
    - [startPeriod], [duration], [stackLevel], ids: integers, [Z];
    - limits and meter readings: rationals, [Q]; the sum that [+=] stores
      in an energy register is the [Number_add] of the environment;
    - objects that the code mutates and shares (schedule periods and the
      arrays that hold them) live in an explicit heap and are handled through
      references, so that aliasing between the caller's stored schedule and
      the composed one is visible;
    - a thrown exception is the [Throw] outcome of the heap monad. *)

From Stdlib Require Import ZArith QArith Qround Lia Lqa List Sorted Permutation Bool String.
From stdpp Require Import base option list gmap.

Open Scope Z_scope.

(** ** Exceptions and outcomes *)

Inductive ErrorType := InternalError | NotImplemented | GenericError.
Inductive RequestCommand := METER_VALUES | STATUS_NOTIFICATION.

Inductive exn :=
| RangeError
| TypeError
| OCPPError (code : ErrorType) (command : RequestCommand).

Inductive outcome (A : Type) : Type :=
| Ok (a : A)
| Throw (e : exn).
Arguments Ok {A} a.
Arguments Throw {A} e.

(** ** date-fns 2.x, on time values

    [addSeconds d n] adds [n * 1000] ms; [differenceInSeconds] truncates the
    millisecond difference toward zero; [areIntervalsOverlapping] and
    [isWithinInterval] throw [RangeError] on an interval whose start is after
    its end, the former compares strictly, the latter inclusively.

    A [Date] holds a time value of at most 8.64e15 ms in magnitude.  Beyond
    that the object is an Invalid Date, whose time value is [NaN]: every
    comparison with it is false, so an interval with such an end point fails
    the [start <= end] test of date-fns and is an invalid interval, and an
    Invalid Date is within no interval.  The embedding keeps the number the
    arithmetic gave and tests its range where date-fns compares. *)

Module DateFns.

Definition Date := Z.

Record Interval := { start : Date; end_ : Date }.

Definition addSeconds (date : Date) (amount : Z) : Date := date + amount * 1000.

Definition differenceInSeconds (dateLeft dateRight : Date) : Z :=
  Z.quot (dateLeft - dateRight) 1000.

Definition isBefore (date dateToCompare : Date) : bool := date <? dateToCompare.

Definition isAfter (date dateToCompare : Date) : bool := dateToCompare <? date.

Definition maxTimeValue : Z := 8640000000000000.

Definition isValid (date : Date) : bool :=
  (- maxTimeValue <=? date) && (date <=? maxTimeValue).

Definition validInterval (i : Interval) : bool :=
  isValid (start i) && isValid (end_ i) && (start i <=? end_ i).

Definition isWithinInterval (date : Date) (interval : Interval) : outcome bool :=
  if validInterval interval
  then Ok ((start interval <=? date) && (date <=? end_ interval))
  else Throw RangeError.

Definition areIntervalsOverlapping (intervalLeft intervalRight : Interval) : outcome bool :=
  if validInterval intervalLeft && validInterval intervalRight
  then Ok ((start intervalLeft <? end_ intervalRight) && (start intervalRight <? end_ intervalLeft))
  else Throw RangeError.

End DateFns.
Export DateFns.

(** ** Charging schedules and the heap of mutable objects *)

Inductive ChargingRateUnitType := WATT | AMPERE.

Record ChargingSchedulePeriod := {
  startPeriod : Z;
  limit : Q;
  numberPhases : option Z
}.

(** A reference designates an object of the heap: a period object in
    [periods], an array of period references in [arrays]. *)
Abbreviation ref := nat (only parsing).

Record Heap := {
  periods : list ChargingSchedulePeriod;
  arrays : list (list ref)
}.

Record ChargingSchedule := {
  duration : option Z;
  startSchedule : option Date;
  chargingRateUnit : ChargingRateUnitType;
  chargingSchedulePeriod : ref
}.

(** ** State passing with exceptions

    A computation takes the state and returns an outcome with the state it
    leaves.  The state reached when an exception is thrown is kept:
    mutations done before a throw stay. *)

Definition ST (S A : Type) : Type := S → outcome A * S.

Definition ret {S A} (a : A) : ST S A := fun s => (Ok a, s).

Definition bind {S A B} (m : ST S A) (k : A → ST S B) : ST S B :=
  fun s => match m s with
           | (Ok a, s') => k a s'
           | (Throw e, s') => (Throw e, s')
           end.

Definition throw {S A} (e : exn) : ST S A := fun s => (Throw e, s).

Definition lift {S A} (o : outcome A) : ST S A := fun s => (o, s).

Notation "'do' x <- m ; k" := (bind m (fun x => k))
  (at level 10, x name, m at level 100, k at level 200, only parsing).
Notation "'exec' m ; k" := (bind m (fun _ => k))
  (at level 10, m at level 100, k at level 200, only parsing).

(** The heap monad. *)
Abbreviation M := (ST Heap).

Definition nullPeriod : ChargingSchedulePeriod :=
  {| startPeriod := 0; limit := 0%Q; numberPhases := None |}.

(** Reading through a reference.  References held by live JavaScript values
    always designate live objects ([heap_wf] below); the defaults are what is
    read through a reference that designates nothing. *)
Definition deref (h : Heap) (p : ref) : ChargingSchedulePeriod :=
  default nullPeriod (periods h !! p).

Definition array (h : Heap) (a : ref) : list ref :=
  default [] (arrays h !! a).

Definition getPeriod (p : ref) : M ChargingSchedulePeriod := fun h => (Ok (deref h p), h).

Definition getArray (a : ref) : M (list ref) := fun h => (Ok (array h a), h).

Definition with_startPeriod (v : Z) (p : ChargingSchedulePeriod) : ChargingSchedulePeriod :=
  {| startPeriod := v; limit := limit p; numberPhases := numberPhases p |}.

(** [schedulePeriod.startPeriod = v] *)
Definition setStartPeriod (p : ref) (v : Z) : M unit :=
  fun h => (Ok tt, {| periods := alter (with_startPeriod v) p (periods h);
                      arrays := arrays h |}).

(** a new period object, [{ ...schedulePeriod, startPeriod: v }] *)
Definition newPeriod (v : ChargingSchedulePeriod) : M ref :=
  fun h => (Ok (length (periods h)),
            {| periods := periods h ++ [v]; arrays := arrays h |}).

Definition newArray (l : list ref) : M ref :=
  fun h => (Ok (length (arrays h)),
            {| periods := periods h; arrays := arrays h ++ [l] |}).

Definition setArray (a : ref) (l : list ref) : M unit :=
  fun h => (Ok tt, {| periods := periods h; arrays := <[a := l]> (arrays h) |}).

(** ** Array.prototype.sort, filter and map

    [sort] is stable and in place; with the comparator
    [(a, b) => a.startPeriod - b.startPeriod] it is the stable sort by
    [startPeriod], written here as an insertion sort (every stable sort
    computes the same list). *)

Fixpoint insert_by {A} (key : A → Z) (x : A) (l : list A) : list A :=
  match l with
  | [] => [x]
  | y :: l' => if key x <=? key y then x :: y :: l' else y :: insert_by key x l'
  end.

Definition sort_by {A} (key : A → Z) (l : list A) : list A :=
  foldr (insert_by key) [] l.

Definition startPeriodOf (h : Heap) (p : ref) : Z := startPeriod (deref h p).

(** [arr.sort((a, b) => a.startPeriod - b.startPeriod)] *)
Definition sortByStartPeriod (a : ref) : M unit :=
  fun h => setArray a (sort_by (startPeriodOf h) (array h a)) h.

(** [arr.filter((element, index) => ...)]: the callback may read the heap. *)
Fixpoint filter_from {A} (f : A → nat → M bool) (index : nat) (l : list A) : M (list A) :=
  match l with
  | [] => ret []
  | x :: l' =>
      do b <- f x index ;
      do r <- filter_from f (S index) l' ;
      ret (if b : bool then x :: r else r)
  end.

Definition Array_filter {A} (f : A → nat → M bool) (l : list A) : M (list A) :=
  filter_from f 0 l.

(** [arr.map((element, index) => ...)]: the callback may write the heap. *)
Fixpoint map_from {A B} (f : A → nat → M B) (index : nat) (l : list A) : M (list B) :=
  match l with
  | [] => ret []
  | x :: l' =>
      do y <- f x index ;
      do r <- map_from f (S index) l' ;
      ret (y :: r)
  end.

Definition Array_map {A B} (f : A → nat → M B) (l : list A) : M (list B) :=
  map_from f 0 l.

(** ** composeChargingSchedule (private) *)

(** [{ start: startSchedule!, end: addSeconds(startSchedule!, duration!) }]:
    an undefined [startSchedule] or [duration] gives an Invalid Date, on
    which the first date-fns interval check throws [RangeError]. *)
Definition scheduleInterval (s : ChargingSchedule) : outcome Interval :=
  match startSchedule s, duration s with
  | Some st, Some d => Ok {| start := st; end_ := addSeconds st d |}
  | _, _ => Throw RangeError
  end.

Definition periodInstant (h : Heap) (intervalStart : Date) (p : ref) : Date :=
  addSeconds intervalStart (startPeriodOf h p).

(** [isWithinInterval(addSeconds(start, schedulePeriod.startPeriod), interval)] *)
Definition periodWithin (intervalStart : Date) (interval : Interval) (p : ref) : M bool :=
  fun h => (isWithinInterval (periodInstant h intervalStart p) interval, h).

(** [arr[index + 1]] then [.startPeriod]: a [TypeError] when the element is
    undefined. *)
Definition nextPeriodWithin (a : ref) (index : nat) (intervalStart : Date)
    (interval : Interval) : M bool :=
  fun h => match array h a !! S index with
           | Some q => periodWithin intervalStart interval q h
           | None => (Throw TypeError, h)
           end.

Definition resetFirstStartPeriod (schedulePeriod : ref) (index : nat) : M unit :=
  fun h => if (index =? 0)%nat && negb (startPeriodOf h schedulePeriod =? 0)
           then setStartPeriod schedulePeriod 0 h
           else (Ok tt, h).

(** The [filter] callback of the branch that clips the start of the schedule
    (lines 1279-1305). *)
Definition keepClippedStart (arr : ref) (intervalStart : Date) (compositeInterval : Interval)
    (schedulePeriod : ref) (index : nat) : M bool :=
  do within <- periodWithin intervalStart compositeInterval schedulePeriod ;
  if within : bool then ret true else
  do elements <- getArray arr ;
  if (index <? length elements - 1)%nat then
    do within' <- periodWithin intervalStart compositeInterval schedulePeriod ;
    if negb within' then nextPeriodWithin arr index intervalStart compositeInterval
    else ret false
  else ret false.

(** The [map] callback of the same branch (lines 1306-1311): the period
    object itself is written, and returned. *)
Definition resetFirst (schedulePeriod : ref) (index : nat) : M ref :=
  exec resetFirstStartPeriod schedulePeriod index ;
  ret schedulePeriod.

Definition composeChargingSchedule (chargingSchedule : ChargingSchedule)
    (compositeInterval : Interval) : M (option ChargingSchedule) :=
  do chargingScheduleInterval <- lift (scheduleInterval chargingSchedule) ;
  do overlapping <- lift (areIntervalsOverlapping chargingScheduleInterval compositeInterval) ;
  if overlapping : bool then
    let arr := chargingSchedulePeriod chargingSchedule in
    exec sortByStartPeriod arr ;
    if isBefore (start chargingScheduleInterval) (start compositeInterval) then
      do elements <- getArray arr ;
      do kept <- Array_filter
                   (keepClippedStart arr (start chargingScheduleInterval) compositeInterval)
                   elements ;
      do mapped <- Array_map resetFirst kept ;
      do arr' <- newArray mapped ;
      ret (Some {| duration := Some (differenceInSeconds (end_ chargingScheduleInterval)
                                       (start compositeInterval));
                   startSchedule := Some (start compositeInterval);
                   chargingRateUnit := chargingRateUnit chargingSchedule;
                   chargingSchedulePeriod := arr' |})
    else if isAfter (end_ chargingScheduleInterval) (end_ compositeInterval) then
      do elements <- getArray arr ;
      do kept <- Array_filter
                   (fun schedulePeriod _ =>
                      periodWithin (start chargingScheduleInterval) compositeInterval schedulePeriod)
                   elements ;
      do arr' <- newArray kept ;
      ret (Some {| duration := Some (differenceInSeconds (end_ compositeInterval)
                                       (start chargingScheduleInterval));
                   startSchedule := startSchedule chargingSchedule;
                   chargingRateUnit := chargingRateUnit chargingSchedule;
                   chargingSchedulePeriod := arr' |})
    else ret (Some chargingSchedule)
  else ret None.

(** ** composeChargingSchedules *)

(** [compositeChargingSchedule!.startSchedule!]: a [TypeError] when the
    projection is undefined. *)
Definition defined {A} (o : option A) : M A :=
  match o with
  | Some a => ret a
  | None => throw TypeError
  end.

(** [{ ...schedulePeriod, startPeriod: v }] for the period read through
    [schedulePeriod]. *)
Definition copyWithStartPeriod (schedulePeriod : ref) (v : Z → Z) : M ref :=
  do p <- getPeriod schedulePeriod ;
  newPeriod (with_startPeriod (v (startPeriod p)) p).

(** The [map] callback applied to the periods of the higher schedule
    (lines 1085-1096 and 1128-1139). *)
Definition shiftHigher (higherFirst : bool) (higherInterval lowerInterval : Interval)
    (schedulePeriod : ref) (index : nat) : M ref :=
  copyWithStartPeriod schedulePeriod (fun startPeriod =>
    if higherFirst then 0
    else startPeriod + differenceInSeconds (start higherInterval) (start lowerInterval)).

(** The [map] callback applied to the periods of the lower schedule when the
    intervals do not overlap (lines 1097-1108). *)
Definition shiftLower (higherFirst : bool) (higherInterval lowerInterval : Interval)
    (schedulePeriod : ref) (index : nat) : M ref :=
  copyWithStartPeriod schedulePeriod (fun startPeriod =>
    if higherFirst
    then startPeriod + differenceInSeconds (start lowerInterval) (start higherInterval)
    else 0).

(** The [filter] callback applied to the periods of the lower schedule when
    the intervals overlap (lines 1141-1199). *)
Definition keepLower (arr : ref) (higherFirst : bool) (higherInterval lowerInterval : Interval)
    (schedulePeriod : ref) (index : nat) : M bool :=
  let lowerStartToHigherEnd := {| start := start lowerInterval; end_ := end_ higherInterval |} in
  let higherStartToLowerEnd := {| start := start higherInterval; end_ := end_ lowerInterval |} in
  do c1 <- (if higherFirst
            then periodWithin (start lowerInterval) lowerStartToHigherEnd schedulePeriod
            else ret false) ;
  if c1 : bool then ret false else
  do c2 <- (if higherFirst then
              do elements <- getArray arr ;
              if (index <? length elements - 1)%nat then
                do within <- periodWithin (start lowerInterval) lowerStartToHigherEnd schedulePeriod ;
                if negb within
                then nextPeriodWithin arr index (start lowerInterval) lowerStartToHigherEnd
                else ret false
              else ret false
            else ret false) ;
  if c2 : bool then ret false else
  do c3 <- (if negb higherFirst
            then periodWithin (start lowerInterval) higherStartToLowerEnd schedulePeriod
            else ret false) ;
  if c3 : bool then ret false else ret true.

(** The [map] callback applied to the surviving periods of the lower
    schedule (lines 1200-1214): the first survivor is written in place, then
    every survivor is copied with its shifted [startPeriod]. *)
Definition resetFirstAndShiftLower (higherFirst : bool) (higherInterval lowerInterval : Interval)
    (schedulePeriod : ref) (index : nat) : M ref :=
  exec resetFirstStartPeriod schedulePeriod index ;
  shiftLower higherFirst higherInterval lowerInterval schedulePeriod index.

Definition composeChargingSchedules
    (chargingScheduleHigher chargingScheduleLower : option ChargingSchedule)
    (compositeInterval : Interval) : M (option ChargingSchedule) :=
  match chargingScheduleHigher, chargingScheduleLower with
  | None, None => ret None
  | Some higher, None => composeChargingSchedule higher compositeInterval
  | None, Some lower => composeChargingSchedule lower compositeInterval
  | Some higher, Some lower =>
      do compositeChargingScheduleHigher <- composeChargingSchedule higher compositeInterval ;
      do compositeChargingScheduleLower <- composeChargingSchedule lower compositeInterval ;
      do compositeHigher <- defined compositeChargingScheduleHigher ;
      do compositeLower <- defined compositeChargingScheduleLower ;
      do higherInterval <- lift (scheduleInterval compositeHigher) ;
      do lowerInterval <- lift (scheduleInterval compositeLower) ;
      let higherFirst := isBefore (start higherInterval) (start lowerInterval) in
      let startSchedule' :=
        if higherFirst then start higherInterval else start lowerInterval in
      let duration' :=
        if higherFirst
        then differenceInSeconds (end_ lowerInterval) (start higherInterval)
        else differenceInSeconds (end_ higherInterval) (start lowerInterval) in
      do overlapping <- lift (areIntervalsOverlapping higherInterval lowerInterval) ;
      if negb overlapping then
        do higherElements <- getArray (chargingSchedulePeriod compositeHigher) ;
        do higherPeriods <- Array_map (shiftHigher higherFirst higherInterval lowerInterval)
                              higherElements ;
        do lowerElements <- getArray (chargingSchedulePeriod compositeLower) ;
        do lowerPeriods <- Array_map (shiftLower higherFirst higherInterval lowerInterval)
                             lowerElements ;
        do arr <- newArray (higherPeriods ++ lowerPeriods) ;
        exec sortByStartPeriod arr ;
        ret (Some {| duration := Some duration';
                     startSchedule := Some startSchedule';
                     chargingRateUnit := chargingRateUnit compositeHigher;
                     chargingSchedulePeriod := arr |})
      else
        do higherElements <- getArray (chargingSchedulePeriod compositeHigher) ;
        do higherPeriods <- Array_map (shiftHigher higherFirst higherInterval lowerInterval)
                              higherElements ;
        do lowerElements <- getArray (chargingSchedulePeriod compositeLower) ;
        do kept <- Array_filter
                     (keepLower (chargingSchedulePeriod compositeLower) higherFirst
                        higherInterval lowerInterval)
                     lowerElements ;
        do lowerPeriods <- Array_map
                             (resetFirstAndShiftLower higherFirst higherInterval lowerInterval)
                             kept ;
        do arr <- newArray (higherPeriods ++ lowerPeriods) ;
        exec sortByStartPeriod arr ;
        ret (Some {| duration := Some duration';
                     startSchedule := Some startSchedule';
                     chargingRateUnit := chargingRateUnit compositeHigher;
                     chargingSchedulePeriod := arr |})
  end.

(** The period values of a schedule, read through the heap. *)
Definition periodsOf (h : Heap) (s : ChargingSchedule) : list ChargingSchedulePeriod :=
  deref h <$> array h (chargingSchedulePeriod s).

(** *** Scenario S5 of the specification (t0 = 0). *)
Module S5.
Definition heap : Heap :=
  {| periods := [ {| startPeriod := 0; limit := 10; numberPhases := None |};
                  {| startPeriod := 150; limit := 6; numberPhases := None |};
                  {| startPeriod := 0; limit := 32; numberPhases := None |};
                  {| startPeriod := 100; limit := 20; numberPhases := None |};
                  {| startPeriod := 250; limit := 16; numberPhases := None |} ];
     arrays := [ [0; 1]; [2; 3; 4] ]%nat |}.
Definition higher : ChargingSchedule :=
  {| duration := Some 300; startSchedule := Some 0;
     chargingRateUnit := AMPERE; chargingSchedulePeriod := 0%nat |}.
Definition lower : ChargingSchedule :=
  {| duration := Some 400; startSchedule := Some 200000;
     chargingRateUnit := AMPERE; chargingSchedulePeriod := 1%nat |}.
Definition compositeInterval : Interval := {| start := 0; end_ := 600000 |}.
End S5.


(** ** Pure readings of the callbacks, for reasoning *)

Fixpoint filter_idx {A} (g : A → nat → bool) (index : nat) (l : list A) : list A :=
  match l with
  | [] => []
  | x :: l' => if g x index then x :: filter_idx g (S index) l' else filter_idx g (S index) l'
  end.

Definition withinB (h : Heap) (intervalStart : Date) (interval : Interval) (p : ref) : bool :=
  (start interval <=? periodInstant h intervalStart p)
  && (periodInstant h intervalStart p <=? end_ interval).

Definition nextWithinB (h : Heap) (arr : ref) (intervalStart : Date) (interval : Interval)
    (index : nat) : bool :=
  (index <? length (array h arr) - 1)%nat
  && match array h arr !! S index with
     | Some q => withinB h intervalStart interval q
     | None => false
     end.

Definition keepClippedStartB (h : Heap) (arr : ref) (intervalStart : Date)
    (interval : Interval) (p : ref) (index : nat) : bool :=
  withinB h intervalStart interval p || nextWithinB h arr intervalStart interval index.

Definition keepLowerB (h : Heap) (arr : ref) (higherFirst : bool)
    (higherInterval lowerInterval : Interval) (p : ref) (index : nat) : bool :=
  if higherFirst then
    let overlap := {| start := start lowerInterval; end_ := end_ higherInterval |} in
    negb (withinB h (start lowerInterval) overlap p)
    && negb (nextWithinB h arr (start lowerInterval) overlap index)
  else
    negb (withinB h (start lowerInterval)
            {| start := start higherInterval; end_ := end_ lowerInterval |} p).

Section MonadLemmas.

Lemma bind_ok {A B} (m : M A) (k : A → M B) h a h' :
  m h = (Ok a, h') → bind m k h = k a h'.
Proof. intros E. unfold bind. now rewrite E. Qed.

Lemma bind_throw {A B} (m : M A) (k : A → M B) h e h' :
  m h = (Throw e, h') → bind m k h = (Throw e, h').
Proof. intros E. unfold bind. now rewrite E. Qed.

Lemma filter_from_pure {A} (f : A → nat → M bool) (g : A → nat → bool) h :
  (∀ x i, f x i h = (Ok (g x i), h)) →
  ∀ l n, filter_from f n l h = (Ok (filter_idx g n l), h).
Proof.
  intros Hf l. induction l as [|x l IH]; intros n; simpl; [reflexivity|].
  rewrite (bind_ok _ _ _ _ _ (Hf x n)).
  rewrite (bind_ok _ _ _ _ _ (IH (S n))).
  unfold ret. now destruct (g x n).
Qed.

Lemma periodWithin_valid st I p h :
  validInterval I = true → periodWithin st I p h = (Ok (withinB h st I p), h).
Proof. intros V. unfold periodWithin, isWithinInterval. now rewrite V. Qed.

Lemma nextPeriodWithin_valid arr i st I h :
  validInterval I = true → (i <? length (array h arr) - 1)%nat = true →
  nextPeriodWithin arr i st I h = (Ok (nextWithinB h arr st I i), h).
Proof.
  intros V Hi. unfold nextPeriodWithin, nextWithinB. rewrite Hi. simpl.
  apply Nat.ltb_lt in Hi.
  destruct (lookup_lt_is_Some_2 (array h arr) (S i)) as [q Hq]; [lia|].
  rewrite Hq. now apply periodWithin_valid.
Qed.

Lemma keepClippedStart_pure arr st I h p i :
  validInterval I = true →
  keepClippedStart arr st I p i h = (Ok (keepClippedStartB h arr st I p i), h).
Proof.
  intros V. unfold keepClippedStart, keepClippedStartB.
  rewrite (bind_ok _ _ _ _ _ (periodWithin_valid st I p h V)).
  destruct (withinB h st I p) eqn:W; simpl; [reflexivity|].
  unfold bind at 1, getArray.
  destruct (i <? length (array h arr) - 1)%nat eqn:Hi.
  - rewrite (bind_ok _ _ _ _ _ (periodWithin_valid st I p h V)).
    rewrite W. simpl. now apply nextPeriodWithin_valid.
  - unfold nextWithinB. now rewrite Hi.
Qed.

Lemma keepLower_pure arr hf ih il h p i :
  validInterval {| start := start il; end_ := end_ ih |} = true →
  validInterval {| start := start ih; end_ := end_ il |} = true →
  keepLower arr hf ih il p i h = (Ok (keepLowerB h arr hf ih il p i), h).
Proof.
  intros V1 V2. unfold keepLower, keepLowerB. destruct hf; simpl.
  - rewrite (bind_ok _ _ _ _ _ (periodWithin_valid _ _ p h V1)).
    destruct (withinB h (start il) _ p) eqn:W; simpl; [reflexivity|].
    unfold bind at 1. unfold bind at 1, getArray.
    destruct (i <? length (array h arr) - 1)%nat eqn:Hi.
    + rewrite (bind_ok _ _ _ _ _ (periodWithin_valid _ _ p h V1)).
      rewrite W. simpl.
      rewrite (nextPeriodWithin_valid _ _ _ _ _ V1 Hi).
      now destruct (nextWithinB _ _ _ _ _).
    + unfold nextWithinB. rewrite Hi. reflexivity.
  - unfold bind, ret. rewrite (periodWithin_valid _ _ p h V2).
    now destruct (withinB _ _ _ _).
Qed.

End MonadLemmas.

(** ** Sorting by [startPeriod] *)

Definition sortPeriods (l : list ChargingSchedulePeriod) : list ChargingSchedulePeriod :=
  sort_by startPeriod l.

Definition sorted_by {A} (key : A → Z) (l : list A) : Prop :=
  StronglySorted (λ p q, key p <= key q) l.

(** Sorted ascending by [startPeriod] (equal values allowed). *)
Definition sortedByStartPeriod (l : list ChargingSchedulePeriod) : Prop :=
  sorted_by startPeriod l.

Section Sorting.

Context {A : Type} (key : A → Z).

Lemma sort_by_cons x l : sort_by key (x :: l) = insert_by key x (sort_by key l).
Proof. reflexivity. Qed.

Lemma insert_by_perm x l : insert_by key x l ≡ₚ x :: l.
Proof.
  induction l as [|y l IH]; simpl; [reflexivity|].
  destruct (key x <=? key y); [reflexivity|].
  rewrite IH. apply Permutation_swap.
Qed.

Lemma sort_by_perm l : sort_by key l ≡ₚ l.
Proof.
  induction l as [|x l IH]; [reflexivity|].
  now rewrite sort_by_cons, insert_by_perm, IH.
Qed.

Lemma insert_by_sorted x l : sorted_by key l → sorted_by key (insert_by key x l).
Proof.
  unfold sorted_by. induction 1 as [|y l S IH F]; simpl.
  - repeat constructor.
  - destruct (key x <=? key y) eqn:E.
    + constructor; [now constructor|]. constructor; [lia|].
      eapply Forall_impl; [exact F|]. simpl. intros; lia.
    + constructor; [exact IH|].
      rewrite (insert_by_perm x l). constructor; [lia|exact F].
Qed.

Lemma sort_by_sorted l : sorted_by key (sort_by key l).
Proof.
  induction l as [|x l IH]; [constructor|].
  rewrite sort_by_cons. now apply insert_by_sorted.
Qed.

(** A list that is already sorted is left as it is. *)
Lemma insert_by_le_all x l :
  Forall (λ q, key x <= key q) l → insert_by key x l = x :: l.
Proof.
  destruct l as [|y l]; simpl; [reflexivity|].
  intros F. inversion F; subst.
  destruct (key x <=? key y) eqn:E; [reflexivity|lia].
Qed.

Lemma sort_by_id l : sorted_by key l → sort_by key l = l.
Proof.
  induction 1 as [|x l S IH F]; [reflexivity|].
  rewrite sort_by_cons, IH. now apply insert_by_le_all.
Qed.

Lemma sorted_by_sublist l k : k `sublist_of` l → sorted_by key l → sorted_by key k.
Proof.
  unfold sorted_by. intros Hs. induction Hs as [|x k l Hs IH|x k l Hs IH]; intros S.
  - constructor.
  - inversion S as [|? ? S' F]; subst. constructor; [now apply IH|].
    rewrite Forall_forall in F |- *. intros y Hy. apply F.
    eapply elem_of_sublist; eassumption.
  - inversion S; subst. now apply IH.
Qed.

Lemma insert_by_fmap {B} (f : B → A) x l :
  f <$> insert_by (λ p, key (f p)) x l = insert_by key (f x) (f <$> l).
Proof.
  induction l as [|y l IH]; simpl; [reflexivity|].
  destruct (key (f x) <=? key (f y)); simpl; [reflexivity|].
  f_equal. exact IH.
Qed.

Lemma sort_by_fmap {B} (f : B → A) l :
  f <$> sort_by (λ p, key (f p)) l = sort_by key (f <$> l).
Proof.
  induction l as [|x l IH]; [reflexivity|].
  change (f <$> insert_by (λ p, key (f p)) x (sort_by (λ p, key (f p)) l)
          = insert_by key (f x) (sort_by key (f <$> l))).
  now rewrite insert_by_fmap, IH.
Qed.

Lemma sorted_by_fmap {B} (f : B → A) l :
  sorted_by (λ p, key (f p)) l → sorted_by key (f <$> l).
Proof.
  unfold sorted_by. induction 1 as [|x l S IH F]; simpl; constructor; auto.
  now apply Forall_fmap.
Qed.

End Sorting.

(** ** What one projection does to the heap *)

Definition sortedHeap (h : Heap) (a : ref) : Heap :=
  {| periods := periods h;
     arrays := <[a := sort_by (startPeriodOf h) (array h a)]> (arrays h) |}.

Definition resetHead (l : list ref) (h : Heap) : Heap :=
  match l with
  | [] => h
  | k :: _ =>
      if negb (startPeriodOf h k =? 0)
      then {| periods := alter (with_startPeriod 0) k (periods h); arrays := arrays h |}
      else h
  end.

Definition pushArray (l : list ref) (h : Heap) : Heap :=
  {| periods := periods h; arrays := arrays h ++ [l] |}.

Definition clippedStart (s : ChargingSchedule) (ci I : Interval) (h : Heap) : ChargingSchedule :=
  {| duration := Some (differenceInSeconds (end_ ci) (start I));
     startSchedule := Some (start I);
     chargingRateUnit := chargingRateUnit s;
     chargingSchedulePeriod := length (arrays h) |}.

Definition clippedEnd (s : ChargingSchedule) (ci I : Interval) (h : Heap) : ChargingSchedule :=
  {| duration := Some (differenceInSeconds (end_ I) (start ci));
     startSchedule := startSchedule s;
     chargingRateUnit := chargingRateUnit s;
     chargingSchedulePeriod := length (arrays h) |}.

Section Projection.

Lemma sortByStartPeriod_run a h : sortByStartPeriod a h = (Ok tt, sortedHeap h a).
Proof. reflexivity. Qed.

Lemma resetFirst_later n l h : map_from resetFirst (S n) l h = (Ok l, h).
Proof.
  revert n. induction l as [|x l IH]; intros n; simpl; [reflexivity|].
  unfold bind at 1. unfold resetFirst at 1, bind at 1, resetFirstStartPeriod. simpl.
  unfold ret at 1. unfold bind. rewrite IH. reflexivity.
Qed.

Lemma resetFirst_run l h : Array_map resetFirst l h = (Ok l, resetHead l h).
Proof.
  destruct l as [|k l]; [reflexivity|].
  unfold Array_map. simpl. unfold bind at 1.
  unfold resetFirst at 1, bind at 1, resetFirstStartPeriod, resetHead. simpl.
  destruct (negb (startPeriodOf h k =? 0)); simpl;
    unfold ret at 1; unfold bind; rewrite resetFirst_later; reflexivity.
Qed.

Lemma filter_idx_const {A} (g : A → bool) n l :
  filter_idx (λ p _, g p) n l = filter (λ p, g p = true) l.
Proof.
  revert n. induction l as [|x l IH]; intros n; simpl; [reflexivity|].
  rewrite filter_cons. destruct (decide (g x = true)) as [E|E].
  - rewrite E. now rewrite IH.
  - apply not_true_is_false in E. rewrite E. apply IH.
Qed.

Lemma overlapping_valid ci I b :
  areIntervalsOverlapping ci I = Ok b → validInterval ci = true ∧ validInterval I = true.
Proof.
  unfold areIntervalsOverlapping.
  destruct (validInterval ci), (validInterval I); simpl; intros E; try discriminate; auto.
Qed.

Variables (s : ChargingSchedule) (I ci : Interval) (h : Heap).
Hypothesis Hci : scheduleInterval s = Ok ci.

Let a := chargingSchedulePeriod s.
Let h1 := sortedHeap h a.

Lemma compose_disjoint :
  areIntervalsOverlapping ci I = Ok false →
  composeChargingSchedule s I h = (Ok None, h).
Proof.
  intros Ho. unfold composeChargingSchedule, bind, lift. now rewrite Hci, Ho.
Qed.

Lemma compose_clip_start :
  areIntervalsOverlapping ci I = Ok true →
  isBefore (start ci) (start I) = true →
  composeChargingSchedule s I h =
    let kept := filter_idx (keepClippedStartB h1 a (start ci) I) 0 (array h1 a) in
    (Ok (Some (clippedStart s ci I h)), pushArray kept (resetHead kept h1)).
Proof.
  intros Ho Hb. destruct (overlapping_valid _ _ _ Ho) as [_ VI].
  unfold composeChargingSchedule, lift. unfold bind at 1. rewrite Hci.
  unfold bind at 1. rewrite Ho.
  rewrite (bind_ok _ _ _ _ _ (sortByStartPeriod_run _ _)).
  rewrite Hb. fold a h1. unfold bind at 1, getArray.
  unfold Array_filter.
  rewrite (bind_ok _ _ _ _ _
             (filter_from_pure _ (keepClippedStartB h1 a (start ci) I) h1
                (λ x i, keepClippedStart_pure a (start ci) I h1 x i VI) _ 0%nat)).
  rewrite (bind_ok _ _ _ _ _ (resetFirst_run _ _)).
  unfold bind, newArray, ret, clippedStart, pushArray. simpl.
  assert (L : length (arrays (resetHead (filter_idx (keepClippedStartB h1 a (start ci) I) 0
                                           (array h1 a)) h1)) = length (arrays h)).
  { unfold resetHead. destruct (filter_idx _ _ _); simpl.
    - unfold h1, sortedHeap. simpl. now rewrite length_insert.
    - destruct (negb _); simpl; unfold h1, sortedHeap; simpl; now rewrite length_insert. }
  now rewrite L.
Qed.

Lemma compose_clip_end :
  areIntervalsOverlapping ci I = Ok true →
  isBefore (start ci) (start I) = false →
  isAfter (end_ ci) (end_ I) = true →
  composeChargingSchedule s I h =
    let kept := filter (λ p, withinB h1 (start ci) I p = true) (array h1 a) in
    (Ok (Some (clippedEnd s ci I h)), pushArray kept h1).
Proof.
  intros Ho Hb Ha. destruct (overlapping_valid _ _ _ Ho) as [_ VI].
  unfold composeChargingSchedule, lift. unfold bind at 1. rewrite Hci.
  unfold bind at 1. rewrite Ho.
  rewrite (bind_ok _ _ _ _ _ (sortByStartPeriod_run _ _)).
  rewrite Hb, Ha. fold a h1. unfold bind at 1, getArray.
  unfold Array_filter.
  rewrite (bind_ok _ _ _ _ _
             (filter_from_pure _ (λ p _, withinB h1 (start ci) I p) h1
                (λ x i, periodWithin_valid (start ci) I x h1 VI) _ 0%nat)).
  unfold bind, newArray, ret, clippedEnd, pushArray. simpl.
  rewrite length_insert, filter_idx_const. reflexivity.
Qed.

Lemma compose_unchanged :
  areIntervalsOverlapping ci I = Ok true →
  isBefore (start ci) (start I) = false →
  isAfter (end_ ci) (end_ I) = false →
  composeChargingSchedule s I h = (Ok (Some s), h1).
Proof.
  intros Ho Hb Ha.
  unfold composeChargingSchedule, lift. unfold bind at 1. rewrite Hci.
  unfold bind at 1. rewrite Ho.
  rewrite (bind_ok _ _ _ _ _ (sortByStartPeriod_run _ _)).
  now rewrite Hb, Ha.
Qed.

End Projection.

(** ** The periods kept when the start of a schedule is clipped *)

(** [keptRec w l]: keep an element that satisfies [w], or whose successor
    does: the index-free reading of [keepClippedStart]. *)
Fixpoint keptRec (w : ref → bool) (l : list ref) : list ref :=
  match l with
  | [] => []
  | x :: tl =>
      if w x || match tl with q :: _ => w q | [] => false end
      then x :: keptRec w tl
      else keptRec w tl
  end.

Section KeptFromClippedStart.

Lemma filter_idx_keptRec (w : ref → bool) (l0 : list ref) :
  ∀ l n, drop n l0 = l →
    filter_idx (λ p i, w p || ((i <? length l0 - 1)%nat
                               && match l0 !! S i with Some q => w q | None => false end))
      n l = keptRec w l.
Proof.
  induction l as [|x tl IH]; intros n Hd; simpl; [reflexivity|].
  assert (Htl : drop (S n) l0 = tl).
  { rewrite <- (Nat.add_1_l n), Nat.add_comm, <- drop_drop, Hd. reflexivity. }
  assert (Hlen : length l0 = (n + S (length tl))%nat).
  { pose proof (length_drop l0 n) as L. rewrite Hd in L. simpl in L.
    destruct (decide (n < length l0)%nat); [lia|].
    rewrite drop_ge in Hd by lia. discriminate. }
  assert (Hnext : l0 !! S n = head tl).
  { rewrite <- Htl. rewrite <- (Nat.add_0_r (S n)) at 1.
    rewrite <- lookup_drop. now destruct (drop (S n) l0). }
  rewrite Hnext, (IH (S n) Htl).
  destruct tl as [|q tl]; simpl.
  - replace (n <? length l0 - 1)%nat with false; [reflexivity|].
    symmetry. apply Nat.ltb_ge. simpl in Hlen. lia.
  - replace (n <? length l0 - 1)%nat with true; [reflexivity|].
    symmetry. apply Nat.ltb_lt. simpl in Hlen. lia.
Qed.

Lemma keptRec_sublist w l : keptRec w l `sublist_of` l.
Proof.
  induction l as [|x tl IH]; simpl; [constructor|].
  destruct (w x || _); now constructor.
Qed.

Variables (key : ref → Z) (st : Date) (I : Interval).
Hypothesis Hst : st < start I.

Let inst (p : ref) : Date := addSeconds st (key p).
Let w (p : ref) : bool := (start I <=? inst p) && (inst p <=? end_ I).
Let sorted := StronglySorted (λ p q, key p <= key q).

Lemma within_positive p : w p = true → 0 < key p.
Proof. unfold w, inst, addSeconds. intros E. lia. Qed.

Lemma keptRec_all_within l :
  sorted l → Forall (λ p, start I <= inst p) l →
  Forall (λ p, w p = true) (keptRec w l).
Proof.
  induction 1 as [|x tl S IH F]; intros B; [constructor|].
  inversion B as [|? ? Bx Btl]; subst. cbn [keptRec].
  destruct (w x) eqn:Wx; cbn [orb].
  - constructor; auto.
  - assert (E : match tl with q :: _ => w q | [] => false end = false).
    { destruct tl as [|q tl']; [reflexivity|].
      destruct (w q) eqn:Wq; [|reflexivity].
      exfalso. inversion F as [|? ? Fq _]; subst.
      unfold w, inst, addSeconds in *. lia. }
    rewrite E. now apply IH.
Qed.

Lemma keptRec_tail_within l :
  sorted l →
  match keptRec w l with
  | [] => True
  | _ :: rest => Forall (λ p, w p = true) rest
  end.
Proof.
  induction 1 as [|x tl S IH F]; [exact Logic.I|].
  cbn [keptRec].
  destruct (w x || match tl with q :: _ => w q | [] => false end) eqn:E; [|exact IH].
  apply keptRec_all_within; [assumption|].
  apply orb_true_iff in E. destruct E as [Wx | Wq].
  - eapply Forall_impl; [exact F|]. simpl. intros p Hp.
    unfold w, inst, addSeconds in *. lia.
  - destruct tl as [|q tl']; [discriminate|].
    inversion S as [|? ? S' F']; subst. constructor.
    + unfold w in Wq. lia.
    + eapply Forall_impl; [exact F'|]. simpl. intros p Hp.
      unfold w, inst, addSeconds in *. lia.
Qed.

End KeptFromClippedStart.

(** ** Reading the heap after a projection *)

Section HeapReads.

Lemma array_sortedHeap h a :
  array (sortedHeap h a) a = sort_by (startPeriodOf h) (array h a).
Proof.
  unfold array, sortedHeap. simpl.
  destruct (decide (a < length (arrays h))%nat) as [L|L].
  - now rewrite list_lookup_insert_eq.
  - rewrite list_insert_ge by lia. rewrite lookup_ge_None_2 by lia. reflexivity.
Qed.

Lemma array_sortedHeap_ne h a b : a ≠ b → array (sortedHeap h a) b = array h b.
Proof. intros N. unfold array, sortedHeap. simpl. now rewrite list_lookup_insert_ne. Qed.

Lemma length_arrays_sortedHeap h a : length (arrays (sortedHeap h a)) = length (arrays h).
Proof. unfold sortedHeap. simpl. apply length_insert. Qed.

Lemma length_arrays_resetHead l h : length (arrays (resetHead l h)) = length (arrays h).
Proof. unfold resetHead. destruct l; [reflexivity|]. now destruct (negb _). Qed.

Lemma arrays_resetHead l h : arrays (resetHead l h) = arrays h.
Proof. unfold resetHead. destruct l; [reflexivity|]. now destruct (negb _). Qed.

Lemma array_pushArray_new l h : array (pushArray l h) (length (arrays h)) = l.
Proof.
  unfold array, pushArray. simpl.
  rewrite lookup_app_r by lia. now rewrite Nat.sub_diag.
Qed.

Lemma array_pushArray_old l h a :
  (a < length (arrays h))%nat → array (pushArray l h) a = array h a.
Proof. intros L. unfold array, pushArray. simpl. now rewrite lookup_app_l. Qed.

Lemma with_startPeriod_same p : with_startPeriod (startPeriod p) p = p.
Proof. now destruct p. Qed.

Lemma deref_resetHead_head k rest h :
  deref (resetHead (k :: rest) h) k = with_startPeriod 0 (deref h k).
Proof.
  unfold resetHead. destruct (startPeriodOf h k =? 0) eqn:E; simpl.
  - apply Z.eqb_eq in E. unfold startPeriodOf in E.
    now rewrite <- E, with_startPeriod_same.
  - apply Z.eqb_neq in E. unfold startPeriodOf in E.
    unfold deref in *. cbn [periods]. rewrite list_lookup_alter_eq.
    destruct (periods h !! k) as [c|] eqn:Hk; [reflexivity|].
    exfalso. now apply E.
Qed.

Lemma deref_resetHead_other k rest h p :
  p ≠ k → deref (resetHead (k :: rest) h) p = deref h p.
Proof.
  intros N. unfold resetHead. destruct (negb _); [|reflexivity].
  unfold deref. cbn [periods]. now rewrite list_lookup_alter_ne.
Qed.

Lemma periods_resetHead k rest h :
  k ∉ rest →
  deref (resetHead (k :: rest) h) <$> (k :: rest)
  = with_startPeriod 0 (deref h k) :: (deref h <$> rest).
Proof.
  intros N. rewrite fmap_cons, deref_resetHead_head. f_equal.
  apply list_fmap_ext. intros i p Hp.
  apply deref_resetHead_other. intros ->. apply N.
  eapply list_elem_of_lookup_2; eassumption.
Qed.

End HeapReads.

(** ** Inversion of a successful projection *)

Definition keptClippedStart (h : Heap) (s : ChargingSchedule) (ci I : Interval) : list ref :=
  let a := chargingSchedulePeriod s in
  filter_idx (keepClippedStartB (sortedHeap h a) a (start ci) I) 0 (array (sortedHeap h a) a).

Definition keptClippedEnd (h : Heap) (s : ChargingSchedule) (ci I : Interval) : list ref :=
  let a := chargingSchedulePeriod s in
  filter (λ p, withinB (sortedHeap h a) (start ci) I p = true) (array (sortedHeap h a) a).

Inductive projection (s : ChargingSchedule) (I : Interval) (h : Heap)
  : ChargingSchedule → Heap → Prop :=
| proj_clip_start ci :
    scheduleInterval s = Ok ci →
    areIntervalsOverlapping ci I = Ok true →
    isBefore (start ci) (start I) = true →
    projection s I h (clippedStart s ci I h)
      (pushArray (keptClippedStart h s ci I)
         (resetHead (keptClippedStart h s ci I) (sortedHeap h (chargingSchedulePeriod s))))
| proj_clip_end ci :
    scheduleInterval s = Ok ci →
    areIntervalsOverlapping ci I = Ok true →
    isBefore (start ci) (start I) = false →
    isAfter (end_ ci) (end_ I) = true →
    projection s I h (clippedEnd s ci I h)
      (pushArray (keptClippedEnd h s ci I) (sortedHeap h (chargingSchedulePeriod s)))
| proj_unchanged ci :
    scheduleInterval s = Ok ci →
    areIntervalsOverlapping ci I = Ok true →
    isBefore (start ci) (start I) = false →
    isAfter (end_ ci) (end_ I) = false →
    projection s I h s (sortedHeap h (chargingSchedulePeriod s)).

Lemma composeChargingSchedule_inv s I h r h' :
  composeChargingSchedule s I h = (Ok (Some r), h') → projection s I h r h'.
Proof.
  intros E.
  destruct (scheduleInterval s) as [ci|e] eqn:Hci.
  2:{ unfold composeChargingSchedule, bind, lift in E. rewrite Hci in E. discriminate. }
  destruct (areIntervalsOverlapping ci I) as [[|]|e] eqn:Ho.
  - destruct (isBefore (start ci) (start I)) eqn:Hb.
    + rewrite (compose_clip_start s I ci h Hci Ho Hb) in E. simpl in E.
      injection E as <- <-. now apply proj_clip_start.
    + destruct (isAfter (end_ ci) (end_ I)) eqn:Ha.
      * rewrite (compose_clip_end s I ci h Hci Ho Hb Ha) in E. simpl in E.
        injection E as <- <-. now apply proj_clip_end.
      * rewrite (compose_unchanged s I ci h Hci Ho Hb Ha) in E.
        injection E as <- <-. now apply (proj_unchanged s I h ci).
  - rewrite (compose_disjoint s I ci h Hci Ho) in E. discriminate.
  - unfold composeChargingSchedule, bind, lift in E. rewrite Hci, Ho in E. discriminate.
Qed.

Lemma composeChargingSchedule_complete s I h r h' :
  projection s I h r h' → composeChargingSchedule s I h = (Ok (Some r), h').
Proof.
  destruct 1.
  - now rewrite (compose_clip_start s I ci h).
  - now rewrite (compose_clip_end s I ci h).
  - now rewrite (compose_unchanged s I ci h).
Qed.

(** ** The periods of a projected schedule *)

Section ProjectedPeriods.

Variables (s : ChargingSchedule) (I : Interval) (h : Heap).
Let a := chargingSchedulePeriod s.
Let h1 := sortedHeap h a.

Lemma sorted_array_sortedHeap : sorted_by (startPeriodOf h) (array h1 a).
Proof. unfold h1. rewrite array_sortedHeap. apply sort_by_sorted. Qed.

Lemma periodsOf_unchanged : periodsOf h1 s = sortPeriods (periodsOf h s).
Proof.
  unfold periodsOf, sortPeriods. fold a. unfold h1. rewrite array_sortedHeap.
  apply (sort_by_fmap startPeriod (deref h)).
Qed.

Lemma periodsOf_clippedEnd ci :
  periodsOf (pushArray (keptClippedEnd h s ci I) h1) (clippedEnd s ci I h)
  = deref h <$> keptClippedEnd h s ci I.
Proof.
  unfold periodsOf, clippedEnd. cbn [chargingSchedulePeriod].
  rewrite <- (length_arrays_sortedHeap h a). fold h1.
  now rewrite array_pushArray_new.
Qed.

Lemma keptClippedStart_keptRec ci :
  keptClippedStart h s ci I = keptRec (withinB h (start ci) I) (array h1 a).
Proof.
  unfold keptClippedStart. fold a h1.
  apply (filter_idx_keptRec (withinB h1 (start ci) I) (array h1 a) _ 0%nat).
  reflexivity.
Qed.

Lemma periodsOf_clippedStart ci :
  NoDup (array h a) →
  periodsOf (pushArray (keptClippedStart h s ci I) (resetHead (keptClippedStart h s ci I) h1))
    (clippedStart s ci I h)
  = match keptClippedStart h s ci I with
    | [] => []
    | k :: rest => with_startPeriod 0 (deref h k) :: (deref h <$> rest)
    end.
Proof.
  intros ND. unfold periodsOf, clippedStart. cbn [chargingSchedulePeriod].
  rewrite <- (length_arrays_sortedHeap h a). fold h1.
  rewrite <- (length_arrays_resetHead (keptClippedStart h s ci I) h1).
  rewrite array_pushArray_new.
  assert (NDk : NoDup (keptClippedStart h s ci I)).
  { rewrite keptClippedStart_keptRec.
    eapply sublist_NoDup; [|apply keptRec_sublist].
    unfold h1. rewrite array_sortedHeap. now rewrite sort_by_perm. }
  destruct (keptClippedStart h s ci I) as [|k rest]; [reflexivity|].
  apply NoDup_cons in NDk as [Nk _].
  change (deref (pushArray (k :: rest) (resetHead (k :: rest) h1)))
    with (deref (resetHead (k :: rest) h1)).
  now rewrite periods_resetHead.
Qed.

Lemma projection_sorted r h' :
  NoDup (array h a) → projection s I h r h' → sortedByStartPeriod (periodsOf h' r).
Proof.
  intros ND P. destruct P as [ci Hci Ho Hb|ci Hci Ho Hb Ha|ci Hci Ho Hb Ha].
  - fold a h1. rewrite periodsOf_clippedStart by assumption.
    rewrite keptClippedStart_keptRec.
    pose proof sorted_array_sortedHeap as S.
    assert (Hst : start ci < start I) by (apply Z.ltb_lt; exact Hb).
    assert (T : match keptRec (withinB h (start ci) I) (array h1 a) with
                | [] => True
                | _ :: rest => Forall (λ p, withinB h (start ci) I p = true) rest
                end)
      by exact (keptRec_tail_within (startPeriodOf h) (start ci) I (array h1 a) S).
    pose proof (sorted_by_sublist _ _ _ (keptRec_sublist (withinB h (start ci) I) (array h1 a)) S)
      as Sk.
    destruct (keptRec (withinB h (start ci) I) (array h1 a)) as [|k rest]; [constructor|].
    inversion Sk as [|? ? Srest _]; subst.
    constructor.
    + now apply (sorted_by_fmap startPeriod (deref h)).
    + apply Forall_fmap. eapply Forall_impl; [exact T|]. simpl. intros p Wp.
      apply (within_positive (startPeriodOf h) (start ci) I Hst) in Wp.
      unfold startPeriodOf in Wp. lia.
  - fold a h1. rewrite periodsOf_clippedEnd.
    apply (sorted_by_fmap startPeriod (deref h)).
    eapply sorted_by_sublist; [|apply sorted_array_sortedHeap].
    unfold keptClippedEnd. apply sublist_filter.
  - fold a h1. rewrite periodsOf_unchanged. apply sort_by_sorted.
Qed.

End ProjectedPeriods.

(** ** Well-formed heaps

    Every array holds references to live period objects, pairwise distinct:
    what a schedule decoded from a JSON payload looks like. *)

Definition heap_wf (h : Heap) : Prop :=
  ∀ a l, arrays h !! a = Some l →
         NoDup l ∧ Forall (λ p, (p < length (periods h))%nat) l.

Definition pushPeriods (vs : list ChargingSchedulePeriod) (h : Heap) : Heap :=
  {| periods := periods h ++ vs; arrays := arrays h |}.

Section WellFormed.

Lemma array_wf h a :
  heap_wf h → NoDup (array h a) ∧ Forall (λ p, (p < length (periods h))%nat) (array h a).
Proof.
  intros W. unfold array. destruct (arrays h !! a) as [l|] eqn:E; simpl.
  - exact (W a l E).
  - split; constructor.
Qed.

Lemma length_periods_resetHead l h :
  length (periods (resetHead l h)) = length (periods h).
Proof.
  unfold resetHead. destruct l; [reflexivity|].
  destruct (negb _); [|reflexivity]. simpl. apply length_alter.
Qed.

Lemma heap_wf_sortedHeap h a : heap_wf h → heap_wf (sortedHeap h a).
Proof.
  intros W b l. unfold sortedHeap. cbn [arrays periods].
  destruct (decide (a = b)) as [<-|N].
  - intros E. destruct (decide (a < length (arrays h))%nat) as [L|L].
    + rewrite list_lookup_insert_eq in E by assumption. injection E as <-.
      destruct (array_wf h a W) as [ND F].
      split; now rewrite sort_by_perm.
    + rewrite list_insert_ge in E by lia. exact (W a l E).
  - rewrite list_lookup_insert_ne by assumption. apply W.
Qed.

Lemma heap_wf_resetHead l h : heap_wf h → heap_wf (resetHead l h).
Proof.
  intros W b k. rewrite arrays_resetHead, length_periods_resetHead. apply W.
Qed.

Lemma heap_wf_pushArray l h :
  heap_wf h → NoDup l → Forall (λ p, (p < length (periods h))%nat) l →
  heap_wf (pushArray l h).
Proof.
  intros W ND F b k. unfold pushArray. cbn [arrays periods].
  intros E. apply lookup_app_Some in E as [E|[_ E]]; [exact (W b k E)|].
  destruct (b - length (arrays h))%nat; [|discriminate].
  injection E as <-. now split.
Qed.

Lemma heap_wf_pushPeriods vs h : heap_wf h → heap_wf (pushPeriods vs h).
Proof.
  intros W b k E. destruct (W b k E) as [ND F]. split; [exact ND|].
  eapply Forall_impl; [exact F|]. unfold pushPeriods. cbn [periods].
  intros p Hp. rewrite length_app. simpl in *. lia.
Qed.

Lemma sublist_wf h l k :
  k `sublist_of` l →
  NoDup l ∧ Forall (λ p, (p < length (periods h))%nat) l →
  NoDup k ∧ Forall (λ p, (p < length (periods h))%nat) k.
Proof.
  intros Hs [ND F]. split; [eapply sublist_NoDup; eassumption|].
  rewrite Forall_forall in F |- *. intros p Hp. apply F.
  eapply elem_of_sublist; eassumption.
Qed.

(** A projection keeps the heap well formed. *)
Lemma projection_wf s I h r h' : heap_wf h → projection s I h r h' → heap_wf h'.
Proof.
  intros W P.
  pose proof (heap_wf_sortedHeap h (chargingSchedulePeriod s) W) as W1.
  destruct P as [ci Hci Ho Hb|ci Hci Ho Hb Ha|ci Hci Ho Hb Ha]; [| |exact W1].
  - destruct (sublist_wf (sortedHeap h (chargingSchedulePeriod s))
                (array (sortedHeap h (chargingSchedulePeriod s)) (chargingSchedulePeriod s))
                (keptClippedStart h s ci I)) as [ND F].
    { rewrite keptClippedStart_keptRec. apply keptRec_sublist. }
    { now apply array_wf. }
    apply heap_wf_pushArray; [now apply heap_wf_resetHead|exact ND|].
    now rewrite length_periods_resetHead.
  - destruct (sublist_wf (sortedHeap h (chargingSchedulePeriod s))
                (array (sortedHeap h (chargingSchedulePeriod s)) (chargingSchedulePeriod s))
                (keptClippedEnd h s ci I)) as [ND F].
    { unfold keptClippedEnd. apply sublist_filter. }
    { now apply array_wf. }
    now apply heap_wf_pushArray.
Qed.

Lemma deref_pushPeriods_old vs h p :
  (p < length (periods h))%nat → deref (pushPeriods vs h) p = deref h p.
Proof. intros L. unfold deref, pushPeriods. cbn [periods]. now rewrite lookup_app_l. Qed.

Lemma deref_pushPeriods_new vs h i :
  deref (pushPeriods vs h) (length (periods h) + i) = default nullPeriod (vs !! i).
Proof.
  unfold deref, pushPeriods. cbn [periods].
  rewrite lookup_app_r by lia. do 2 f_equal. lia.
Qed.

Lemma pushPeriods_nil h : pushPeriods [] h = h.
Proof. unfold pushPeriods. rewrite app_nil_r. now destruct h. Qed.

Lemma pushPeriods_cons v vs h : pushPeriods vs (pushPeriods [v] h) = pushPeriods (v :: vs) h.
Proof. unfold pushPeriods. cbn [periods arrays]. now rewrite <- app_assoc. Qed.

(** Copying every period of a list with a changed [startPeriod]: the
    copies are fresh objects, appended to the heap in order. *)
Definition copies (v : Z → Z) (h : Heap) (l : list ref) : list ChargingSchedulePeriod :=
  (λ p, with_startPeriod (v (startPeriodOf h p)) (deref h p)) <$> l.

Lemma map_copy_run (v : Z → Z) l :
  ∀ n h, Forall (λ p, (p < length (periods h))%nat) l →
    map_from (λ p _, copyWithStartPeriod p v) n l h
    = (Ok (seq (length (periods h)) (length l)), pushPeriods (copies v h l) h).
Proof.
  induction l as [|x l IH]; intros n h F.
  - simpl. unfold ret, copies. cbn [fmap list_fmap]. now rewrite pushPeriods_nil.
  - inversion F as [|? ? Fx Fl]; subst.
    cbn [map_from]. unfold bind at 1.
    unfold copyWithStartPeriod at 1, bind at 1, getPeriod, newPeriod.
    fold (pushPeriods [with_startPeriod (v (startPeriod (deref h x))) (deref h x)] h).
    set (h' := pushPeriods _ h).
    assert (Fl' : Forall (λ p, (p < length (periods h'))%nat) l).
    { eapply Forall_impl; [exact Fl|]. intros p Hp. unfold h', pushPeriods.
      cbn [periods]. rewrite length_app. simpl in *. lia. }
    unfold bind. rewrite (IH (S n) h' Fl'). unfold ret.
    assert (L : length (periods h') = S (length (periods h))).
    { unfold h', pushPeriods. cbn [periods]. rewrite length_app. simpl. lia. }
    rewrite L. cbn [length seq]. f_equal.
    assert (C : copies v h' l = copies v h l).
    { unfold copies. apply list_fmap_ext. intros i p Hp.
      assert (Lp : (p < length (periods h))%nat).
      { rewrite Forall_forall in Fl. apply Fl. eapply list_elem_of_lookup_2; eassumption. }
      unfold startPeriodOf, h'. now rewrite deref_pushPeriods_old. }
    rewrite C. unfold h'. rewrite pushPeriods_cons. reflexivity.
Qed.

End WellFormed.

(** ** The combination of two projected schedules that overlap *)

Definition shiftOfHigher (higherFirst : bool) (ih il : Interval) (startPeriod : Z) : Z :=
  if higherFirst then 0 else startPeriod + differenceInSeconds (start ih) (start il).

Definition shiftOfLower (higherFirst : bool) (ih il : Interval) (startPeriod : Z) : Z :=
  if higherFirst then startPeriod + differenceInSeconds (start il) (start ih) else 0.

(** The periods of the lower schedule that survive the filter. *)
Definition survivors (h : Heap) (pl : ChargingSchedule) (ih il : Interval) : list ref :=
  filter_idx (keepLowerB h (chargingSchedulePeriod pl) (isBefore (start ih) (start il)) ih il)
    0 (array h (chargingSchedulePeriod pl)).

(** What the surviving periods are copied to: the first one with its
    [startPeriod] reset to 0 before the shift. *)
Definition lowerCopies (h : Heap) (pl : ChargingSchedule) (ih il : Interval)
  : list ChargingSchedulePeriod :=
  let v := shiftOfLower (isBefore (start ih) (start il)) ih il in
  match survivors h pl ih il with
  | [] => []
  | k :: rest => with_startPeriod (v 0) (deref h k) :: copies v h rest
  end.

Definition higherCopies (h : Heap) (ph : ChargingSchedule) (ih il : Interval)
  : list ChargingSchedulePeriod :=
  copies (shiftOfHigher (isBefore (start ih) (start il)) ih il) h
    (array h (chargingSchedulePeriod ph)).

Definition combinedSchedule (h : Heap) (ph : ChargingSchedule) (ih il : Interval)
  : ChargingSchedule :=
  let higherFirst := isBefore (start ih) (start il) in
  {| duration := Some (if higherFirst
                       then differenceInSeconds (end_ il) (start ih)
                       else differenceInSeconds (end_ ih) (start il));
     startSchedule := Some (if higherFirst then start ih else start il);
     chargingRateUnit := chargingRateUnit ph;
     chargingSchedulePeriod := length (arrays h) |}.

Section Combination.

Lemma filter_idx_ext {A} (g g' : A → nat → bool) l :
  ∀ n, (∀ i p, l !! i = Some p → g p (n + i)%nat = g' p (n + i)%nat) →
       filter_idx g n l = filter_idx g' n l.
Proof.
  induction l as [|x l IH]; intros n E; simpl; [reflexivity|].
  pose proof (E 0%nat x eq_refl) as E0. rewrite Nat.add_0_r in E0. rewrite E0.
  rewrite (IH (S n)); [reflexivity|].
  intros i p Hp. specialize (E (S i) p Hp). now rewrite Nat.add_succ_r in E.
Qed.

Lemma withinB_pushPeriods vs h st I p :
  (p < length (periods h))%nat → withinB (pushPeriods vs h) st I p = withinB h st I p.
Proof.
  intros L. unfold withinB, periodInstant, startPeriodOf.
  now rewrite deref_pushPeriods_old.
Qed.

Lemma keepLowerB_pushPeriods vs h arr hf ih il p i :
  heap_wf h → (p < length (periods h))%nat →
  keepLowerB (pushPeriods vs h) arr hf ih il p i = keepLowerB h arr hf ih il p i.
Proof.
  intros W L. unfold keepLowerB.
  assert (N : ∀ I, nextWithinB (pushPeriods vs h) arr (start il) I i
                   = nextWithinB h arr (start il) I i).
  { intros I. unfold nextWithinB.
    change (array (pushPeriods vs h) arr) with (array h arr).
    destruct (array h arr !! S i) as [q|] eqn:Hq; [|reflexivity].
    rewrite withinB_pushPeriods; [reflexivity|].
    destruct (array_wf h arr W) as [_ F]. rewrite Forall_forall in F.
    apply F. eapply list_elem_of_lookup_2; eassumption. }
  destruct hf; rewrite ?N, !withinB_pushPeriods by assumption; reflexivity.
Qed.

Lemma resetFirstAndShiftLower_later hf ih il l :
  ∀ n h, map_from (resetFirstAndShiftLower hf ih il) (S n) l h
         = map_from (shiftLower hf ih il) (S n) l h.
Proof.
  induction l as [|x l IH]; intros n h; [reflexivity|].
  cbn [map_from]. unfold bind at 1 3.
  unfold resetFirstAndShiftLower at 1. unfold bind at 1, resetFirstStartPeriod.
  cbn [Nat.eqb andb].
  destruct (shiftLower hf ih il x (S n) h) as [[y|e] h']; [|reflexivity].
  unfold bind. now rewrite IH.
Qed.

Lemma resetFirstAndShiftLower_run hf ih il l h :
  Array_map (resetFirstAndShiftLower hf ih il) l h
  = Array_map (shiftLower hf ih il) l (resetHead l h).
Proof.
  destruct l as [|k l]; [reflexivity|].
  unfold Array_map. cbn [map_from]. unfold bind at 1 3.
  unfold resetFirstAndShiftLower at 1. unfold bind at 1, resetFirstStartPeriod, resetHead.
  cbn [Nat.eqb andb].
  destruct (negb (startPeriodOf h k =? 0)); unfold setStartPeriod;
    (destruct (shiftLower hf ih il k 0 _) as [[y|e] h']; [|reflexivity]);
    unfold bind; now rewrite resetFirstAndShiftLower_later.
Qed.

Lemma fmap_deref_new vs h :
  deref (pushPeriods vs h) <$> seq (length (periods h)) (length vs) = vs.
Proof.
  apply list_eq. intros i. rewrite list_lookup_fmap.
  destruct (decide (i < length vs)%nat) as [L|L].
  - rewrite lookup_seq_lt by assumption. simpl.
    rewrite deref_pushPeriods_new.
    destruct (lookup_lt_is_Some_2 vs i L) as [v Hv]. now rewrite Hv.
  - rewrite lookup_seq_ge by lia. now rewrite lookup_ge_None_2 by lia.
Qed.

Lemma with_startPeriod_twice a b p :
  with_startPeriod a (with_startPeriod b p) = with_startPeriod a p.
Proof. reflexivity. Qed.

End Combination.

Definition combinedHeap (h : Heap) (ph pl : ChargingSchedule) (ih il : Interval) : Heap :=
  let higherFirst := isBefore (start ih) (start il) in
  let hA := pushPeriods (higherCopies h ph ih il) h in
  let kept := survivors h pl ih il in
  let hB := resetHead kept hA in
  let hC := pushPeriods (copies (shiftOfLower higherFirst ih il) hB kept) hB in
  let fresh := seq (length (periods h)) (length (array h (chargingSchedulePeriod ph)))
               ++ seq (length (periods hB)) (length kept) in
  sortedHeap (pushArray fresh hC) (length (arrays h)).

Section Overlapping.

Variables (higher lower ph pl : ChargingSchedule) (I ih il : Interval) (h0 h1 h2 : Heap).
Hypothesis W : heap_wf h2.
Hypothesis Hh : composeChargingSchedule higher I h0 = (Ok (Some ph), h1).
Hypothesis Hl : composeChargingSchedule lower I h1 = (Ok (Some pl), h2).
Hypothesis Hih : scheduleInterval ph = Ok ih.
Hypothesis Hil : scheduleInterval pl = Ok il.
Hypothesis Ho : areIntervalsOverlapping ih il = Ok true.

Let hf := isBefore (start ih) (start il).
Let kept := survivors h2 pl ih il.
Let hA := pushPeriods (higherCopies h2 ph ih il) h2.
Let hB := resetHead kept hA.

Lemma overlap_valid :
  validInterval {| start := start il; end_ := end_ ih |} = true
  ∧ validInterval {| start := start ih; end_ := end_ il |} = true.
Proof.
  unfold areIntervalsOverlapping in Ho.
  destruct (validInterval ih && validInterval il) eqn:V; [|discriminate].
  injection Ho as Ho'. unfold validInterval, isValid in *. simpl. lia.
Qed.

Lemma survivors_wf :
  NoDup kept ∧ Forall (λ p, (p < length (periods h2))%nat) kept.
Proof.
  assert (S : kept `sublist_of` array h2 (chargingSchedulePeriod pl)).
  { unfold kept, survivors. generalize 0%nat.
    induction (array h2 (chargingSchedulePeriod pl)) as [|x l IH]; intros n; simpl.
    - constructor.
    - destruct (keepLowerB _ _ _ _ _ x n); constructor; apply IH. }
  eapply sublist_wf; [exact S|]. now apply array_wf.
Qed.

Lemma composeChargingSchedules_overlapping :
  composeChargingSchedules (Some higher) (Some lower) I h0
  = (Ok (Some (combinedSchedule h2 ph ih il)), combinedHeap h2 ph pl ih il).
Proof.
  destruct overlap_valid as [V1 V2].
  destruct survivors_wf as [NDk Fk].
  destruct (array_wf h2 (chargingSchedulePeriod ph) W) as [_ FH].
  destruct (array_wf h2 (chargingSchedulePeriod pl) W) as [_ FL].
  unfold composeChargingSchedules.
  rewrite (bind_ok _ _ _ _ _ Hh), (bind_ok _ _ _ _ _ Hl).
  rewrite (bind_ok (defined (Some ph)) _ h2 ph h2 eq_refl).
  rewrite (bind_ok (defined (Some pl)) _ h2 pl h2 eq_refl).
  rewrite (bind_ok (lift (scheduleInterval ph)) _ h2 ih h2)
    by (unfold lift; now rewrite Hih).
  rewrite (bind_ok (lift (scheduleInterval pl)) _ h2 il h2)
    by (unfold lift; now rewrite Hil).
  cbv zeta. fold hf.
  rewrite (bind_ok (lift (areIntervalsOverlapping ih il)) _ h2 true h2)
    by (unfold lift; now rewrite Ho).
  cbn [negb].
  rewrite (bind_ok (getArray (chargingSchedulePeriod ph)) _ h2 _ h2 eq_refl).
  rewrite (bind_ok _ _ _ _ _
             (map_copy_run (shiftOfHigher hf ih il) _ 0%nat h2 FH
              : Array_map (shiftHigher hf ih il) (array h2 (chargingSchedulePeriod ph)) h2 = _)).
  fold (higherCopies h2 ph ih il). fold hA.
  rewrite (bind_ok (getArray (chargingSchedulePeriod pl)) _ hA _ hA eq_refl).
  change (array hA (chargingSchedulePeriod pl)) with (array h2 (chargingSchedulePeriod pl)).
  unfold Array_filter.
  rewrite (bind_ok _ _ _ _ _
             (filter_from_pure _ (keepLowerB hA (chargingSchedulePeriod pl) hf ih il) hA
                (λ x i, keepLower_pure (chargingSchedulePeriod pl) hf ih il hA x i V1 V2)
                _ 0%nat)).
  rewrite (filter_idx_ext _ (keepLowerB h2 (chargingSchedulePeriod pl) hf ih il)).
  2:{ intros i p Hp. apply keepLowerB_pushPeriods; [assumption|].
      rewrite Forall_forall in FL. apply FL.
      eapply list_elem_of_lookup_2; eassumption. }
  change (filter_idx (keepLowerB h2 (chargingSchedulePeriod pl) hf ih il) 0
            (array h2 (chargingSchedulePeriod pl))) with kept.
  assert (FB : Forall (λ p, (p < length (periods hB))%nat) kept).
  { eapply Forall_impl; [exact Fk|]. intros p Hp. unfold hB.
    rewrite length_periods_resetHead. unfold hA, pushPeriods. cbn [periods].
    rewrite length_app. simpl in *. lia. }
  rewrite (bind_ok _ _ _ _ _
             (eq_trans (resetFirstAndShiftLower_run hf ih il kept hA)
                (map_copy_run (shiftOfLower hf ih il) kept 0%nat hB FB))).
  unfold bind, newArray, sortByStartPeriod, setArray, ret.
  unfold combinedSchedule, combinedHeap, sortedHeap, pushArray.
  cbn [arrays periods]. fold hf kept hA hB.
  assert (EA : arrays (pushPeriods (copies (shiftOfLower hf ih il) hB kept) hB) = arrays h2).
  { unfold pushPeriods at 1. cbn [arrays]. unfold hB. now rewrite arrays_resetHead. }
  rewrite !EA. reflexivity.
Qed.

End Overlapping.

Section CombinedPeriods.

Variables (ph pl : ChargingSchedule) (ih il : Interval) (h2 : Heap).
Hypothesis W : heap_wf h2.

Let hf := isBefore (start ih) (start il).
Let kept := survivors h2 pl ih il.
Let hA := pushPeriods (higherCopies h2 ph ih il) h2.
Let hB := resetHead kept hA.
Let hC := pushPeriods (copies (shiftOfLower hf ih il) hB kept) hB.

Lemma survivors_sublist : kept `sublist_of` array h2 (chargingSchedulePeriod pl).
Proof.
  unfold kept, survivors. generalize 0%nat.
  induction (array h2 (chargingSchedulePeriod pl)) as [|x l IH]; intros n; simpl.
  - constructor.
  - destruct (keepLowerB _ _ _ _ _ x n); constructor; apply IH.
Qed.

Lemma survivors_valid : NoDup kept ∧ Forall (λ p, (p < length (periods h2))%nat) kept.
Proof. eapply sublist_wf; [exact survivors_sublist|]. now apply array_wf. Qed.

Lemma lower_copies_eq :
  copies (shiftOfLower hf ih il) hB kept = lowerCopies h2 pl ih il.
Proof.
  destruct survivors_valid as [ND F].
  unfold lowerCopies. fold hf kept. unfold hB.
  destruct kept as [|k rest] eqn:Ek; [reflexivity|].
  apply NoDup_cons in ND as [Nk _]. inversion F as [|? ? Lk Lrest]; subst.
  unfold copies. rewrite fmap_cons. f_equal.
  - unfold startPeriodOf. rewrite deref_resetHead_head. cbn [with_startPeriod startPeriod].
    unfold hA. now rewrite deref_pushPeriods_old.
  - apply list_fmap_ext. intros i p Hp.
    assert (Hin : p ∈ rest) by (eapply list_elem_of_lookup_2; eassumption).
    assert (Np : p ≠ k) by (intros ->; contradiction).
    rewrite Forall_forall in Lrest. specialize (Lrest p Hin).
    unfold startPeriodOf. rewrite deref_resetHead_other by assumption.
    unfold hA. now rewrite deref_pushPeriods_old.
Qed.

Lemma higher_copies_read :
  deref hC <$> seq (length (periods h2)) (length (array h2 (chargingSchedulePeriod ph)))
  = higherCopies h2 ph ih il.
Proof.
  destruct survivors_valid as [ND F].
  assert (Hlen : length (higherCopies h2 ph ih il)
                 = length (array h2 (chargingSchedulePeriod ph)))
    by (unfold higherCopies, copies; apply length_fmap).
  rewrite <- Hlen.
  transitivity (deref hA <$> seq (length (periods h2)) (length (higherCopies h2 ph ih il)));
    [|apply fmap_deref_new].
  apply list_fmap_ext. intros i j Hj.
  apply lookup_seq in Hj as [-> Hi].
  assert (LA : length (periods hA)
               = (length (periods h2) + length (higherCopies h2 ph ih il))%nat)
    by (unfold hA, pushPeriods; cbn [periods]; apply length_app).
  unfold hC. rewrite deref_pushPeriods_old
    by (unfold hB; rewrite length_periods_resetHead, LA; lia).
  unfold hB. destruct kept as [|k rest]; [reflexivity|].
  inversion F; subst. apply deref_resetHead_other. lia.
Qed.

Lemma periodsOf_combined :
  periodsOf (combinedHeap h2 ph pl ih il) (combinedSchedule h2 ph ih il)
  = sortPeriods (higherCopies h2 ph ih il ++ lowerCopies h2 pl ih il).
Proof.
  unfold periodsOf, combinedHeap, combinedSchedule.
  cbn [chargingSchedulePeriod]. fold hf kept hA hB hC.
  rewrite array_sortedHeap.
  assert (EA : length (arrays h2) = length (arrays hC)).
  { unfold hC, pushPeriods. cbn [arrays]. unfold hB. now rewrite arrays_resetHead. }
  rewrite EA at 2. rewrite array_pushArray_new.
  set (fresh := seq _ _ ++ seq _ _).
  change (deref hC <$> sort_by (λ p, startPeriod (deref hC p)) fresh
          = sortPeriods (higherCopies h2 ph ih il ++ lowerCopies h2 pl ih il)).
  rewrite (sort_by_fmap startPeriod (deref hC)). unfold sortPeriods. f_equal.
  unfold fresh. rewrite fmap_app. f_equal.
  - apply higher_copies_read.
  - rewrite <- lower_copies_eq.
    transitivity (deref hC <$> seq (length (periods hB))
                                 (length (copies (shiftOfLower hf ih il) hB kept)));
      [|apply fmap_deref_new].
    do 2 f_equal. unfold copies. now rewrite length_fmap.
Qed.

End CombinedPeriods.

(** ** Sortedness of every composed schedule *)

Section ComposedSorted.

Lemma bind_inv {S A B} (m : ST S A) (k : A → ST S B) h b h' :
  bind m k h = (Ok b, h') → ∃ a h1, m h = (Ok a, h1) ∧ k a h1 = (Ok b, h').
Proof.
  unfold bind. destruct (m h) as [[a|e] h1]; [|discriminate]. eauto.
Qed.

Lemma sorted_after_sort l h d st u r h' :
  (do arr <- newArray l ;
   exec sortByStartPeriod arr ;
   ret (Some {| duration := d; startSchedule := st; chargingRateUnit := u;
                chargingSchedulePeriod := arr |})) h = (Ok (Some r), h') →
  sortedByStartPeriod (periodsOf h' r).
Proof.
  unfold bind, newArray, sortByStartPeriod, setArray, ret. intros E.
  injection E as <- <-. unfold periodsOf. cbn [chargingSchedulePeriod].
  change (sorted_by startPeriod
            (deref (pushArray l h)
               <$> array (sortedHeap (pushArray l h) (length (arrays h))) (length (arrays h)))).
  rewrite array_sortedHeap, array_pushArray_new.
  rewrite (sort_by_fmap startPeriod (deref (pushArray l h))).
  apply sort_by_sorted.
Qed.

Lemma composeChargingSchedule_sorted s I h r h' :
  heap_wf h → composeChargingSchedule s I h = (Ok (Some r), h') →
  sortedByStartPeriod (periodsOf h' r).
Proof.
  intros W E. apply composeChargingSchedule_inv in E.
  eapply projection_sorted; [|exact E]. now apply array_wf.
Qed.

Lemma composeChargingSchedules_both_sorted higher lower I h r h' :
  composeChargingSchedules (Some higher) (Some lower) I h = (Ok (Some r), h') →
  sortedByStartPeriod (periodsOf h' r).
Proof.
  unfold composeChargingSchedules. intros E.
  apply bind_inv in E as (ph & h1 & _ & E).
  apply bind_inv in E as (pl & h2 & _ & E).
  apply bind_inv in E as (ch & h3 & _ & E).
  apply bind_inv in E as (cl & h4 & _ & E).
  apply bind_inv in E as (ih & h5 & _ & E).
  apply bind_inv in E as (il & h6 & _ & E).
  cbv zeta in E.
  apply bind_inv in E as (o & h7 & _ & E).
  destruct (negb o).
  - apply bind_inv in E as (he & h8 & _ & E).
    apply bind_inv in E as (hp & h9 & _ & E).
    apply bind_inv in E as (le & h10 & _ & E).
    apply bind_inv in E as (lp & h11 & _ & E).
    eapply sorted_after_sort. exact E.
  - apply bind_inv in E as (he & h8 & _ & E).
    apply bind_inv in E as (hp & h9 & _ & E).
    apply bind_inv in E as (le & h10 & _ & E).
    apply bind_inv in E as (kp & h11 & _ & E).
    apply bind_inv in E as (lp & h12 & _ & E).
    eapply sorted_after_sort. exact E.
Qed.

End ComposedSorted.

(** ** Scenario S5, evaluated *)

Lemma heap_wf_intro h :
  Forall (λ l, NoDup l ∧ Forall (λ p, (p < length (periods h))%nat) l) (arrays h) →
  heap_wf h.
Proof.
  intros F a l E. rewrite Forall_forall in F. apply F.
  eapply list_elem_of_lookup_2; eassumption.
Qed.

Module S5Facts.
Import S5.

Definition period (s : Z) (l : Q) : ChargingSchedulePeriod :=
  {| startPeriod := s; limit := l; numberPhases := None |}.

Lemma heap_wf_S5 : heap_wf heap.
Proof.
  apply heap_wf_intro. simpl.
  repeat constructor; simpl; try lia;
    rewrite ?list_elem_of_In; simpl; intuition discriminate.
Qed.

(** Both schedules already lie within the composite interval: each
    projection returns its schedule, and leaves the heap as it is (the
    arrays are sorted already). *)
Lemma project_higher :
  composeChargingSchedule higher compositeInterval heap = (Ok (Some higher), heap).
Proof. reflexivity. Qed.

Lemma project_lower :
  composeChargingSchedule lower compositeInterval heap = (Ok (Some lower), heap).
Proof. reflexivity. Qed.

Definition higherInterval : Interval := {| start := 0; end_ := 300000 |}.
Definition lowerInterval : Interval := {| start := 200000; end_ := 600000 |}.

(** The composed schedule, and the heap the call leaves: the three fresh
    periods at references 5 to 7, the new array at reference 2 - and the
    third period of the lower schedule (reference 4) now at
    [startPeriod = 0]. *)
Definition resultSchedule : ChargingSchedule :=
  {| duration := Some 600; startSchedule := Some 0;
     chargingRateUnit := AMPERE; chargingSchedulePeriod := 2%nat |}.

Definition resultHeap : Heap :=
  {| periods := [ period 0 10; period 150 6; period 0 32; period 100 20; period 0 16;
                  period 0 10; period 0 6; period 200 16 ];
     arrays := [ [0; 1]; [2; 3; 4]; [5; 6; 7] ]%nat |}.

Lemma result_eq :
  composeChargingSchedules (Some higher) (Some lower) compositeInterval heap
  = (Ok (Some resultSchedule), resultHeap).
Proof. vm_compute. reflexivity. Qed.

Lemma resultPeriods_eq :
  periodsOf resultHeap resultSchedule = [period 0 10; period 0 6; period 200 16].
Proof. reflexivity. Qed.

Lemma resultPeriods_sorted : sortedByStartPeriod (periodsOf resultHeap resultSchedule).
Proof.
  rewrite resultPeriods_eq. unfold sortedByStartPeriod, sorted_by.
  repeat constructor; simpl; lia.
Qed.

End S5Facts.

(** ** Effects of a projection on the caller's schedule *)

Section ProjectionEffects.

Variables (s r : ChargingSchedule) (I : Interval) (h h' : Heap).
Hypothesis Hrun : composeChargingSchedule s I h = (Ok (Some r), h').



End ProjectionEffects.

(** *** Two small schedules: one stored unsorted, one clipped at its start *)

Module Unsorted.
Definition heap : Heap :=
  {| periods := [ S5Facts.period 100 20; S5Facts.period 0 32 ];
     arrays := [ [0; 1] ]%nat |}.
Definition schedule : ChargingSchedule :=
  {| duration := Some 600; startSchedule := Some 0;
     chargingRateUnit := AMPERE; chargingSchedulePeriod := 0%nat |}.
Definition compositeInterval : Interval := {| start := 0; end_ := 600000 |}.
Definition heapAfter : Heap :=
  {| periods := [ S5Facts.period 100 20; S5Facts.period 0 32 ];
     arrays := [ [1; 0] ]%nat |}.

End Unsorted.

Module ClippedStart.
Definition heap : Heap :=
  {| periods := [ S5Facts.period 0 32; S5Facts.period 100 20; S5Facts.period 250 16 ];
     arrays := [ [0; 1; 2] ]%nat |}.
Definition schedule : ChargingSchedule :=
  {| duration := Some 400; startSchedule := Some 0;
     chargingRateUnit := AMPERE; chargingSchedulePeriod := 0%nat |}.
Definition scheduleInterval : Interval := {| start := 0; end_ := 400000 |}.
Definition compositeInterval : Interval := {| start := 150000; end_ := 600000 |}.
Definition projected : ChargingSchedule :=
  {| duration := Some 250; startSchedule := Some 150000;
     chargingRateUnit := AMPERE; chargingSchedulePeriod := 1%nat |}.
Definition heapAfter : Heap :=
  {| periods := [ S5Facts.period 0 32; S5Facts.period 0 20; S5Facts.period 250 16 ];
     arrays := [ [0; 1; 2]; [1; 2] ]%nat |}.

Lemma heap_wf_clipped : heap_wf heap.
Proof.
  apply heap_wf_intro. simpl.
  repeat constructor; simpl; try lia;
    rewrite ?list_elem_of_In; simpl; intuition discriminate.
Qed.

Lemma run_clipped :
  composeChargingSchedule schedule compositeInterval heap = (Ok (Some projected), heapAfter).
Proof. reflexivity. Qed.
End ClippedStart.

(** * Charging profiles, connectors and the station *)

Inductive ChargingProfilePurposeType :=
| CHARGE_POINT_MAX_PROFILE
| TX_DEFAULT_PROFILE
| TX_PROFILE.

Inductive ChargingProfileKindType := ABSOLUTE | RECURRING | RELATIVE.

Inductive RecurrencyKindType := DAILY | WEEKLY.

Record ChargingProfile := {
  chargingProfileId : Z;
  stackLevel : Z;
  chargingProfilePurpose : ChargingProfilePurposeType;
  chargingProfileKind : ChargingProfileKindType;
  recurrencyKind : option RecurrencyKindType;
  chargingSchedule : ChargingSchedule
}.

(** [ClearChargingProfileRequest]: every field is optional. *)
Record ClearChargingProfileRequest := {
  clear_id : option Z;
  clear_connectorId : option Z;
  clear_chargingProfilePurpose : option ChargingProfilePurposeType;
  clear_stackLevel : option Z
}.

Definition purpose_eqb (a b : ChargingProfilePurposeType) : bool :=
  match a, b with
  | CHARGE_POINT_MAX_PROFILE, CHARGE_POINT_MAX_PROFILE
  | TX_DEFAULT_PROFILE, TX_DEFAULT_PROFILE
  | TX_PROFILE, TX_PROFILE => true
  | _, _ => false
  end.

(** ** JavaScript values: [===] against a possibly undefined operand, and
    truthiness *)

(** [x === y] where [x] is a number and [y] may be undefined. *)
Definition strictEqZ (x : Z) (y : option Z) : bool :=
  match y with
  | Some v => x =? v
  | None => false
  end.

Definition strictEqPurpose (x : ChargingProfilePurposeType)
    (y : option ChargingProfilePurposeType) : bool :=
  match y with
  | Some v => purpose_eqb x v
  | None => false
  end.

(** [!stackLevel]: a number is falsy when undefined and when it is 0. *)
Definition falsyZ (y : option Z) : bool :=
  match y with
  | Some v => v =? 0
  | None => true
  end.

(** [!chargingProfilePurpose]: the purposes are non-empty strings, falsy
    only when undefined. *)
Definition falsyPurpose (y : option ChargingProfilePurposeType) : bool :=
  match y with
  | Some _ => false
  | None => true
  end.

(** ** Array.prototype.forEach over an array that the callback may change

    The length is read once, before the loop; an index that is no longer
    present when it is reached is skipped.  The callback receives the
    element, its index, and the current array and accumulator. *)

Fixpoint forEach_from {A St} (callback : A → nat → list A * St → list A * St)
    (count index : nat) (state : list A * St) : list A * St :=
  match count with
  | O => state
  | S count' =>
      match fst state !! index with
      | Some x => forEach_from callback count' (S index) (callback x index state)
      | None => forEach_from callback count' (S index) state
      end
  end.

Definition Array_forEach {A St} (callback : A → nat → list A * St → list A * St)
    (arr : list A) (acc : St) : list A * St :=
  forEach_from callback (length arr) 0 (arr, acc).

(** ** clearChargingProfiles *)

(** The four tests of the callback (lines 999-1013); each one sets
    [clearCurrentCP]. *)
Definition clearCurrentCP (commandPayload : ClearChargingProfileRequest)
    (chargingProfile : ChargingProfile) : bool :=
  let id := clear_id commandPayload in
  let chargingProfilePurpose' := clear_chargingProfilePurpose commandPayload in
  let stackLevel' := clear_stackLevel commandPayload in
  strictEqZ (chargingProfileId chargingProfile) id
  || (falsyPurpose chargingProfilePurpose'
      && strictEqZ (stackLevel chargingProfile) stackLevel')
  || (falsyZ stackLevel'
      && strictEqPurpose (chargingProfilePurpose chargingProfile) chargingProfilePurpose')
  || (strictEqZ (stackLevel chargingProfile) stackLevel'
      && strictEqPurpose (chargingProfilePurpose chargingProfile) chargingProfilePurpose').

(** [chargingProfiles.splice(index, 1)] and [clearedCP = true] when the
    profile matches. *)
Definition clearCallback (commandPayload : ClearChargingProfileRequest)
    (chargingProfile : ChargingProfile) (index : nat)
    (state : list ChargingProfile * bool) : list ChargingProfile * bool :=
  if clearCurrentCP commandPayload chargingProfile
  then (delete index (fst state), true)
  else state.

(** The profile array is changed in place: the function returns [clearedCP]
    and the array it leaves.  An undefined or empty array is left alone. *)
Definition clearChargingProfiles (commandPayload : ClearChargingProfileRequest)
    (chargingProfiles : option (list ChargingProfile))
  : bool * option (list ChargingProfile) :=
  match chargingProfiles with
  | Some (p :: ps) =>
      let '(arr, clearedCP) := Array_forEach (clearCallback commandPayload) (p :: ps) false in
      (clearedCP, Some arr)
  | _ => (false, chargingProfiles)
  end.

(** The specification of the clearing, in its words: a profile is cleared
    iff its id equals [id]; or the purpose is absent and the stack level
    matches; or the stack level is absent and the purpose matches; or both
    match.  Every such profile is removed. *)
Definition specifiedToClear (commandPayload : ClearChargingProfileRequest)
    (chargingProfile : ChargingProfile) : bool :=
  let idMatches := strictEqZ (chargingProfileId chargingProfile) (clear_id commandPayload) in
  let levelMatches :=
    strictEqZ (stackLevel chargingProfile) (clear_stackLevel commandPayload) in
  let purposeMatches :=
    strictEqPurpose (chargingProfilePurpose chargingProfile)
      (clear_chargingProfilePurpose commandPayload) in
  let purposeAbsent :=
    match clear_chargingProfilePurpose commandPayload with None => true | Some _ => false end in
  let levelAbsent :=
    match clear_stackLevel commandPayload with None => true | Some _ => false end in
  idMatches
  || (purposeAbsent && levelMatches)
  || (levelAbsent && purposeMatches)
  || (levelMatches && purposeMatches).

Definition specifiedAfterClear (commandPayload : ClearChargingProfileRequest)
    (chargingProfiles : list ChargingProfile) : list ChargingProfile :=
  filter (λ cp, specifiedToClear commandPayload cp = false) chargingProfiles.

(** ** Connectors and the station *)

Inductive ChargePointStatus :=
| Available | Preparing | Charging | SuspendedEVSE | SuspendedEV
| Finishing | Reserved | Unavailable | Faulted.

Inductive AvailabilityType := Operative | Inoperative.

Record Reservation := {
  reservationId : Z;
  reservation_connectorId : Z;
  reservation_idTag : String.string;
  expiryDate : Date
}.

(** The [chargingProfiles] attribute of a connector: undefined until first
    use, or (after a faulty restore) something that is not an array. *)
Inductive ChargingProfilesAttribute :=
| ProfilesUndefined
| ProfilesNotAnArray
| Profiles (l : list ChargingProfile).

Record ConnectorStatus := {
  availability : AvailabilityType;
  status : option ChargePointStatus;
  transactionStarted : option bool;
  transactionId : option Z;
  connector_idTag : option String.string;
  energyActiveImportRegisterValue : option Q;
  transactionEnergyActiveImportRegisterValue : option Q;
  chargingProfiles : ChargingProfilesAttribute;
  reservation : option Reservation
}.

Inductive CurrentType := AC | DC.

(** The station: its connectors by id (id 0 is the station itself), the
    fields of [stationInfo] that the engine reads (the AC/DC current type,
    undefined or unknown being [None]; the nominal output voltage; the phase
    count; the configured flags), the power divider, and the status
    notifications sent so far. *)
Record ChargingStationInfo := {
  currentOutType : option CurrentType;
  voltageOut : Q;
  numberOfPhases : Z;
  mainVoltageMeterValues : bool;
  phaseLineToLineVoltageMeterValues : bool;
  customValueLimitationMeterValues : bool
}.

Record ChargingStation := {
  connectors : gmap Z ConnectorStatus;
  stationInfo : ChargingStationInfo;
  powerDivider : option Z;
  sentStatusNotifications : list (Z * ChargePointStatus)
}.

(** Modelled from the spec: [ChargingStation.getConnectorStatus], absent from
    the sources; "connectors form a fixed-size indexed collection (0..N)
    owned by the station", looked up by id, undefined for an unknown id. *)
Definition getConnectorStatus (chargingStation : ChargingStation) (connectorId : Z)
  : option ConnectorStatus :=
  connectors chargingStation !! connectorId.

Definition setConnectorStatus (chargingStation : ChargingStation) (connectorId : Z)
    (c : ConnectorStatus) : ChargingStation :=
  {| connectors := <[connectorId := c]> (connectors chargingStation);
     stationInfo := stationInfo chargingStation;
     powerDivider := powerDivider chargingStation;
     sentStatusNotifications := sentStatusNotifications chargingStation |}.

Definition with_chargingProfiles (l : ChargingProfilesAttribute) (c : ConnectorStatus)
  : ConnectorStatus :=
  {| availability := availability c;
     status := status c;
     transactionStarted := transactionStarted c;
     transactionId := transactionId c;
     connector_idTag := connector_idTag c;
     energyActiveImportRegisterValue := energyActiveImportRegisterValue c;
     transactionEnergyActiveImportRegisterValue := transactionEnergyActiveImportRegisterValue c;
     chargingProfiles := l;
     reservation := reservation c |}.

(** ** setChargingProfile *)

(** The test of the callback (lines 976-980). *)
Definition sameProfileSlot (cp chargingProfile : ChargingProfile) : bool :=
  (chargingProfileId chargingProfile =? chargingProfileId cp)
  || ((stackLevel chargingProfile =? stackLevel cp)
      && purpose_eqb (chargingProfilePurpose chargingProfile) (chargingProfilePurpose cp)).

(** [chargingProfiles[index] = cp] and [cpReplaced = true] when the slot
    matches. *)
Definition replaceCallback (cp chargingProfile : ChargingProfile) (index : nat)
    (state : list ChargingProfile * bool) : list ChargingProfile * bool :=
  if sameProfileSlot cp chargingProfile
  then (<[index := cp]> (fst state), true)
  else state.

(** The two deferred initialisations (lines 957-970), then the array the
    loop works on. *)
Definition initialisedProfiles (a : ChargingProfilesAttribute) : list ChargingProfile :=
  match a with
  | Profiles l => l
  | ProfilesUndefined | ProfilesNotAnArray => []
  end.

Definition setChargingProfile (chargingStation : ChargingStation) (connectorId : Z)
    (cp : ChargingProfile) : outcome unit * ChargingStation :=
  match getConnectorStatus chargingStation connectorId with
  | None =>
      (* [getConnectorStatus(connectorId)!.chargingProfiles = []] on undefined *)
      (Throw TypeError, chargingStation)
  | Some connectorStatus =>
      let arr := initialisedProfiles (chargingProfiles connectorStatus) in
      let '(arr', cpReplaced) :=
        match arr with
        | [] => (arr, false)
        | _ :: _ => Array_forEach (replaceCallback cp) arr false
        end in
      let arr'' := if cpReplaced : bool then arr' else arr' ++ [cp] in
      (Ok tt, setConnectorStatus chargingStation connectorId
                (with_chargingProfiles (Profiles arr'') connectorStatus))
  end.

(** ** Lemmas on [forEach] *)

Section ForEach.

Context {A St : Type}.

(** A callback that only writes the slot it is called on visits every
    element once: the loop is a [map] with an accumulator. *)
Lemma forEach_replace (test : A → bool) (x' : A) :
  ∀ (todo seen : list A) (acc : bool),
    forEach_from (λ x i st, if test x then (<[i := x']> (fst st), true) else st)
      (length todo) (length seen) (seen ++ todo, acc)
    = (seen ++ ((λ x, if test x then x' else x) <$> todo),
       acc || existsb test todo).
Proof.
  induction todo as [|x todo IH]; intros seen acc.
  - simpl. now rewrite orb_false_r.
  - cbn [length forEach_from fst].
    rewrite lookup_app_r by lia. rewrite Nat.sub_diag. cbn [lookup list_lookup].
    destruct (test x) eqn:T.
    + cbn [fst]. rewrite insert_app_r_alt by lia. rewrite Nat.sub_diag.
      cbn [insert list_insert].
      replace (seen ++ x' :: todo) with ((seen ++ [x']) ++ todo)
        by now rewrite <- app_assoc.
      replace (S (length seen)) with (length (seen ++ [x']))
        by (rewrite length_app; simpl; lia).
      rewrite IH. rewrite fmap_cons. cbn [existsb]. rewrite T, <- app_assoc.
      cbn [orb]. now rewrite orb_true_r.
    + replace (seen ++ x :: todo) with ((seen ++ [x]) ++ todo)
        by now rewrite <- app_assoc.
      replace (S (length seen)) with (length (seen ++ [x]))
        by (rewrite length_app; simpl; lia).
      rewrite IH. rewrite fmap_cons. cbn [existsb]. rewrite T, <- app_assoc.
      reflexivity.
Qed.

End ForEach.

Lemma setChargingProfile_loop cp l :
  Array_forEach (replaceCallback cp) l false
  = ((λ p, if sameProfileSlot cp p then cp else p) <$> l, existsb (sameProfileSlot cp) l).
Proof.
  unfold Array_forEach.
  exact (forEach_replace (sameProfileSlot cp) cp l [] false).
Qed.

Lemma getConnectorStatus_set chargingStation connectorId c :
  getConnectorStatus (setConnectorStatus chargingStation connectorId c) connectorId = Some c.
Proof. unfold getConnectorStatus, setConnectorStatus. simpl. apply lookup_insert_eq. Qed.


(** The list that [setChargingProfile] leaves on a connector whose list was
    [l]. *)
Definition installed (cp : ChargingProfile) (l : list ChargingProfile) : list ChargingProfile :=
  if existsb (sameProfileSlot cp) l
  then (λ p, if sameProfileSlot cp p then cp else p) <$> l
  else l ++ [cp].

Lemma fmap_no_match {A} (test : A → bool) (x' : A) l :
  existsb test l = false → (λ x, if test x then x' else x) <$> l = l.
Proof.
  induction l as [|x l IH]; [reflexivity|].
  cbn [existsb]. intros E. apply orb_false_iff in E as [Tx El].
  rewrite fmap_cons, Tx. f_equal. now apply IH.
Qed.

Lemma setChargingProfile_run chargingStation connectorId c cp :
  getConnectorStatus chargingStation connectorId = Some c →
  setChargingProfile chargingStation connectorId cp
  = (Ok tt, setConnectorStatus chargingStation connectorId
              (with_chargingProfiles
                 (Profiles (installed cp (initialisedProfiles (chargingProfiles c)))) c)).
Proof.
  intros Hc. unfold setChargingProfile, installed. rewrite Hc.
  destruct (initialisedProfiles (chargingProfiles c)) as [|p l] eqn:E; [reflexivity|].
  rewrite setChargingProfile_loop.
  destruct (existsb (sameProfileSlot cp) (p :: l)) eqn:X; [reflexivity|].
  now rewrite (fmap_no_match _ _ _ X).
Qed.

(** *** Scenarios for the profile operations *)

Module Profiles.

Definition schedule : ChargingSchedule :=
  {| duration := Some 300; startSchedule := Some 0;
     chargingRateUnit := AMPERE; chargingSchedulePeriod := 0%nat |}.

Definition profile (id level : Z) (purpose : ChargingProfilePurposeType) : ChargingProfile :=
  {| chargingProfileId := id; stackLevel := level; chargingProfilePurpose := purpose;
     chargingProfileKind := ABSOLUTE; recurrencyKind := None;
     chargingSchedule := schedule |}.

Definition connector (l : ChargingProfilesAttribute) : ConnectorStatus :=
  {| availability := Operative; status := Some Available;
     transactionStarted := Some false; transactionId := None; connector_idTag := None;
     energyActiveImportRegisterValue := Some 0%Q;
     transactionEnergyActiveImportRegisterValue := Some 0%Q;
     chargingProfiles := l; reservation := None |}.

(** A three-phase AC station, 230 V. *)
Definition info : ChargingStationInfo :=
  {| currentOutType := Some AC; voltageOut := 230; numberOfPhases := 3;
     mainVoltageMeterValues := false; phaseLineToLineVoltageMeterValues := false;
     customValueLimitationMeterValues := false |}.

Definition station (l : ChargingProfilesAttribute) : ChargingStation :=
  {| connectors := {[ 1 := connector l ]};
     stationInfo := info;
     powerDivider := Some 1;
     sentStatusNotifications := [] |}.

(** [{ chargingProfilePurpose: TxProfile }]: neither id nor stack level. *)
Definition clearTxProfiles : ClearChargingProfileRequest :=
  {| clear_id := None; clear_connectorId := None;
     clear_chargingProfilePurpose := Some TX_PROFILE; clear_stackLevel := None |}.

(** [{ chargingProfilePurpose: TxProfile, stackLevel: 0 }] *)
Definition clearTxProfilesLevel0 : ClearChargingProfileRequest :=
  {| clear_id := None; clear_connectorId := None;
     clear_chargingProfilePurpose := Some TX_PROFILE; clear_stackLevel := Some 0 |}.

End Profiles.

(** The test of the code is the specified one, except that a stack level of
    0 in the payload counts as absent. *)
Lemma clearCurrentCP_specified commandPayload chargingProfile :
  clear_stackLevel commandPayload ≠ Some 0 →
  clearCurrentCP commandPayload chargingProfile
  = specifiedToClear commandPayload chargingProfile.
Proof.
  intros N. unfold clearCurrentCP, specifiedToClear, falsyPurpose, falsyZ.
  destruct (clear_stackLevel commandPayload) as [v|]; [|reflexivity].
  destruct (v =? 0) eqn:E; [|reflexivity].
  apply Z.eqb_eq in E. congruence.
Qed.

Lemma clearCurrentCP_level0 :
  let p := Profiles.profile 7 3 TX_PROFILE in
  specifiedToClear Profiles.clearTxProfilesLevel0 p = false
  ∧ clearChargingProfiles Profiles.clearTxProfilesLevel0 (Some [p]) = (true, Some []).
Proof. split; reflexivity. Qed.

(** A profile that sits right after a cleared one is never visited. *)
Lemma clearChargingProfiles_after_cleared commandPayload p q :
  clearCurrentCP commandPayload p = true →
  fst (clearChargingProfiles commandPayload (Some [p; q])) = true
  ∧ snd (clearChargingProfiles commandPayload (Some [p; q])) = Some [q].
Proof.
  intros Hp. unfold clearChargingProfiles, Array_forEach.
  cbn [length forEach_from fst lookup list_lookup].
  assert (E : clearCallback commandPayload p 0 ([p; q], false) = ([q], true))
    by (unfold clearCallback; now rewrite Hp).
  rewrite !E. simpl. auto.
Qed.

(** * Session coordinator: availability and reservations *)

Inductive AvailabilityStatus := AvailabilityAccepted | AvailabilityRejected | AvailabilityScheduled.

Definition with_availability (a : AvailabilityType) (c : ConnectorStatus) : ConnectorStatus :=
  {| availability := a;
     status := status c;
     transactionStarted := transactionStarted c;
     transactionId := transactionId c;
     connector_idTag := connector_idTag c;
     energyActiveImportRegisterValue := energyActiveImportRegisterValue c;
     transactionEnergyActiveImportRegisterValue := transactionEnergyActiveImportRegisterValue c;
     chargingProfiles := chargingProfiles c;
     reservation := reservation c |}.

Definition with_status (s : ChargePointStatus) (c : ConnectorStatus) : ConnectorStatus :=
  {| availability := availability c;
     status := Some s;
     transactionStarted := transactionStarted c;
     transactionId := transactionId c;
     connector_idTag := connector_idTag c;
     energyActiveImportRegisterValue := energyActiveImportRegisterValue c;
     transactionEnergyActiveImportRegisterValue := transactionEnergyActiveImportRegisterValue c;
     chargingProfiles := chargingProfiles c;
     reservation := reservation c |}.

(** Modelled from the spec: [OCPP16ServiceUtils.sendAndSetConnectorStatus]
    (inherited from [OCPPServiceUtils], absent from the sources): "push the
    status notification" and "perform the status transition".  The
    notification is recorded in [sentStatusNotifications]; on an unknown
    connector the write to [getConnectorStatus(connectorId)!.status] throws. *)
Definition sendAndSetConnectorStatus (chargingStation : ChargingStation) (connectorId : Z)
    (s : ChargePointStatus) : outcome unit * ChargingStation :=
  match getConnectorStatus chargingStation connectorId with
  | None => (Throw TypeError, chargingStation)
  | Some c =>
      (Ok tt,
       {| connectors := <[connectorId := with_status s c]> (connectors chargingStation);
          stationInfo := stationInfo chargingStation;
          powerDivider := powerDivider chargingStation;
          sentStatusNotifications :=
            sentStatusNotifications chargingStation ++ [(connectorId, s)] |})
  end.

(** ** changeAvailability

    The [for ... of] loop over [connectorIds], with the [responses] array as
    an accumulator.  The handler is not interleaved with another one of the
    same station (section 5 of the specification), so each [await] is a plain
    call. *)

Definition transactionActive (c : ConnectorStatus) : bool :=
  match transactionStarted c with
  | Some true => true
  | _ => false
  end.

Fixpoint changeAvailability_loop (connectorIds : list Z) (chargePointStatus : ChargePointStatus)
    (availabilityType : AvailabilityType) (chargingStation : ChargingStation)
    (responses : list AvailabilityStatus)
  : outcome (list AvailabilityStatus) * ChargingStation :=
  match connectorIds with
  | [] => (Ok responses, chargingStation)
  | connectorId :: connectorIds' =>
      match getConnectorStatus chargingStation connectorId with
      | None =>
          (* [connectorStatus.availability = availabilityType] on undefined *)
          (Throw TypeError, chargingStation)
      | Some connectorStatus =>
          let response :=
            if transactionActive connectorStatus
            then AvailabilityScheduled else AvailabilityAccepted in
          let station1 :=
            setConnectorStatus chargingStation connectorId
              (with_availability availabilityType connectorStatus) in
          let '(sent, station2) :=
            match response with
            | AvailabilityAccepted =>
                sendAndSetConnectorStatus station1 connectorId chargePointStatus
            | _ => (Ok tt, station1)
            end in
          match sent with
          | Throw e => (Throw e, station2)
          | Ok _ =>
              changeAvailability_loop connectorIds' chargePointStatus availabilityType
                station2 (responses ++ [response])
          end
      end
  end.

Definition includesScheduled (responses : list AvailabilityStatus) : bool :=
  existsb (λ r, match r with AvailabilityScheduled => true | _ => false end) responses.

Definition changeAvailability (chargingStation : ChargingStation) (connectorIds : list Z)
    (chargePointStatus : ChargePointStatus) (availabilityType : AvailabilityType)
  : outcome AvailabilityStatus * ChargingStation :=
  match changeAvailability_loop connectorIds chargePointStatus availabilityType
          chargingStation [] with
  | (Ok responses, chargingStation') =>
      (Ok (if includesScheduled responses
           then AvailabilityScheduled else AvailabilityAccepted),
       chargingStation')
  | (Throw e, chargingStation') => (Throw e, chargingStation')
  end.

(** ** hasReservation *)

(** Modelled from the spec: [ChargingStation.getReservationBy('connectorId', id)],
    absent from the sources: the reservation held "on that connector", if
    any. *)
Definition getReservationByConnectorId (chargingStation : ChargingStation) (connectorId : Z)
  : option Reservation :=
  match getConnectorStatus chargingStation connectorId with
  | Some c => reservation c
  | None => None
  end.

(** Modelled from the spec: [hasReservationExpired], absent from the sources:
    "a reservation with [expiryDate ≤ now] is considered expired"; [now] is
    the reading of the clock. *)
Definition hasReservationExpired (now : Date) (r : Reservation) : bool :=
  expiryDate r <=? now.

Definition statusIsReserved (c : option ConnectorStatus) : bool :=
  match c with
  | Some {| status := Some Reserved |} => true
  | _ => false
  end.

(** [reservation && !hasReservationExpired(reservation) && reservation?.idTag === idTag] *)
Definition validReservationFor (now : Date) (idTag : String.string) (r : option Reservation)
  : bool :=
  match r with
  | Some r => negb (hasReservationExpired now r) && String.eqb (reservation_idTag r) idTag
  | None => false
  end.

Definition hasReservation (now : Date) (chargingStation : ChargingStation) (connectorId : Z)
    (idTag : String.string) : bool :=
  let connectorReservation := getReservationByConnectorId chargingStation connectorId in
  let chargingStationReservation := getReservationByConnectorId chargingStation 0 in
  (statusIsReserved (getConnectorStatus chargingStation connectorId)
   && validReservationFor now idTag connectorReservation)
  || (statusIsReserved (getConnectorStatus chargingStation 0)
      && validReservationFor now idTag chargingStationReservation).

(** ** What [changeAvailability] leaves *)

(** The connector after its turn in the loop. *)
Definition changedConnector (chargePointStatus : ChargePointStatus)
    (availabilityType : AvailabilityType) (c : ConnectorStatus) : ConnectorStatus :=
  if transactionActive c
  then with_availability availabilityType c
  else with_status chargePointStatus (with_availability availabilityType c).

Definition responseOf (chargingStation : ChargingStation) (connectorId : Z) : AvailabilityStatus :=
  match getConnectorStatus chargingStation connectorId with
  | Some c => if transactionActive c then AvailabilityScheduled else AvailabilityAccepted
  | None => AvailabilityAccepted
  end.

Definition hasActiveTransaction (chargingStation : ChargingStation) (connectorId : Z) : bool :=
  match getConnectorStatus chargingStation connectorId with
  | Some c => transactionActive c
  | None => false
  end.

Section ChangeAvailability.

Variables (chargePointStatus : ChargePointStatus) (availabilityType : AvailabilityType).

Let change := changedConnector chargePointStatus availabilityType.

(** One turn of the loop, on the whole station. *)
Definition turn (chargingStation : ChargingStation) (connectorId : Z) : ChargingStation :=
  {| connectors := alter change connectorId (connectors chargingStation);
     stationInfo := stationInfo chargingStation;
     powerDivider := powerDivider chargingStation;
     sentStatusNotifications :=
       sentStatusNotifications chargingStation
       ++ (if hasActiveTransaction chargingStation connectorId
           then [] else [(connectorId, chargePointStatus)]) |}.

Lemma change_transactionActive c : transactionActive (change c) = transactionActive c.
Proof. unfold change, changedConnector. now destruct (transactionActive c) eqn:E. Qed.

Lemma change_idempotent c : change (change c) = change c.
Proof.
  unfold change, changedConnector. destruct (transactionActive c) eqn:E.
  - change (transactionActive (with_availability availabilityType c))
      with (transactionActive c). now rewrite E.
  - change (transactionActive (with_status chargePointStatus
                                 (with_availability availabilityType c)))
      with (transactionActive c). now rewrite E.
Qed.

Lemma hasActiveTransaction_turn chargingStation connectorId connectorId' :
  hasActiveTransaction (turn chargingStation connectorId) connectorId'
  = hasActiveTransaction chargingStation connectorId'.
Proof.
  unfold hasActiveTransaction, getConnectorStatus, turn. cbn [connectors].
  destruct (decide (connectorId = connectorId')) as [<-|N].
  - rewrite lookup_alter_eq.
    destruct (connectors chargingStation !! connectorId); simpl; [|reflexivity].
    apply change_transactionActive.
  - now rewrite lookup_alter_ne.
Qed.

Lemma responseOf_turn chargingStation connectorId connectorId' :
  responseOf (turn chargingStation connectorId) connectorId'
  = responseOf chargingStation connectorId'.
Proof.
  unfold responseOf, getConnectorStatus, turn. cbn [connectors].
  destruct (decide (connectorId = connectorId')) as [<-|N].
  - rewrite lookup_alter_eq.
    destruct (connectors chargingStation !! connectorId); simpl; [|reflexivity].
    now rewrite change_transactionActive.
  - now rewrite lookup_alter_ne.
Qed.

Lemma is_Some_turn chargingStation connectorId connectorId' :
  is_Some (getConnectorStatus chargingStation connectorId') →
  is_Some (getConnectorStatus (turn chargingStation connectorId) connectorId').
Proof.
  unfold getConnectorStatus, turn. cbn [connectors]. intros [c Hc].
  destruct (decide (connectorId = connectorId')) as [<-|N].
  - rewrite lookup_alter_eq, Hc. simpl. eauto.
  - rewrite lookup_alter_ne by assumption. eauto.
Qed.

Lemma changeAvailability_loop_run connectorIds :
  ∀ chargingStation responses,
    Forall (λ id, is_Some (getConnectorStatus chargingStation id)) connectorIds →
    changeAvailability_loop connectorIds chargePointStatus availabilityType
      chargingStation responses
    = (Ok (responses ++ (responseOf chargingStation <$> connectorIds)),
       foldl turn chargingStation connectorIds).
Proof.
  induction connectorIds as [|connectorId ids IH]; intros chargingStation responses F.
  - simpl. now rewrite app_nil_r.
  - inversion F as [|? ? [c Hc] Fids]; subst.
    cbn [changeAvailability_loop foldl]. rewrite Hc.
    assert (E : (let '(sent, station2) :=
                   match (if transactionActive c
                          then AvailabilityScheduled else AvailabilityAccepted) with
                   | AvailabilityAccepted =>
                       sendAndSetConnectorStatus
                         (setConnectorStatus chargingStation connectorId
                            (with_availability availabilityType c))
                         connectorId chargePointStatus
                   | _ => (Ok tt, setConnectorStatus chargingStation connectorId
                                    (with_availability availabilityType c))
                   end in (sent, station2))
                = (Ok tt, turn chargingStation connectorId)).
    { unfold turn, change, changedConnector, hasActiveTransaction. rewrite Hc.
      unfold getConnectorStatus in Hc.
      destruct (transactionActive c) eqn:T.
      - unfold setConnectorStatus. cbn [connectors]. rewrite app_nil_r.
        do 2 f_equal. apply map_eq. intros k.
        destruct (decide (connectorId = k)) as [<-|N].
        + rewrite lookup_insert_eq, lookup_alter_eq, Hc. simpl. now rewrite T.
        + now rewrite lookup_insert_ne, lookup_alter_ne.
      - unfold sendAndSetConnectorStatus. rewrite getConnectorStatus_set.
        unfold setConnectorStatus. cbn [connectors sentStatusNotifications].
        do 2 f_equal. apply map_eq. intros k.
        destruct (decide (connectorId = k)) as [<-|N].
        + rewrite lookup_insert_eq, lookup_alter_eq, Hc. simpl. now rewrite T.
        + now rewrite !lookup_insert_ne, lookup_alter_ne. }
    destruct (match (if transactionActive c
                     then AvailabilityScheduled else AvailabilityAccepted) with
              | AvailabilityAccepted => _
              | _ => _
              end) as [sent station2].
    injection E as -> ->.
    rewrite IH.
    + rewrite <- app_assoc. cbn [app fmap list_fmap]. do 3 f_equal.
      f_equal.
      * unfold responseOf. now rewrite Hc.
      * apply list_fmap_ext. intros i id _. apply responseOf_turn.
    + eapply Forall_impl; [exact Fids|]. intros id. apply is_Some_turn.
Qed.

(** A connector after the whole loop. *)
Lemma foldl_turn_lookup connectorIds :
  ∀ chargingStation connectorId,
    getConnectorStatus (foldl turn chargingStation connectorIds) connectorId
    = if decide (connectorId ∈ connectorIds)
      then change <$> getConnectorStatus chargingStation connectorId
      else getConnectorStatus chargingStation connectorId.
Proof.
  induction connectorIds as [|id ids IH]; intros chargingStation connectorId.
  - cbn [foldl]. rewrite decide_False; [reflexivity|]. apply not_elem_of_nil.
  - cbn [foldl]. rewrite IH.
    assert (L : getConnectorStatus (turn chargingStation id) connectorId
                = if decide (id = connectorId)
                  then change <$> getConnectorStatus chargingStation connectorId
                  else getConnectorStatus chargingStation connectorId).
    { unfold getConnectorStatus, turn. cbn [connectors].
      destruct (decide (id = connectorId)) as [<-|N].
      - now rewrite lookup_alter_eq.
      - now rewrite lookup_alter_ne. }
    rewrite L.
    destruct (decide (connectorId ∈ ids)) as [I|I];
      destruct (decide (id = connectorId)) as [<-|N].
    + rewrite decide_True by (now left).
      destruct (getConnectorStatus chargingStation id); simpl; [|reflexivity].
      now rewrite change_idempotent.
    + rewrite decide_True by (now right). reflexivity.
    + rewrite decide_True by (now left). reflexivity.
    + rewrite decide_False; [reflexivity|].
      intros [E|E]%elem_of_cons; [congruence|contradiction].
Qed.

Lemma includesScheduled_responses chargingStation connectorIds :
  includesScheduled (responseOf chargingStation <$> connectorIds)
  = existsb (hasActiveTransaction chargingStation) connectorIds.
Proof.
  induction connectorIds as [|id ids IH]; [reflexivity|].
  rewrite fmap_cons. unfold includesScheduled in *. cbn [existsb]. rewrite IH. f_equal.
  unfold responseOf, hasActiveTransaction.
  destruct (getConnectorStatus chargingStation id) as [c|]; [|reflexivity].
  now destruct (transactionActive c).
Qed.

End ChangeAvailability.

Lemma responseOf_hasActiveTransaction chargingStation connectorId :
  responseOf chargingStation connectorId
  = if hasActiveTransaction chargingStation connectorId
    then AvailabilityScheduled else AvailabilityAccepted.
Proof.
  unfold responseOf, hasActiveTransaction.
  now destruct (getConnectorStatus chargingStation connectorId).
Qed.

Lemma foldl_turn_notifications chargePointStatus availabilityType connectorIds :
  ∀ chargingStation,
    sentStatusNotifications (foldl (turn chargePointStatus availabilityType)
                               chargingStation connectorIds)
    = sentStatusNotifications chargingStation
      ++ ((λ id, (id, chargePointStatus))
            <$> filter (λ id, hasActiveTransaction chargingStation id = false) connectorIds).
Proof.
  induction connectorIds as [|id ids IH]; intros chargingStation.
  - cbn [foldl]. now rewrite app_nil_r.
  - cbn [foldl]. rewrite IH.
    change (sentStatusNotifications (turn chargePointStatus availabilityType chargingStation id))
      with (sentStatusNotifications chargingStation
            ++ (if hasActiveTransaction chargingStation id
                then [] else [(id, chargePointStatus)])).
    rewrite <- app_assoc. f_equal. rewrite filter_cons.
    assert (E : filter (λ id0, hasActiveTransaction
                                 (turn chargePointStatus availabilityType chargingStation id)
                                 id0 = false) ids
                = filter (λ id0, hasActiveTransaction chargingStation id0 = false) ids).
    { apply list_filter_iff. intros k. now rewrite hasActiveTransaction_turn. }
    rewrite E.
    destruct (hasActiveTransaction chargingStation id) eqn:T.
    + rewrite decide_False by discriminate. reflexivity.
    + rewrite decide_True by reflexivity. reflexivity.
Qed.

(** A reservation that makes [hasReservation] answer true on a connector. *)
Definition reservedFor (now : Date) (chargingStation : ChargingStation) (connectorId : Z)
    (idTag : String.string) : Prop :=
  (getConnectorStatus chargingStation connectorId ≫= status) = Some Reserved
  ∧ ∃ r, getReservationByConnectorId chargingStation connectorId = Some r
         ∧ now < expiryDate r
         ∧ reservation_idTag r = idTag.

Lemma statusIsReserved_true c :
  statusIsReserved c = true ↔ (c ≫= status) = Some Reserved.
Proof.
  unfold statusIsReserved. destruct c as [c|]; simpl; [|split; discriminate].
  destruct c as [a [s|] ? ? ? ? ? ? ?]; simpl; [|split; discriminate].
  destruct s; split; intros E; try discriminate; reflexivity.
Qed.

Lemma validReservationFor_true now idTag r :
  validReservationFor now idTag r = true
  ↔ ∃ r', r = Some r' ∧ now < expiryDate r' ∧ reservation_idTag r' = idTag.
Proof.
  unfold validReservationFor, hasReservationExpired. destruct r as [r|].
  - rewrite andb_true_iff, negb_true_iff, Z.leb_gt, String.eqb_eq. split.
    + intros [? ?]. eauto.
    + intros (r' & E & ? & ?). injection E as <-. auto.
  - split; [discriminate|]. intros (r' & E & _). discriminate.
Qed.

Lemma hasReservation_reservedFor now chargingStation connectorId idTag :
  hasReservation now chargingStation connectorId idTag = true
  ↔ reservedFor now chargingStation connectorId idTag
    ∨ reservedFor now chargingStation 0 idTag.
Proof.
  unfold hasReservation, reservedFor.
  rewrite orb_true_iff, !andb_true_iff, !statusIsReserved_true, !validReservationFor_true.
  reflexivity.
Qed.

(** *** Scenarios for the session coordinator *)

Module Session.

Definition connector (s : ChargePointStatus) (started : bool) (r : option Reservation)
  : ConnectorStatus :=
  {| availability := Operative; status := Some s;
     transactionStarted := Some started;
     transactionId := if started then Some 42 else None;
     connector_idTag := None;
     energyActiveImportRegisterValue := Some 0%Q;
     transactionEnergyActiveImportRegisterValue := Some 0%Q;
     chargingProfiles := Profiles []; reservation := r |}.

Definition station (cs : list (Z * ConnectorStatus)) : ChargingStation :=
  {| connectors := list_to_map cs;
     stationInfo := Profiles.info;
     powerDivider := Some 1;
     sentStatusNotifications := [] |}.

(** Connector 1 is charging, connector 2 is idle. *)
Definition busyAndIdle : ChargingStation :=
  station [(0, connector Available false None);
           (1, connector Charging true None);
           (2, connector Available false None)].

(** Scenario S6: connector 1 reserved for tag A, the reservation has
    expired one second before [now = 10000]. *)
Definition expired : Reservation :=
  {| reservationId := 1; reservation_connectorId := 1;
     reservation_idTag := "A"%string; expiryDate := 9000 |}.

Definition reservedStation : ChargingStation :=
  station [(0, connector Available false None);
           (1, connector Reserved false (Some expired))].

End Session.

(** * Meter-value synthesizer *)

Inductive MeterValueMeasurand :=
| STATE_OF_CHARGE
| VOLTAGE
| POWER_ACTIVE_IMPORT
| CURRENT_IMPORT
| ENERGY_ACTIVE_IMPORT_REGISTER.

Inductive MeterValueUnit :=
| UNIT_WATT_HOUR | UNIT_KILO_WATT_HOUR | UNIT_WATT | UNIT_KILO_WATT
| UNIT_AMP | UNIT_VOLT | UNIT_PERCENT.

Inductive MeterValuePhase :=
| L1 | L2 | L3 | L1_N | L2_N | L3_N | L1_L2 | L2_L3 | L3_L1.

Inductive MeterValueLocation := LOCATION_BODY | LOCATION_CABLE | LOCATION_EV
                              | LOCATION_INLET | LOCATION_OUTLET.

Inductive MeterValueContext :=
| SAMPLE_PERIODIC | SAMPLE_CLOCK | TRANSACTION_BEGIN | TRANSACTION_END.

(** A template of the station configuration.  The literal [value], a string
    in the template file, is held as the number it denotes. *)
Record SampledValueTemplate := {
  template_measurand : option MeterValueMeasurand;
  template_unit : option MeterValueUnit;
  template_phase : option MeterValuePhase;
  template_location : option MeterValueLocation;
  template_context : option MeterValueContext;
  template_value : option Q;
  template_minimumValue : option Q;
  template_fluctuationPercent : option Q
}.

(** A sampled value: each field is present iff its source is. *)
Record SampledValue := {
  sampled_unit : option MeterValueUnit;
  sampled_context : option MeterValueContext;
  sampled_measurand : option MeterValueMeasurand;
  sampled_location : option MeterValueLocation;
  sampled_value : option Q;
  sampled_phase : option MeterValuePhase
}.

Record MeterValue := {
  timestamp : Date;
  sampledValue : list SampledValue
}.

Inductive LogEntry :=
| OutOfRange (measurand : option MeterValueMeasurand) (phase : option MeterValuePhase)
    (minimum value maximum : Q)
| PowerDividerUndefined
| PowerDividerNotPositive
| UnknownCurrentOutType.

(** ** The collaborators of the synthesizer

    Functions of the repository that are absent from the sources and that
    the specification names without defining: the synthesizer is
    parameterised by them.  [random] is the injected generator: the [n]-th
    draw of a call, in [[0, 1)]; [now] is the reading of the clock.

    [Number_add] is the [+] of JavaScript numbers, by which [+=] updates the
    energy registers: the sum of two IEEE 754 doubles is their exact sum
    rounded to a double ([0.1 + 0.2] is [0.30000000000000004]).  The numbers
    of the embedding are rationals; it does not take the sum that the code
    stores for the exact one, and leaves it to the environment. *)
Record Collaborators := {
  Number_add : Q → Q → Q;
  getSampledValueTemplate :
    ChargingStation → Z → option MeterValueMeasurand → option MeterValuePhase
    → option SampledValueTemplate;
  getConnectorMaximumAvailablePower : ChargingStation → Z → Q;
  getEnergyActiveImportRegisterByTransactionId : ChargingStation → Z → Q;
  amperagePerPhaseFromPower : Z → Q → Q → Q;
  Math_sqrt : Q → Q;
  random : nat → Q;
  now : Date
}.

(** ** Numbers *)

Definition Qltb (x y : Q) : bool := negb (Qle_bool y x).

(** [Math.round]: the nearest integer, halves upward. *)
Definition Math_round (x : Q) : Z := Qfloor (x + (1 # 2)).

Definition pow10 (scale : nat) : Q := inject_Z (10 ^ Z.of_nat scale).

(** Modelled from the spec: [roundTo(x, scale)], absent from the sources:
    "rounded to 2 decimals" (4 at the transaction boundaries). *)
Definition roundTo (x : Q) (scale : nat) : Q :=
  (inject_Z (Math_round (x * pow10 scale)) / pow10 scale)%Q.

(** [parseInt] and [convertToInt] of the decimal rendering of a number:
    truncation toward zero. *)
Definition parseInt (x : Q) : Q := inject_Z (Z.quot (Qnum x) (Z.pos (Qden x))).

(** Modelled from the spec: [Constants.DEFAULT_FLUCTUATION_PERCENT], absent
    from the sources: "a configured constant, e.g. 5%". *)
Definition DEFAULT_FLUCTUATION_PERCENT : Q := 5.

Definition orElse {A} (o : option A) (d : A) : A := default d o.

(** ** The state of one call *)

Record Synth := {
  chargingStation : ChargingStation;
  drawn : nat;
  sampled : list SampledValue;
  logged : list LogEntry
}.

Abbreviation MV := (ST Synth).

Definition getStation : MV ChargingStation := fun s => (Ok (chargingStation s), s).

Definition setStation (st : ChargingStation) : MV unit :=
  fun s => (Ok tt, {| chargingStation := st; drawn := drawn s;
                      sampled := sampled s; logged := logged s |}).

(** [meterValue.sampledValue.push(v)] *)
Definition push (v : SampledValue) : MV unit :=
  fun s => (Ok tt, {| chargingStation := chargingStation s; drawn := drawn s;
                      sampled := sampled s ++ [v]; logged := logged s |}).

(** [logger.error(...)] *)
Definition logError (e : LogEntry) : MV unit :=
  fun s => (Ok tt, {| chargingStation := chargingStation s; drawn := drawn s;
                      sampled := sampled s; logged := logged s ++ [e] |}).

Section Synthesizer.

Variable env : Collaborators.

(** The next draw of the injected generator. *)
Definition draw : MV Q :=
  fun s => (Ok (random env (drawn s)),
            {| chargingStation := chargingStation s; drawn := S (drawn s);
               sampled := sampled s; logged := logged s |}).

(** Modelled from the spec: [getRandomFloatRounded(max, min)], absent from
    the sources: "draw a uniform random in [min, max] and round to 2
    decimals". *)
Definition getRandomFloatRounded (max min : Q) : MV Q :=
  do u <- draw ;
  ret (roundTo (min + u * (max - min)) 2).

(** Modelled from the spec: [getRandomFloatFluctuatedRounded(value, percent)],
    absent from the sources: "apply fluctuation ±fluctuationPercent", "a pure
    function of (value, percent, rng)", rounded to 2 decimals. *)
Definition getRandomFloatFluctuatedRounded (staticValue fluctuationPercent : Q) : MV Q :=
  getRandomFloatRounded (staticValue * (1 + fluctuationPercent / 100))
    (staticValue * (1 - fluctuationPercent / 100)).

(** Modelled from the spec: [getRandomInteger(max, min)], absent from the
    sources: a uniform random integer of [min, max]. *)
Definition getRandomInteger (max min : Q) : MV Q :=
  do u <- draw ;
  ret (inject_Z (Qceiling min
                 + Qfloor (u * inject_Z (Qfloor max - Qceiling min + 1)))).

(** Modelled from the spec: [getLimitFromSampledValueTemplateCustomValue],
    absent from the sources, the [clampCustomValue] of the specification:
    "if limitationEnabled = true and raw is outside [min, max], log a warning
    and return fallback; otherwise return raw", the raw value being
    multiplied by [unitMultiplier]. *)
Definition getLimitFromSampledValueTemplateCustomValue (value max min : Q)
    (limitationEnabled : bool) (fallbackValue unitMultiplier : Q) : Q :=
  let raw := (value * unitMultiplier)%Q in
  if limitationEnabled && (Qltb raw min || Qltb max raw) then fallbackValue else raw.

(** ** buildSampledValue and checkMeasurandPowerDivider *)

Definition getMeasurandDefaultLocation (measurandType : option MeterValueMeasurand)
  : option MeterValueLocation :=
  match measurandType with
  | Some STATE_OF_CHARGE => Some LOCATION_EV
  | _ => None
  end.

Definition firstDefined {A} (a b : option A) : option A :=
  match a with
  | Some _ => a
  | None => b
  end.

Definition buildSampledValue (sampledValueTemplate : SampledValueTemplate) (value : option Q)
    (context : option MeterValueContext) (phase : option MeterValuePhase) : SampledValue :=
  {| sampled_unit := template_unit sampledValueTemplate;
     sampled_context := firstDefined context (template_context sampledValueTemplate);
     sampled_measurand := template_measurand sampledValueTemplate;
     sampled_location :=
       firstDefined (template_location sampledValueTemplate)
         (getMeasurandDefaultLocation (template_measurand sampledValueTemplate));
     sampled_value := value;
     sampled_phase := firstDefined phase (template_phase sampledValueTemplate) |}.

Definition checkMeasurandPowerDivider : MV unit :=
  do st <- getStation ;
  match powerDivider st with
  | None =>
      exec logError PowerDividerUndefined ;
      throw (OCPPError InternalError METER_VALUES)
  | Some d =>
      if d <=? 0 then
        exec logError PowerDividerNotPositive ;
        throw (OCPPError InternalError METER_VALUES)
      else ret tt
  end.

(** ** The recurring expressions of buildMeterValue *)

Definition fluctuationOf (t : SampledValueTemplate) : Q :=
  orElse (template_fluctuationPercent t) DEFAULT_FLUCTUATION_PERCENT.

(** [isNotEmptyString(t?.value)
      ? getRandomFloatFluctuatedRounded(
          getLimitFromSampledValueTemplateCustomValue(t.value, max, min,
            { limitationEnabled, fallbackValue: min, unitMultiplier }) / divisor,
          t.fluctuationPercent ?? DEFAULT_FLUCTUATION_PERCENT)
      : undefined] *)
Definition fluctuatedCustomValue (t : option SampledValueTemplate) (max min : Q)
    (unitMultiplier divisor : Q) : MV (option Q) :=
  match t with
  | Some t =>
      match template_value t with
      | Some v =>
          do st <- getStation ;
          do x <- getRandomFloatFluctuatedRounded
                    (getLimitFromSampledValueTemplateCustomValue v max min
                       (customValueLimitationMeterValues (stationInfo st)) min unitMultiplier
                     / divisor)
                    (fluctuationOf t) ;
          ret (Some x)
      | None => ret None
      end
  | None => ret None
  end.

(** [a ?? b ?? getRandomFloatRounded(max, min)] *)
Definition orElseRandom (a b : option Q) (max min : Q) : MV Q :=
  match firstDefined a b with
  | Some x => ret x
  | None => getRandomFloatRounded max min
  end.

(** [logger.error(...)] when the value is out of [min, max], or on [debug]. *)
Definition reportOutOfRange (v : SampledValue) (value min max : Q) (debug : bool) : MV unit :=
  if Qltb max value || Qltb value min || debug
  then logError (OutOfRange (sampled_measurand v) (sampled_phase v) min value max)
  else ret tt.

Record MeasurandValues := {
  valueL1 : option Q;
  valueL2 : option Q;
  valueL3 : option Q;
  allPhases : Q
}.

Definition threePhases (st : ChargingStation) : bool :=
  numberOfPhases (stationInfo st) =? 3.

Definition phasesQ (st : ChargingStation) : Q := inject_Z (numberOfPhases (stationInfo st)).

(** ** SoC measurand (lines 97-130) *)
Definition socMeasurand (connectorId : Z) (debug : bool) : MV unit :=
  do st <- getStation ;
  match getSampledValueTemplate env st connectorId (Some STATE_OF_CHARGE) None with
  | None => ret tt
  | Some socSampledValueTemplate =>
      let socMaximumValue := 100%Q in
      let socMinimumValue := orElse (template_minimumValue socSampledValueTemplate) 0%Q in
      do socSampledValueTemplateValue <-
        match template_value socSampledValueTemplate with
        | Some v => getRandomFloatFluctuatedRounded (parseInt v)
                      (fluctuationOf socSampledValueTemplate)
        | None => getRandomInteger socMaximumValue socMinimumValue
        end ;
      let v := buildSampledValue socSampledValueTemplate
                 (Some socSampledValueTemplateValue) None None in
      exec push v ;
      reportOutOfRange v (parseInt socSampledValueTemplateValue)
        socMinimumValue socMaximumValue debug
  end.

(** ** Voltage measurand (lines 131-239) *)

Definition lineToNeutral (phase : Z) : MeterValuePhase :=
  if phase =? 1 then L1_N else if phase =? 2 then L2_N else L3_N.

(** [L${phase}-L${(phase + 1) % n !== 0 ? (phase + 1) % n : n}] with [n = 3] *)
Definition lineToLine (phase : Z) : MeterValuePhase :=
  if phase =? 1 then L1_L2 else if phase =? 2 then L2_L3 else L3_L1.

Definition voltageOfTemplate (t : SampledValueTemplate) (nominal : Q) : Q :=
  match template_value t with
  | Some v => parseInt v
  | None => nominal
  end.

Definition voltagePhase (connectorId : Z) (voltageSampledValueTemplate : SampledValueTemplate)
    (fluctuationPercent voltageMeasurandValue : Q) (phase : Z) : MV unit :=
  do st <- getStation ;
  let phaseLineToNeutralValue := lineToNeutral phase in
  let voltagePhaseLineToNeutralSampledValueTemplate :=
    getSampledValueTemplate env st connectorId (Some VOLTAGE) (Some phaseLineToNeutralValue) in
  do voltagePhaseLineToNeutralMeasurandValue <-
    match voltagePhaseLineToNeutralSampledValueTemplate with
    | Some t =>
        do x <- getRandomFloatFluctuatedRounded
                  (voltageOfTemplate t (voltageOut (stationInfo st))) (fluctuationOf t) ;
        ret (Some x)
    | None => ret None
    end ;
  exec push (buildSampledValue
               (orElse voltagePhaseLineToNeutralSampledValueTemplate voltageSampledValueTemplate)
               (Some (orElse voltagePhaseLineToNeutralMeasurandValue voltageMeasurandValue))
               None (Some phaseLineToNeutralValue)) ;
  if phaseLineToLineVoltageMeterValues (stationInfo st) then
    let phaseLineToLineValue := lineToLine phase in
    let voltagePhaseLineToLineValueRounded :=
      roundTo (Math_sqrt env (phasesQ st) * voltageOut (stationInfo st)) 2 in
    let voltagePhaseLineToLineSampledValueTemplate :=
      getSampledValueTemplate env st connectorId (Some VOLTAGE) (Some phaseLineToLineValue) in
    do voltagePhaseLineToLineMeasurandValue <-
      match voltagePhaseLineToLineSampledValueTemplate with
      | Some t =>
          do x <- getRandomFloatFluctuatedRounded
                    (voltageOfTemplate t voltagePhaseLineToLineValueRounded)
                    (fluctuationOf t) ;
          ret (Some x)
      | None => ret None
      end ;
    do defaultVoltagePhaseLineToLineMeasurandValue <-
      getRandomFloatFluctuatedRounded voltagePhaseLineToLineValueRounded fluctuationPercent ;
    push (buildSampledValue
            (orElse voltagePhaseLineToLineSampledValueTemplate voltageSampledValueTemplate)
            (Some (orElse voltagePhaseLineToLineMeasurandValue
                     defaultVoltagePhaseLineToLineMeasurandValue))
            None (Some phaseLineToLineValue))
  else ret tt.

Definition voltageMeasurand (connectorId : Z) : MV unit :=
  do st <- getStation ;
  match getSampledValueTemplate env st connectorId (Some VOLTAGE) None with
  | None => ret tt
  | Some voltageSampledValueTemplate =>
      let voltageSampledValueTemplateValue :=
        voltageOfTemplate voltageSampledValueTemplate (voltageOut (stationInfo st)) in
      let fluctuationPercent := fluctuationOf voltageSampledValueTemplate in
      do voltageMeasurandValue <-
        getRandomFloatFluctuatedRounded voltageSampledValueTemplateValue fluctuationPercent ;
      exec (if negb (threePhases st)
               || (threePhases st && mainVoltageMeterValues (stationInfo st))
            then push (buildSampledValue voltageSampledValueTemplate
                         (Some voltageMeasurandValue) None None)
            else ret tt) ;
      if threePhases st then
        exec voltagePhase connectorId voltageSampledValueTemplate fluctuationPercent
               voltageMeasurandValue 1 ;
        exec voltagePhase connectorId voltageSampledValueTemplate fluctuationPercent
               voltageMeasurandValue 2 ;
        voltagePhase connectorId voltageSampledValueTemplate fluctuationPercent
          voltageMeasurandValue 3
      else ret tt
  end.

(** ** Power.Active.Import measurand (lines 240-511) *)

Definition phaseValue (values : MeasurandValues) (phase : Z) : option Q :=
  if phase =? 1 then valueL1 values else if phase =? 2 then valueL2 values else valueL3 values.

Definition pick {A} (a b c : A) (phase : Z) : A :=
  if phase =? 1 then a else if phase =? 2 then b else c.

(** One turn of the per-phase loop (lines 467-510). *)
Definition powerPhase (powerSampledValueTemplate : SampledValueTemplate)
    (perPhase : Z → option SampledValueTemplate) (values : MeasurandValues)
    (minimum maximum : Q) (debug : bool) (phase : Z) : MV unit :=
  let v := buildSampledValue (orElse (perPhase phase) powerSampledValueTemplate)
             (phaseValue values phase) None (Some (lineToNeutral phase)) in
  exec push v ;
  reportOutOfRange v (orElse (sampled_value v) 0%Q) minimum maximum debug.

Definition powerMeasurand (connectorId : Z) (debug : bool) : MV unit :=
  do st <- getStation ;
  let powerSampledValueTemplate :=
    getSampledValueTemplate env st connectorId (Some POWER_ACTIVE_IMPORT) None in
  let perPhase (phase : Z) : option SampledValueTemplate :=
    if threePhases st
    then getSampledValueTemplate env st connectorId (Some POWER_ACTIVE_IMPORT)
           (Some (lineToNeutral phase))
    else None in
  match powerSampledValueTemplate with
  | None => ret tt
  | Some pt =>
      exec checkMeasurandPowerDivider ;
      let unitDivider : Q :=
        match template_unit pt with Some UNIT_KILO_WATT => 1000%Q | _ => 1%Q end in
      let connectorMaximumAvailablePower :=
        getConnectorMaximumAvailablePower env st connectorId in
      let connectorMaximumPower := inject_Z (Math_round connectorMaximumAvailablePower) in
      let connectorMaximumPowerPerPhase :=
        inject_Z (Math_round (connectorMaximumAvailablePower / phasesQ st)) in
      let connectorMinimumPower :=
        inject_Z (Math_round (orElse (template_minimumValue pt) 0%Q)) in
      let connectorMinimumPowerPerPhase :=
        inject_Z (Math_round (connectorMinimumPower / phasesQ st)) in
      let maximum := (connectorMaximumPower / unitDivider)%Q in
      let minimum := (connectorMinimumPower / unitDivider)%Q in
      let maximumPerPhase := (connectorMaximumPowerPerPhase / unitDivider)%Q in
      let minimumPerPhase := (connectorMinimumPowerPerPhase / unitDivider)%Q in
      do powerMeasurandValues <-
        match currentOutType (stationInfo st) with
        | Some AC =>
            if threePhases st then
              do defaultFluctuatedPowerPerPhase <-
                fluctuatedCustomValue (Some pt) maximum minimum 1 (phasesQ st) ;
              do phase1FluctuatedValue <-
                fluctuatedCustomValue (perPhase 1) maximumPerPhase minimumPerPhase 1 1 ;
              do phase2FluctuatedValue <-
                fluctuatedCustomValue (perPhase 2) maximumPerPhase minimumPerPhase 1 1 ;
              do phase3FluctuatedValue <-
                fluctuatedCustomValue (perPhase 3) maximumPerPhase minimumPerPhase 1 1 ;
              do l1 <- orElseRandom phase1FluctuatedValue defaultFluctuatedPowerPerPhase
                         maximumPerPhase minimumPerPhase ;
              do l2 <- orElseRandom phase2FluctuatedValue defaultFluctuatedPowerPerPhase
                         maximumPerPhase minimumPerPhase ;
              do l3 <- orElseRandom phase3FluctuatedValue defaultFluctuatedPowerPerPhase
                         maximumPerPhase minimumPerPhase ;
              ret {| valueL1 := Some l1; valueL2 := Some l2; valueL3 := Some l3;
                     allPhases := roundTo (l1 + l2 + l3) 2 |}
            else
              do custom <- fluctuatedCustomValue (Some pt) maximum minimum 1 1 ;
              do l1 <- orElseRandom custom None maximum minimum ;
              ret {| valueL1 := Some l1; valueL2 := Some 0%Q; valueL3 := Some 0%Q;
                     allPhases := roundTo (l1 + 0 + 0) 2 |}
        | Some DC =>
            do custom <- fluctuatedCustomValue (Some pt) maximum minimum 1 1 ;
            do all <- orElseRandom custom None maximum minimum ;
            ret {| valueL1 := None; valueL2 := None; valueL3 := None; allPhases := all |}
        | None =>
            exec logError UnknownCurrentOutType ;
            throw (OCPPError InternalError METER_VALUES)
        end ;
      let v := buildSampledValue pt (Some (allPhases powerMeasurandValues)) None None in
      exec push v ;
      exec reportOutOfRange v (allPhases powerMeasurandValues)
             (roundTo minimum 2) (roundTo maximum 2) debug ;
      if threePhases st then
        exec powerPhase pt perPhase powerMeasurandValues
               (roundTo minimumPerPhase 2) (roundTo maximumPerPhase 2) debug 1 ;
        exec powerPhase pt perPhase powerMeasurandValues
               (roundTo minimumPerPhase 2) (roundTo maximumPerPhase 2) debug 2 ;
        powerPhase pt perPhase powerMeasurandValues
          (roundTo minimumPerPhase 2) (roundTo maximumPerPhase 2) debug 3
      else ret tt
  end.

(** ** Current.Import measurand (lines 512-763) *)

Definition linePhase (phase : Z) : MeterValuePhase :=
  if phase =? 1 then L1 else if phase =? 2 then L2 else L3.

(** One turn of the per-phase loop (lines 727-762). *)
Definition currentPhase (currentSampledValueTemplate : SampledValueTemplate)
    (perPhase : Z → option SampledValueTemplate) (values : MeasurandValues)
    (minimum maximum : Q) (debug : bool) (phase : Z) : MV unit :=
  let v := buildSampledValue (orElse (perPhase phase) currentSampledValueTemplate)
             (phaseValue values phase) None (Some (linePhase phase)) in
  exec push v ;
  reportOutOfRange v (orElse (sampled_value v) 0%Q) minimum maximum debug.

(** Modelled from the spec: [DCElectricUtils.amperage], absent from the
    sources: "DC max amperage is [maxPower / voltageOut]". *)
Definition DC_amperage (power voltage : Q) : Q := (power / voltage)%Q.

Definition currentMeasurand (connectorId : Z) (debug : bool) : MV unit :=
  do st <- getStation ;
  let currentSampledValueTemplate :=
    getSampledValueTemplate env st connectorId (Some CURRENT_IMPORT) None in
  let perPhase (phase : Z) : option SampledValueTemplate :=
    if threePhases st
    then getSampledValueTemplate env st connectorId (Some CURRENT_IMPORT)
           (Some (linePhase phase))
    else None in
  match currentSampledValueTemplate with
  | None => ret tt
  | Some ct =>
      exec checkMeasurandPowerDivider ;
      let connectorMaximumAvailablePower :=
        getConnectorMaximumAvailablePower env st connectorId in
      let connectorMinimumAmperage := orElse (template_minimumValue ct) 0%Q in
      do result <-
        match currentOutType (stationInfo st) with
        | Some AC =>
            let connectorMaximumAmperage :=
              amperagePerPhaseFromPower env (numberOfPhases (stationInfo st))
                connectorMaximumAvailablePower (voltageOut (stationInfo st)) in
            do values <-
              (if threePhases st then
                 do defaultFluctuatedAmperagePerPhase <-
                   fluctuatedCustomValue (Some ct) connectorMaximumAmperage
                     connectorMinimumAmperage 1 1 ;
                 do phase1FluctuatedValue <-
                   fluctuatedCustomValue (perPhase 1) connectorMaximumAmperage
                     connectorMinimumAmperage 1 1 ;
                 do phase2FluctuatedValue <-
                   fluctuatedCustomValue (perPhase 2) connectorMaximumAmperage
                     connectorMinimumAmperage 1 1 ;
                 do phase3FluctuatedValue <-
                   fluctuatedCustomValue (perPhase 3) connectorMaximumAmperage
                     connectorMinimumAmperage 1 1 ;
                 do l1 <- orElseRandom phase1FluctuatedValue defaultFluctuatedAmperagePerPhase
                            connectorMaximumAmperage connectorMinimumAmperage ;
                 do l2 <- orElseRandom phase2FluctuatedValue defaultFluctuatedAmperagePerPhase
                            connectorMaximumAmperage connectorMinimumAmperage ;
                 do l3 <- orElseRandom phase3FluctuatedValue defaultFluctuatedAmperagePerPhase
                            connectorMaximumAmperage connectorMinimumAmperage ;
                 ret (l1, l2, l3)
               else
                 do custom <- fluctuatedCustomValue (Some ct) connectorMaximumAmperage
                                connectorMinimumAmperage 1 1 ;
                 do l1 <- orElseRandom custom None connectorMaximumAmperage
                            connectorMinimumAmperage ;
                 ret (l1, 0%Q, 0%Q)) ;
            let '(l1, l2, l3) := values in
            ret (connectorMaximumAmperage,
                 {| valueL1 := Some l1; valueL2 := Some l2; valueL3 := Some l3;
                    allPhases := roundTo ((l1 + l2 + l3) / phasesQ st) 2 |})
        | Some DC =>
            let connectorMaximumAmperage :=
              DC_amperage connectorMaximumAvailablePower (voltageOut (stationInfo st)) in
            do custom <- fluctuatedCustomValue (Some ct) connectorMaximumAmperage
                           connectorMinimumAmperage 1 1 ;
            do all <- orElseRandom custom None connectorMaximumAmperage
                        connectorMinimumAmperage ;
            ret (connectorMaximumAmperage,
                 {| valueL1 := None; valueL2 := None; valueL3 := None; allPhases := all |})
        | None =>
            exec logError UnknownCurrentOutType ;
            throw (OCPPError InternalError METER_VALUES)
        end ;
      let '(connectorMaximumAmperage, currentMeasurandValues) := result in
      let v := buildSampledValue ct (Some (allPhases currentMeasurandValues)) None None in
      exec push v ;
      exec reportOutOfRange v (allPhases currentMeasurandValues)
             connectorMinimumAmperage connectorMaximumAmperage debug ;
      if threePhases st then
        exec currentPhase ct perPhase currentMeasurandValues
               connectorMinimumAmperage connectorMaximumAmperage debug 1 ;
        exec currentPhase ct perPhase currentMeasurandValues
               connectorMinimumAmperage connectorMaximumAmperage debug 2 ;
        currentPhase ct perPhase currentMeasurandValues
          connectorMinimumAmperage connectorMaximumAmperage debug 3
      else ret tt
  end.

(** ** Energy.Active.Import.Register measurand (lines 764-839) *)

Definition with_registers (energy transactionEnergy : Q) (c : ConnectorStatus)
  : ConnectorStatus :=
  {| availability := availability c;
     status := status c;
     transactionStarted := transactionStarted c;
     transactionId := transactionId c;
     connector_idTag := connector_idTag c;
     energyActiveImportRegisterValue := Some energy;
     transactionEnergyActiveImportRegisterValue := Some transactionEnergy;
     chargingProfiles := chargingProfiles c;
     reservation := reservation c |}.

(** "Persist previous value on connector" (lines 802-815): each register is
    updated with [+=], the addition of JavaScript numbers. *)
Definition persistEnergy (energyValueRounded : Q) (c : ConnectorStatus) : ConnectorStatus :=
  match energyActiveImportRegisterValue c, transactionEnergyActiveImportRegisterValue c with
  | Some energy, Some transactionEnergy =>
      if Qle_bool 0 energy && Qle_bool 0 transactionEnergy
      then with_registers (Number_add env energy energyValueRounded)
             (Number_add env transactionEnergy energyValueRounded) c
      else with_registers 0 0 c
  | _, _ => with_registers 0 0 c
  end.

Definition energyMeasurand (connectorId transactionId' interval : Z) (debug : bool)
  : MV unit :=
  do st <- getStation ;
  let connector := getConnectorStatus st connectorId in
  match getSampledValueTemplate env st connectorId None None with
  | None => ret tt
  | Some energySampledValueTemplate =>
      exec checkMeasurandPowerDivider ;
      let unitDivider : Q :=
        match template_unit energySampledValueTemplate with
        | Some UNIT_KILO_WATT_HOUR => 1000%Q
        | _ => 1%Q
        end in
      let connectorMaximumAvailablePower :=
        getConnectorMaximumAvailablePower env st connectorId in
      let connectorMaximumEnergyRounded :=
        roundTo (connectorMaximumAvailablePower * inject_Z interval / inject_Z (3600 * 1000)) 2 in
      let connectorMinimumEnergyRounded :=
        roundTo (orElse (template_minimumValue energySampledValueTemplate) 0%Q) 2 in
      do custom <- fluctuatedCustomValue (Some energySampledValueTemplate)
                     connectorMaximumEnergyRounded connectorMinimumEnergyRounded
                     unitDivider 1 ;
      do energyValueRounded <- orElseRandom custom None connectorMaximumEnergyRounded
                                 connectorMinimumEnergyRounded ;
      exec match connector with
           | Some c => setStation (setConnectorStatus st connectorId
                                     (persistEnergy energyValueRounded c))
           | None => ret tt
           end ;
      do st' <- getStation ;
      let v := buildSampledValue energySampledValueTemplate
                 (Some (roundTo (getEnergyActiveImportRegisterByTransactionId env st'
                                   transactionId' / unitDivider) 2))
                 None None in
      exec push v ;
      reportOutOfRange v energyValueRounded connectorMinimumEnergyRounded
        connectorMaximumEnergyRounded debug
  end.

(** ** buildMeterValue *)

Definition measurands (connectorId transactionId' interval : Z) (debug : bool) : MV unit :=
  exec socMeasurand connectorId debug ;
  exec voltageMeasurand connectorId ;
  exec powerMeasurand connectorId debug ;
  exec currentMeasurand connectorId debug ;
  energyMeasurand connectorId transactionId' interval debug.

Definition initialSynth (st : ChargingStation) : Synth :=
  {| chargingStation := st; drawn := 0; sampled := []; logged := [] |}.

(** The meter value, and the state the call leaves: the station with its
    registers, the number of draws, the errors logged. *)
Definition buildMeterValue (st : ChargingStation)
    (connectorId transactionId' interval : Z) (debug : bool) : outcome MeterValue * Synth :=
  match measurands connectorId transactionId' interval debug (initialSynth st) with
  | (Ok _, s) => (Ok {| timestamp := now env; sampledValue := sampled s |}, s)
  | (Throw e, s) => (Throw e, s)
  end.

End Synthesizer.

(** ** Reasoning on the synthesizer *)

(** [steps R m]: every run of [m], whatever its outcome, relates the state
    it starts from to the state it leaves. *)
Definition steps {A} (R : Synth → Synth → Prop) (m : MV A) : Prop :=
  ∀ s r s', m s = (r, s') → R s s'.

(** [total P m]: from a state whose station satisfies [P], [m] returns, and
    leaves a station that satisfies [P]. *)
Definition total {A} (P : ChargingStation → Prop) (m : MV A) : Prop :=
  ∀ s, P (chargingStation s) → ∃ a s', m s = (Ok a, s') ∧ P (chargingStation s').

(** The sampled values are only appended to. *)
Definition appends (s s' : Synth) : Prop := ∃ l, sampled s' = sampled s ++ l.

(** The station is left as it is. *)
Definition sameStation (s s' : Synth) : Prop := chargingStation s' = chargingStation s.

Section Steps.

Variable env : Collaborators.
Variable R : Synth → Synth → Prop.
Hypothesis R_refl : ∀ s, R s s.
Hypothesis R_trans : ∀ s1 s2 s3, R s1 s2 → R s2 s3 → R s1 s3.
Hypothesis R_push : ∀ v s s', push v s = (Ok tt, s') → R s s'.
Hypothesis R_log : ∀ e s s', logError e s = (Ok tt, s') → R s s'.
Hypothesis R_draw : ∀ s u s', draw env s = (Ok u, s') → R s s'.

Lemma steps_ret {A} (a : A) : steps R (ret a).
Proof. intros s r s' E. injection E as <- <-. apply R_refl. Qed.

Lemma steps_throw {A} e : steps R (throw e : MV A).
Proof. intros s r s' E. injection E as <- <-. apply R_refl. Qed.

Lemma steps_bind {A B} (m : MV A) (k : A → MV B) :
  steps R m → (∀ a, steps R (k a)) → steps R (bind m k).
Proof.
  intros Hm Hk s r s' E. unfold bind in E.
  destruct (m s) as [[a|e] s1] eqn:Em.
  - eapply R_trans; [eapply Hm; exact Em|eapply Hk; exact E].
  - injection E as <- <-. eapply Hm; exact Em.
Qed.

Lemma steps_getStation : steps R getStation.
Proof. intros s r s' E. injection E as <- <-. apply R_refl. Qed.

Lemma steps_push v : steps R (push v).
Proof. intros s r s' E. eapply R_push. unfold push in *. injection E as <- <-. reflexivity. Qed.

Lemma steps_logError e : steps R (logError e).
Proof.
  intros s r s' E. eapply R_log. unfold logError in *. injection E as <- <-. reflexivity.
Qed.

Lemma steps_draw : steps R (draw env).
Proof.
  intros s r s' E. eapply (R_draw s (random env (drawn s))).
  unfold draw in *. injection E as <- <-. reflexivity.
Qed.

End Steps.

Ltac steps_tac :=
  repeat first
    [ apply steps_ret; assumption
    | apply steps_throw; assumption
    | apply steps_getStation; assumption
    | apply steps_push; assumption
    | apply steps_logError; assumption
    | eapply steps_draw; eassumption
    | assumption
    | solve [auto]
    | progress cbv zeta
    | apply steps_bind; [assumption| |intros ?]
    | match goal with
      | |- steps _ (match ?x with _ => _ end) => destruct x
      | |- steps _ (let '(_, _) := ?x in _) => destruct x
      end ].

Section StepsOfSections.

Variable env : Collaborators.
Variable R : Synth → Synth → Prop.
Hypothesis R_refl : ∀ s, R s s.
Hypothesis R_trans : ∀ s1 s2 s3, R s1 s2 → R s2 s3 → R s1 s3.
Hypothesis R_push : ∀ v s s', push v s = (Ok tt, s') → R s s'.
Hypothesis R_log : ∀ e s s', logError e s = (Ok tt, s') → R s s'.
Hypothesis R_draw : ∀ s u s', draw env s = (Ok u, s') → R s s'.

Lemma steps_getRandomFloatRounded max min : steps R (getRandomFloatRounded env max min).
Proof. unfold getRandomFloatRounded. steps_tac. Qed.

Lemma steps_getRandomFloatFluctuatedRounded v p :
  steps R (getRandomFloatFluctuatedRounded env v p).
Proof. apply steps_getRandomFloatRounded. Qed.

Lemma steps_getRandomInteger max min : steps R (getRandomInteger env max min).
Proof. unfold getRandomInteger. steps_tac. Qed.

Lemma steps_fluctuatedCustomValue t max min u d :
  steps R (fluctuatedCustomValue env t max min u d).
Proof.
  pose proof steps_getRandomFloatFluctuatedRounded.
  unfold fluctuatedCustomValue. steps_tac.
Qed.

Lemma steps_orElseRandom a b max min : steps R (orElseRandom env a b max min).
Proof. pose proof steps_getRandomFloatRounded. unfold orElseRandom. steps_tac. Qed.

Lemma steps_reportOutOfRange v x lo hi debug : steps R (reportOutOfRange v x lo hi debug).
Proof. unfold reportOutOfRange. steps_tac. Qed.

Lemma steps_checkMeasurandPowerDivider : steps R checkMeasurandPowerDivider.
Proof. unfold checkMeasurandPowerDivider. steps_tac. Qed.

Lemma steps_socMeasurand connectorId debug : steps R (socMeasurand env connectorId debug).
Proof.
  pose proof steps_getRandomFloatFluctuatedRounded.
  pose proof steps_getRandomInteger. pose proof steps_reportOutOfRange.
  unfold socMeasurand. steps_tac.
Qed.

Lemma steps_voltagePhase connectorId t f v phase :
  steps R (voltagePhase env connectorId t f v phase).
Proof.
  pose proof steps_getRandomFloatFluctuatedRounded.
  unfold voltagePhase. steps_tac.
Qed.

Lemma steps_voltageMeasurand connectorId : steps R (voltageMeasurand env connectorId).
Proof.
  pose proof steps_getRandomFloatFluctuatedRounded. pose proof steps_voltagePhase.
  unfold voltageMeasurand. steps_tac.
Qed.

Lemma steps_powerPhase pt perPhase values lo hi debug phase :
  steps R (powerPhase pt perPhase values lo hi debug phase).
Proof. pose proof steps_reportOutOfRange. unfold powerPhase. steps_tac. Qed.

Lemma steps_powerMeasurand connectorId debug : steps R (powerMeasurand env connectorId debug).
Proof.
  pose proof steps_fluctuatedCustomValue. pose proof steps_orElseRandom.
  pose proof steps_reportOutOfRange. pose proof steps_checkMeasurandPowerDivider.
  pose proof steps_powerPhase.
  unfold powerMeasurand. steps_tac.
Qed.

Lemma steps_currentPhase ct perPhase values lo hi debug phase :
  steps R (currentPhase ct perPhase values lo hi debug phase).
Proof. pose proof steps_reportOutOfRange. unfold currentPhase. steps_tac. Qed.

Lemma steps_currentMeasurand connectorId debug :
  steps R (currentMeasurand env connectorId debug).
Proof.
  pose proof steps_fluctuatedCustomValue. pose proof steps_orElseRandom.
  pose proof steps_reportOutOfRange. pose proof steps_checkMeasurandPowerDivider.
  pose proof steps_currentPhase.
  unfold currentMeasurand. steps_tac.
Qed.

(** The four measurands that precede the energy register. *)
Definition beforeEnergy (connectorId : Z) (debug : bool) : MV unit :=
  exec socMeasurand env connectorId debug ;
  exec voltageMeasurand env connectorId ;
  exec powerMeasurand env connectorId debug ;
  currentMeasurand env connectorId debug.

Lemma steps_beforeEnergy connectorId debug : steps R (beforeEnergy connectorId debug).
Proof.
  pose proof steps_socMeasurand. pose proof steps_voltageMeasurand.
  pose proof steps_powerMeasurand. pose proof steps_currentMeasurand.
  unfold beforeEnergy. steps_tac.
Qed.

Hypothesis R_set : ∀ st s s', setStation st s = (Ok tt, s') → R s s'.

Lemma steps_setStation st : steps R (setStation st).
Proof.
  intros s r s' E. eapply (R_set st). unfold setStation in *. injection E as <- <-.
  reflexivity.
Qed.

Lemma steps_energyMeasurand connectorId transactionId' interval debug :
  steps R (energyMeasurand env connectorId transactionId' interval debug).
Proof.
  pose proof steps_fluctuatedCustomValue. pose proof steps_orElseRandom.
  pose proof steps_reportOutOfRange. pose proof steps_checkMeasurandPowerDivider.
  pose proof steps_setStation.
  unfold energyMeasurand. steps_tac.
Qed.

End StepsOfSections.

(** *** The sampled values are appended to; the station is kept until the
    energy register *)

Section Frames.

Variable env : Collaborators.

Lemma appends_refl s : appends s s.
Proof. exists []. now rewrite app_nil_r. Qed.

Lemma appends_trans s1 s2 s3 : appends s1 s2 → appends s2 s3 → appends s1 s3.
Proof. intros [l1 E1] [l2 E2]. exists (l1 ++ l2). now rewrite E2, E1, app_assoc. Qed.

Lemma appends_push v s s' : push v s = (Ok tt, s') → appends s s'.
Proof. intros E. injection E as <-. now exists [v]. Qed.

Lemma appends_log e s s' : logError e s = (Ok tt, s') → appends s s'.
Proof. intros E. injection E as <-. exists []. simpl. now rewrite app_nil_r. Qed.

Lemma appends_draw s u s' : draw env s = (Ok u, s') → appends s s'.
Proof. intros E. injection E as _ <-. exists []. simpl. now rewrite app_nil_r. Qed.

Lemma appends_set st s s' : setStation st s = (Ok tt, s') → appends s s'.
Proof. intros E. injection E as <-. exists []. simpl. now rewrite app_nil_r. Qed.

Lemma sameStation_refl s : sameStation s s.
Proof. reflexivity. Qed.

Lemma sameStation_trans s1 s2 s3 : sameStation s1 s2 → sameStation s2 s3 → sameStation s1 s3.
Proof. unfold sameStation. congruence. Qed.

Lemma sameStation_push v s s' : push v s = (Ok tt, s') → sameStation s s'.
Proof. intros E. injection E as <-. reflexivity. Qed.

Lemma sameStation_log e s s' : logError e s = (Ok tt, s') → sameStation s s'.
Proof. intros E. injection E as <-. reflexivity. Qed.

Lemma sameStation_draw s u s' : draw env s = (Ok u, s') → sameStation s s'.
Proof. intros E. injection E as _ <-. reflexivity. Qed.

Lemma beforeEnergy_sameStation connectorId debug :
  steps sameStation (beforeEnergy env connectorId debug).
Proof.
  apply steps_beforeEnergy;
    eauto using sameStation_refl, sameStation_trans, sameStation_push,
                sameStation_log, sameStation_draw.
Qed.

Lemma beforeEnergy_appends connectorId debug :
  steps appends (beforeEnergy env connectorId debug).
Proof.
  apply steps_beforeEnergy;
    eauto using appends_refl, appends_trans, appends_push, appends_log, appends_draw.
Qed.

Lemma energyMeasurand_appends connectorId transactionId' interval debug :
  steps appends (energyMeasurand env connectorId transactionId' interval debug).
Proof.
  apply steps_energyMeasurand;
    eauto using appends_refl, appends_trans, appends_push, appends_log, appends_draw,
                appends_set.
Qed.

Lemma socMeasurand_sameStation connectorId debug :
  steps sameStation (socMeasurand env connectorId debug).
Proof.
  apply steps_socMeasurand;
    eauto using sameStation_refl, sameStation_trans, sameStation_push,
                sameStation_log, sameStation_draw.
Qed.

Lemma voltageMeasurand_sameStation connectorId :
  steps sameStation (voltageMeasurand env connectorId).
Proof.
  apply steps_voltageMeasurand;
    eauto using sameStation_refl, sameStation_trans, sameStation_push,
                sameStation_log, sameStation_draw.
Qed.

Lemma powerMeasurand_sameStation connectorId debug :
  steps sameStation (powerMeasurand env connectorId debug).
Proof.
  apply steps_powerMeasurand;
    eauto using sameStation_refl, sameStation_trans, sameStation_push,
                sameStation_log, sameStation_draw.
Qed.

Lemma currentMeasurand_sameStation connectorId debug :
  steps sameStation (currentMeasurand env connectorId debug).
Proof.
  apply steps_currentMeasurand;
    eauto using sameStation_refl, sameStation_trans, sameStation_push,
                sameStation_log, sameStation_draw.
Qed.

Lemma voltageMeasurand_appends connectorId :
  steps appends (voltageMeasurand env connectorId).
Proof.
  apply steps_voltageMeasurand;
    eauto using appends_refl, appends_trans, appends_push, appends_log, appends_draw.
Qed.

Lemma powerMeasurand_appends connectorId debug :
  steps appends (powerMeasurand env connectorId debug).
Proof.
  apply steps_powerMeasurand;
    eauto using appends_refl, appends_trans, appends_push, appends_log, appends_draw.
Qed.

Lemma currentMeasurand_appends connectorId debug :
  steps appends (currentMeasurand env connectorId debug).
Proof.
  apply steps_currentMeasurand;
    eauto using appends_refl, appends_trans, appends_push, appends_log, appends_draw.
Qed.

End Frames.

(** *** Computations that always return *)

Section Totality.

Variable env : Collaborators.
Variable P : ChargingStation → Prop.

Lemma total_ret {A} (a : A) : total P (ret a).
Proof. intros s Hs. eauto. Qed.

Lemma total_bind {A B} (m : MV A) (k : A → MV B) :
  total P m → (∀ a, total P (k a)) → total P (bind m k).
Proof.
  intros Hm Hk s Hs. destruct (Hm s Hs) as (a & s1 & E & H1).
  destruct (Hk a s1 H1) as (b & s2 & E2 & H2).
  exists b, s2. split; [|exact H2]. unfold bind. now rewrite E.
Qed.

Lemma total_bind_getStation {B} (k : ChargingStation → MV B) :
  (∀ st, P st → total P (k st)) → total P (bind getStation k).
Proof. intros Hk s Hs. exact (Hk (chargingStation s) Hs s Hs). Qed.

Lemma total_push v : total P (push v).
Proof. intros s Hs. eexists _, _. split; [reflexivity|exact Hs]. Qed.

Lemma total_logError e : total P (logError e).
Proof. intros s Hs. eexists _, _. split; [reflexivity|exact Hs]. Qed.

Lemma total_draw : total P (draw env).
Proof. intros s Hs. eexists _, _. split; [reflexivity|exact Hs]. Qed.

Lemma total_setStation st : P st → total P (setStation st).
Proof. intros Hst s Hs. eexists _, _. split; [reflexivity|exact Hst]. Qed.

End Totality.

Ltac total_tac :=
  repeat first
    [ apply total_ret
    | apply total_push
    | apply total_logError
    | apply total_draw
    | solve [auto]
    | progress cbv zeta
    | apply total_bind_getStation; intros ? ?
    | apply total_bind; [|intros ?]
    | match goal with
      | |- total _ (match ?x with _ => _ end) => destruct x
      | |- total _ (let '(_, _) := ?x in _) => destruct x
      end ].

(** The precondition of the specification: the power divider is a positive
    integer and the current type is known. *)
Definition powerDividerPositive (st : ChargingStation) : Prop :=
  ∃ d, powerDivider st = Some d ∧ 0 < d.

Definition currentOutTypeKnown (st : ChargingStation) : Prop :=
  currentOutType (stationInfo st) = Some AC ∨ currentOutType (stationInfo st) = Some DC.

Definition meteringPrecondition (st : ChargingStation) : Prop :=
  powerDividerPositive st ∧ currentOutTypeKnown st.

Section TotalityOfSections.

Variable env : Collaborators.
Variable P : ChargingStation → Prop.

Lemma total_getRandomFloatRounded max min : total P (getRandomFloatRounded env max min).
Proof. unfold getRandomFloatRounded. total_tac. Qed.

Lemma total_getRandomFloatFluctuatedRounded v p :
  total P (getRandomFloatFluctuatedRounded env v p).
Proof. apply total_getRandomFloatRounded. Qed.

Lemma total_getRandomInteger max min : total P (getRandomInteger env max min).
Proof. unfold getRandomInteger. total_tac. Qed.

Lemma total_fluctuatedCustomValue t max min u d :
  total P (fluctuatedCustomValue env t max min u d).
Proof.
  pose proof total_getRandomFloatFluctuatedRounded.
  unfold fluctuatedCustomValue. total_tac.
Qed.

Lemma total_orElseRandom a b max min : total P (orElseRandom env a b max min).
Proof. pose proof total_getRandomFloatRounded. unfold orElseRandom. total_tac. Qed.

Lemma total_reportOutOfRange v x lo hi debug : total P (reportOutOfRange v x lo hi debug).
Proof. unfold reportOutOfRange. total_tac. Qed.

Lemma total_socMeasurand connectorId debug : total P (socMeasurand env connectorId debug).
Proof.
  pose proof total_getRandomFloatFluctuatedRounded.
  pose proof total_getRandomInteger. pose proof total_reportOutOfRange.
  unfold socMeasurand. total_tac.
Qed.

Lemma total_voltagePhase connectorId t f v phase :
  total P (voltagePhase env connectorId t f v phase).
Proof.
  pose proof total_getRandomFloatFluctuatedRounded.
  unfold voltagePhase. total_tac.
Qed.

Lemma total_voltageMeasurand connectorId : total P (voltageMeasurand env connectorId).
Proof.
  pose proof total_getRandomFloatFluctuatedRounded. pose proof total_voltagePhase.
  unfold voltageMeasurand. total_tac.
Qed.

Lemma total_powerPhase pt perPhase values lo hi debug phase :
  total P (powerPhase pt perPhase values lo hi debug phase).
Proof. pose proof total_reportOutOfRange. unfold powerPhase. total_tac. Qed.

Lemma total_currentPhase ct perPhase values lo hi debug phase :
  total P (currentPhase ct perPhase values lo hi debug phase).
Proof. pose proof total_reportOutOfRange. unfold currentPhase. total_tac. Qed.

End TotalityOfSections.

Section TotalityUnderPrecondition.

Variable env : Collaborators.

Lemma total_checkMeasurandPowerDivider :
  total meteringPrecondition checkMeasurandPowerDivider.
Proof.
  intros s Hs. pose proof Hs as [(d & Hd & Hpos) _].
  exists tt, s. split; [|exact Hs].
  unfold checkMeasurandPowerDivider, bind, getStation. rewrite Hd.
  destruct (d <=? 0) eqn:E; [lia|reflexivity].
Qed.

Lemma total_powerMeasurand connectorId debug :
  total meteringPrecondition (powerMeasurand env connectorId debug).
Proof.
  pose proof (total_fluctuatedCustomValue env meteringPrecondition).
  pose proof (total_orElseRandom env meteringPrecondition).
  pose proof (total_reportOutOfRange meteringPrecondition).
  pose proof total_checkMeasurandPowerDivider.
  pose proof (total_powerPhase meteringPrecondition).
  unfold powerMeasurand. apply total_bind_getStation. intros st [_ [K|K]];
    rewrite K; total_tac.
Qed.

Lemma total_currentMeasurand connectorId debug :
  total meteringPrecondition (currentMeasurand env connectorId debug).
Proof.
  pose proof (total_fluctuatedCustomValue env meteringPrecondition).
  pose proof (total_orElseRandom env meteringPrecondition).
  pose proof (total_reportOutOfRange meteringPrecondition).
  pose proof total_checkMeasurandPowerDivider.
  pose proof (total_currentPhase meteringPrecondition).
  unfold currentMeasurand. apply total_bind_getStation. intros st [_ [K|K]];
    rewrite K; total_tac.
Qed.

Lemma meteringPrecondition_setConnectorStatus st connectorId c :
  meteringPrecondition st → meteringPrecondition (setConnectorStatus st connectorId c).
Proof. intros H. exact H. Qed.

Lemma total_energyMeasurand connectorId transactionId' interval debug :
  total meteringPrecondition (energyMeasurand env connectorId transactionId' interval debug).
Proof.
  pose proof (total_fluctuatedCustomValue env meteringPrecondition).
  pose proof (total_orElseRandom env meteringPrecondition).
  pose proof (total_reportOutOfRange meteringPrecondition).
  pose proof total_checkMeasurandPowerDivider.
  unfold energyMeasurand. apply total_bind_getStation. intros st Hst.
  total_tac. apply total_setStation. now apply meteringPrecondition_setConnectorStatus.
Qed.

Lemma total_measurands connectorId transactionId' interval debug :
  total meteringPrecondition (measurands env connectorId transactionId' interval debug).
Proof.
  pose proof (total_socMeasurand env meteringPrecondition).
  pose proof (total_voltageMeasurand env meteringPrecondition).
  pose proof total_powerMeasurand. pose proof total_currentMeasurand.
  pose proof total_energyMeasurand.
  unfold measurands. total_tac.
Qed.

End TotalityUnderPrecondition.

(** *** The two error branches *)

Definition internalError : exn := OCPPError InternalError METER_VALUES.

Definition powerDividerMissingOrNotPositive (st : ChargingStation) : Prop :=
  powerDivider st = None ∨ ∃ d, powerDivider st = Some d ∧ d <= 0.

Section ErrorBranches.

Variable env : Collaborators.

Lemma powerDivider_cases st :
  powerDividerMissingOrNotPositive st ∨ powerDividerPositive st.
Proof.
  unfold powerDividerMissingOrNotPositive, powerDividerPositive.
  destruct (powerDivider st) as [d|]; [|now left; left].
  destruct (Z_le_gt_dec d 0); [left; right|right]; exists d; split; auto; lia.
Qed.

Lemma checkMeasurandPowerDivider_throws s :
  powerDividerMissingOrNotPositive (chargingStation s) →
  ∃ s', checkMeasurandPowerDivider s = (Throw internalError, s').
Proof.
  unfold checkMeasurandPowerDivider, bind, getStation.
  intros [E|(d & E & Hd)]; rewrite E.
  - eexists. reflexivity.
  - destruct (d <=? 0) eqn:L; [|lia]. eexists. reflexivity.
Qed.

Lemma checkMeasurandPowerDivider_passes s :
  powerDividerPositive (chargingStation s) →
  checkMeasurandPowerDivider s = (Ok tt, s).
Proof.
  unfold checkMeasurandPowerDivider, bind, getStation.
  intros (d & E & Hd). rewrite E. destruct (d <=? 0) eqn:L; [lia|reflexivity].
Qed.

Variables (connectorId transactionId' interval : Z) (debug : bool).

Definition resolves (st : ChargingStation) (measurand : option MeterValueMeasurand) : Prop :=
  is_Some (getSampledValueTemplate env st connectorId measurand None).

Lemma resolves_dec st measurand :
  {resolves st measurand} + {¬ resolves st measurand}.
Proof.
  unfold resolves.
  destruct (getSampledValueTemplate env st connectorId measurand None).
  - left. eauto.
  - right. intros [x Hx]. discriminate.
Qed.

Lemma powerMeasurand_skipped s :
  ¬ resolves (chargingStation s) (Some POWER_ACTIVE_IMPORT) →
  powerMeasurand env connectorId debug s = (Ok tt, s).
Proof.
  unfold resolves, powerMeasurand, bind, getStation. intros N.
  destruct (getSampledValueTemplate env (chargingStation s) connectorId
              (Some POWER_ACTIVE_IMPORT) None); [|reflexivity].
  exfalso. apply N. eauto.
Qed.

Lemma currentMeasurand_skipped s :
  ¬ resolves (chargingStation s) (Some CURRENT_IMPORT) →
  currentMeasurand env connectorId debug s = (Ok tt, s).
Proof.
  unfold resolves, currentMeasurand, bind, getStation. intros N.
  destruct (getSampledValueTemplate env (chargingStation s) connectorId
              (Some CURRENT_IMPORT) None); [|reflexivity].
  exfalso. apply N. eauto.
Qed.

Lemma powerMeasurand_throws_divider s :
  resolves (chargingStation s) (Some POWER_ACTIVE_IMPORT) →
  powerDividerMissingOrNotPositive (chargingStation s) →
  ∃ s', powerMeasurand env connectorId debug s = (Throw internalError, s').
Proof.
  intros [pt Hpt] Hd. destruct (checkMeasurandPowerDivider_throws s Hd) as [s' E].
  exists s'. unfold powerMeasurand. unfold bind at 1. unfold getStation at 1.
  rewrite Hpt. unfold bind at 1. now rewrite E.
Qed.

Lemma currentMeasurand_throws_divider s :
  resolves (chargingStation s) (Some CURRENT_IMPORT) →
  powerDividerMissingOrNotPositive (chargingStation s) →
  ∃ s', currentMeasurand env connectorId debug s = (Throw internalError, s').
Proof.
  intros [ct Hct] Hd. destruct (checkMeasurandPowerDivider_throws s Hd) as [s' E].
  exists s'. unfold currentMeasurand. unfold bind at 1. unfold getStation at 1.
  rewrite Hct. unfold bind at 1. now rewrite E.
Qed.

Lemma energyMeasurand_throws_divider s :
  resolves (chargingStation s) None →
  powerDividerMissingOrNotPositive (chargingStation s) →
  ∃ s', energyMeasurand env connectorId transactionId' interval debug s
        = (Throw internalError, s').
Proof.
  intros [t Ht] Hd. destruct (checkMeasurandPowerDivider_throws s Hd) as [s' E].
  exists s'. unfold energyMeasurand. unfold bind at 1. unfold getStation at 1.
  rewrite Ht. unfold bind at 1. now rewrite E.
Qed.

Lemma powerMeasurand_throws_currentOutType s :
  resolves (chargingStation s) (Some POWER_ACTIVE_IMPORT) →
  powerDividerPositive (chargingStation s) →
  currentOutType (stationInfo (chargingStation s)) = None →
  ∃ s', powerMeasurand env connectorId debug s = (Throw internalError, s').
Proof.
  intros [pt Hpt] Hd Hc. pose proof (checkMeasurandPowerDivider_passes s Hd) as E.
  eexists. unfold powerMeasurand. unfold bind at 1. unfold getStation at 1.
  rewrite Hpt. unfold bind at 1. rewrite E. rewrite Hc.
  unfold bind, logError, throw. reflexivity.
Qed.

Lemma currentMeasurand_throws_currentOutType s :
  resolves (chargingStation s) (Some CURRENT_IMPORT) →
  powerDividerPositive (chargingStation s) →
  currentOutType (stationInfo (chargingStation s)) = None →
  ∃ s', currentMeasurand env connectorId debug s = (Throw internalError, s').
Proof.
  intros [ct Hct] Hd Hc. pose proof (checkMeasurandPowerDivider_passes s Hd) as E.
  eexists. unfold currentMeasurand. unfold bind at 1. unfold getStation at 1.
  rewrite Hct. unfold bind at 1. rewrite E. rewrite Hc.
  unfold bind, logError, throw. reflexivity.
Qed.

(** The SoC and voltage measurands always return, and keep the station. *)
Lemma soc_voltage_return st :
  ∃ s2, (exec socMeasurand env connectorId debug ; voltageMeasurand env connectorId)
          (initialSynth st) = (Ok tt, s2)
        ∧ chargingStation s2 = st.
Proof.
  destruct (total_socMeasurand env (λ _, True) connectorId debug (initialSynth st) Logic.I)
    as (u1 & s1 & E1 & _).
  destruct (total_voltageMeasurand env (λ _, True) connectorId s1 Logic.I)
    as (u2 & s2 & E2 & _).
  exists s2. destruct u1, u2. split.
  - unfold bind. now rewrite E1.
  - rewrite (voltageMeasurand_sameStation env connectorId _ _ _ E2).
    exact (socMeasurand_sameStation env connectorId debug _ _ _ E1).
Qed.

Lemma measurands_from_power st s2 :
  (exec socMeasurand env connectorId debug ; voltageMeasurand env connectorId)
    (initialSynth st) = (Ok tt, s2) →
  measurands env connectorId transactionId' interval debug (initialSynth st)
  = (exec powerMeasurand env connectorId debug ;
     exec currentMeasurand env connectorId debug ;
     energyMeasurand env connectorId transactionId' interval debug) s2.
Proof.
  unfold measurands, bind. intros E.
  destruct (socMeasurand env connectorId debug (initialSynth st)) as [[[]|e] s1];
    [|discriminate].
  now rewrite E.
Qed.

Lemma buildMeterValue_throws st e s :
  measurands env connectorId transactionId' interval debug (initialSynth st) = (Throw e, s) →
  buildMeterValue env st connectorId transactionId' interval debug = (Throw e, s).
Proof. unfold buildMeterValue. now intros ->. Qed.

Lemma measurands_throw_divider st :
  resolves st (Some POWER_ACTIVE_IMPORT) ∨ resolves st (Some CURRENT_IMPORT)
  ∨ resolves st None →
  powerDividerMissingOrNotPositive st →
  ∃ s, measurands env connectorId transactionId' interval debug (initialSynth st)
       = (Throw internalError, s).
Proof.
  intros Hres Hd. destruct (soc_voltage_return st) as (s2 & E2 & S2).
  rewrite (measurands_from_power st s2 E2).
  destruct (resolves_dec st (Some POWER_ACTIVE_IMPORT)) as [Rp|Np].
  - rewrite <- S2 in Rp, Hd.
    destruct (powerMeasurand_throws_divider s2 Rp Hd) as [s' E].
    exists s'. unfold bind. now rewrite E.
  - rewrite <- S2 in Np. unfold bind at 1. rewrite (powerMeasurand_skipped s2 Np).
    destruct (resolves_dec st (Some CURRENT_IMPORT)) as [Rc|Nc].
    + rewrite <- S2 in Rc, Hd.
      destruct (currentMeasurand_throws_divider s2 Rc Hd) as [s' E].
      exists s'. unfold bind. now rewrite E.
    + rewrite <- S2 in Nc. unfold bind at 1. rewrite (currentMeasurand_skipped s2 Nc).
      rewrite <- S2 in Hres, Hd.
      destruct Hres as [R|[R|R]]; [contradiction|contradiction|].
      exact (energyMeasurand_throws_divider s2 R Hd).
Qed.

End ErrorBranches.

Section ErrorBranchesOfCurrentType.

Variable env : Collaborators.
Variables (connectorId transactionId' interval : Z) (debug : bool).

Lemma measurands_throw_currentOutType st :
  resolves env connectorId st (Some POWER_ACTIVE_IMPORT)
  ∨ resolves env connectorId st (Some CURRENT_IMPORT) →
  currentOutType (stationInfo st) = None →
  ∃ s, measurands env connectorId transactionId' interval debug (initialSynth st)
       = (Throw internalError, s).
Proof.
  intros Hres Hc. destruct (powerDivider_cases st) as [Hd|Hd].
  { apply measurands_throw_divider; [tauto|assumption]. }
  destruct (soc_voltage_return env connectorId debug st) as (s2 & E2 & S2).
  rewrite (measurands_from_power env connectorId transactionId' interval debug st s2 E2).
  rewrite <- S2 in Hres, Hd, Hc.
  destruct (resolves_dec env connectorId (chargingStation s2) (Some POWER_ACTIVE_IMPORT))
    as [Rp|Np].
  - destruct (powerMeasurand_throws_currentOutType env connectorId debug s2 Rp Hd Hc)
      as [s' E].
    exists s'. unfold bind. now rewrite E.
  - unfold bind at 1. rewrite (powerMeasurand_skipped env connectorId debug s2 Np).
    destruct Hres as [R|R]; [contradiction|].
    destruct (currentMeasurand_throws_currentOutType env connectorId debug s2 R Hd Hc)
      as [s' E].
    exists s'. unfold bind. now rewrite E.
Qed.

End ErrorBranchesOfCurrentType.

(** ** Scenarios for the synthesizer *)

Global Instance MeterValueMeasurand_eq_dec : EqDecision MeterValueMeasurand.
Proof. solve_decision. Defined.

Global Instance MeterValuePhase_eq_dec : EqDecision MeterValuePhase.
Proof. solve_decision. Defined.

Module Meter.

(** A resolution of templates over a list: the first template with the
    measurand and the phase asked for, else the first one with the
    measurand; an absent measurand stands for the energy register. *)
Definition measurandOf (m : option MeterValueMeasurand) : MeterValueMeasurand :=
  orElse m ENERGY_ACTIVE_IMPORT_REGISTER.

Definition resolve (templates : list SampledValueTemplate)
    (measurand : option MeterValueMeasurand) (phase : option MeterValuePhase)
  : option SampledValueTemplate :=
  let sameMeasurand t :=
    bool_decide (measurandOf (template_measurand t) = measurandOf measurand) in
  firstDefined
    (List.find (λ t, sameMeasurand t && bool_decide (template_phase t = phase)) templates)
    (List.find sameMeasurand templates).

(** The register read for a transaction: the lifetime register of the
    connector that runs it. *)
Definition registerOf (st : ChargingStation) (transactionId' : Z) : Q :=
  match List.find (λ c, bool_decide (transactionId c = Some transactionId'))
          (map_to_list (connectors st)).*2 with
  | Some c => orElse (energyActiveImportRegisterValue c) 0%Q
  | None => 0%Q
  end.

(** The environment of the scenarios: the templates of a list, a constant
    maximum power, a constant draw; its sums are the exact ones. *)
Definition env (templates : list SampledValueTemplate) (maximumPower : Q) (u : Q)
  : Collaborators :=
  {| Number_add := Qplus;
     getSampledValueTemplate := λ _ _, resolve templates;
     getConnectorMaximumAvailablePower := λ _ _, maximumPower;
     getEnergyActiveImportRegisterByTransactionId := registerOf;
     amperagePerPhaseFromPower := λ n p v, (p / (inject_Z n * v))%Q;
     Math_sqrt := λ _, (173205 # 100000)%Q;
     random := λ _, u;
     now := 0 |}.

Definition template (m : MeterValueMeasurand) (unit' : MeterValueUnit)
    (value minimum fluctuation : option Q) : SampledValueTemplate :=
  {| template_measurand := Some m; template_unit := Some unit';
     template_phase := None; template_location := None; template_context := None;
     template_value := value; template_minimumValue := minimum;
     template_fluctuationPercent := fluctuation |}.

Definition connector (energy transactionEnergy : Q) : ConnectorStatus :=
  {| availability := Operative; status := Some Charging;
     transactionStarted := Some true; transactionId := Some 42;
     connector_idTag := None;
     energyActiveImportRegisterValue := Some energy;
     transactionEnergyActiveImportRegisterValue := Some transactionEnergy;
     chargingProfiles := Profiles []; reservation := None |}.

(** Scenario S1: single-phase AC, 230 V, power divider 1. *)
Definition info : ChargingStationInfo :=
  {| currentOutType := Some AC; voltageOut := 230; numberOfPhases := 1;
     mainVoltageMeterValues := false; phaseLineToLineVoltageMeterValues := false;
     customValueLimitationMeterValues := false |}.

Definition station (energy transactionEnergy : Q) : ChargingStation :=
  {| connectors := {[ 1 := connector energy transactionEnergy ]};
     stationInfo := info;
     powerDivider := Some 1;
     sentStatusNotifications := [] |}.

Definition stationWithoutDivider (energy transactionEnergy : Q) : ChargingStation :=
  {| connectors := {[ 1 := connector energy transactionEnergy ]};
     stationInfo := info;
     powerDivider := None;
     sentStatusNotifications := [] |}.

Definition energyTemplate : SampledValueTemplate :=
  template ENERGY_ACTIVE_IMPORT_REGISTER UNIT_WATT_HOUR None None None.

(** A SoC template with the literal value 150 and no fluctuation. *)
Definition socLiteral150 : SampledValueTemplate :=
  template STATE_OF_CHARGE UNIT_PERCENT (Some 150%Q) None (Some 0%Q).

Definition socRandom : SampledValueTemplate :=
  template STATE_OF_CHARGE UNIT_PERCENT None None None.

(** An energy template whose minimum value is negative. *)
Definition energyNegativeMinimum : SampledValueTemplate :=
  template ENERGY_ACTIVE_IMPORT_REGISTER UNIT_WATT_HOUR None (Some (-50)%Q) None.

(** Energy templates with a literal value: 30 Wh with the default
    fluctuation; -20 Wh without fluctuation. *)
Definition energyLiteral30 : SampledValueTemplate :=
  template ENERGY_ACTIVE_IMPORT_REGISTER UNIT_WATT_HOUR (Some 30%Q) None None.

Definition energyNegativeLiteral : SampledValueTemplate :=
  template ENERGY_ACTIVE_IMPORT_REGISTER UNIT_WATT_HOUR (Some (-20)%Q) None (Some 0%Q).

End Meter.

(** ** Numeric bounds *)

Section Bounds.

Local Open Scope Q_scope.

Lemma pow10_pos scale : 0 < pow10 scale.
Proof.
  assert (0 < 10 ^ Z.of_nat scale)%Z by (apply Z.pow_pos_nonneg; lia).
  unfold pow10, Qlt. cbn [Qnum Qden inject_Z]. lia.
Qed.

Lemma roundTo_nonneg x scale : 0 <= x → 0 <= roundTo x scale.
Proof.
  intros Hx. unfold roundTo, Math_round.
  pose proof (pow10_pos scale) as Hp.
  apply Qle_shift_div_l; [assumption|].
  assert (Hz : (0 <= Qfloor (x * pow10 scale + (1 # 2)))%Z).
  { change 0%Z with (Qfloor 0). apply Qfloor_resp_le. nra. }
  assert (0 <= inject_Z (Qfloor (x * pow10 scale + (1 # 2))))
    by (unfold Qle; cbn [Qnum Qden inject_Z]; lia).
  lra.
Qed.

Lemma mix_nonneg lo hi u : 0 <= lo → 0 <= hi → 0 <= u → u <= 1 → 0 <= lo + u * (hi - lo).
Proof. intros. nra. Qed.

(** Rounding depends on the value of the number only, not on the fraction
    that denotes it. *)
Lemma roundTo_comp x y scale : x == y → roundTo x scale = roundTo y scale.
Proof.
  intros E. unfold roundTo, Math_round.
  assert (Qfloor (x * pow10 scale + (1 # 2)) = Qfloor (y * pow10 scale + (1 # 2))) as ->;
    [|reflexivity].
  apply Qfloor_comp. now rewrite E.
Qed.

Lemma fluctuated_nonneg v p u :
  0 <= v → -(100) <= p → p <= 100 → 0 <= u → u <= 1 →
  0 <= v * (1 - p / 100) + u * (v * (1 + p / 100) - v * (1 - p / 100)).
Proof.
  intros Hv Hp1 Hp2 Hu0 Hu1.
  unfold Qdiv. change (/ 100) with (1 # 100).
  assert (0 <= 1 - p * (1 # 100)) by lra.
  assert (0 <= 1 + p * (1 # 100)) by lra.
  apply mix_nonneg; try assumption; nra.
Qed.

(** The integer drawn for the SoC. *)
Definition socDraw (minimum u : Q) : Q :=
  inject_Z (Qceiling minimum + Qfloor (u * inject_Z (Qfloor 100 - Qceiling minimum + 1))).

Lemma socDraw_range minimum u :
  0 <= u → u < 1 → minimum <= 100 →
  minimum <= socDraw minimum u ∧ socDraw minimum u <= 100.
Proof.
  intros Hu0 Hu1 Hmin. unfold socDraw.
  assert (Hc : (Qceiling minimum <= 100)%Z).
  { change 100%Z with (Qceiling (inject_Z 100)) at 1. now apply Qceiling_resp_le. }
  change (Qfloor 100) with 100%Z.
  set (c := Qceiling minimum) in *. set (n := (100 - c + 1)%Z).
  assert (Hn : 0 < inject_Z n) by (unfold Qlt; cbn [Qnum Qden inject_Z]; lia).
  assert (Hk : (0 <= Qfloor (u * inject_Z n) < n)%Z).
  { split.
    - change 0%Z with (Qfloor 0). apply Qfloor_resp_le. nra.
    - rewrite Zlt_Qlt. apply Qle_lt_trans with (u * inject_Z n); [apply Qfloor_le|]. nra. }
  split.
  - apply Qle_trans with (inject_Z c); [apply Qle_ceiling|].
    rewrite <- Zle_Qle. lia.
  - change 100 with (inject_Z 100). rewrite <- Zle_Qle. lia.
Qed.

End Bounds.

(** ** The SoC measurand, run *)

Section SocRun.

Variable env : Collaborators.
Variables (connectorId : Z) (debug : bool).

Lemma socMeasurand_random s t :
  getSampledValueTemplate env (chargingStation s) connectorId (Some STATE_OF_CHARGE) None
  = Some t →
  template_value t = None →
  ∃ s1,
    socMeasurand env connectorId debug s = (Ok tt, s1)
    ∧ sampled s1
      = sampled s
        ++ [buildSampledValue t
              (Some (socDraw (orElse (template_minimumValue t) 0%Q) (random env (drawn s))))
              None None].
Proof.
  intros Ht Hv. unfold socMeasurand, bind, getStation. rewrite Ht, Hv.
  unfold getRandomInteger, bind, draw, ret, push, reportOutOfRange.
  destruct (Qltb _ _ || Qltb _ _ || debug); eexists; split; reflexivity.
Qed.

(** With a literal value, the fluctuated literal is emitted as it is; a
    value out of range is reported in the log. *)
Definition socFluctuated (t : SampledValueTemplate) (literal u : Q) : Q :=
  let v := parseInt literal in
  let p := fluctuationOf t in
  roundTo (v * (1 - p / 100) + u * (v * (1 + p / 100) - v * (1 - p / 100))) 2.

Lemma socMeasurand_literal s t literal :
  getSampledValueTemplate env (chargingStation s) connectorId (Some STATE_OF_CHARGE) None
  = Some t →
  template_value t = Some literal →
  let v := socFluctuated t literal (random env (drawn s)) in
  let minimum := orElse (template_minimumValue t) 0%Q in
  ∃ s1,
    socMeasurand env connectorId debug s = (Ok tt, s1)
    ∧ sampled s1 = sampled s ++ [buildSampledValue t (Some v) None None]
    ∧ (Qltb 100 (parseInt v) || Qltb (parseInt v) minimum = true →
       logged s1
       = logged s
         ++ [OutOfRange (template_measurand t) (template_phase t) minimum (parseInt v) 100]).
Proof.
  intros Ht Hv v minimum. unfold socMeasurand, bind, getStation. rewrite Ht, Hv.
  unfold getRandomFloatFluctuatedRounded, getRandomFloatRounded, bind, draw, ret, push,
    reportOutOfRange.
  fold (socFluctuated t literal (random env (drawn s))). fold v. fold minimum.
  destruct (Qltb 100 (parseInt v) || Qltb (parseInt v) minimum) eqn:E; simpl.
  - eexists. split; [reflexivity|]. split; [reflexivity|]. intros _.
    reflexivity.
  - destruct debug; eexists; (split; [reflexivity|]); (split; [reflexivity|]);
      discriminate.
Qed.

End SocRun.

(** ** The energy register, run *)

Definition unitDividerOf (t : SampledValueTemplate) : Q :=
  match template_unit t with
  | Some UNIT_KILO_WATT_HOUR => 1000%Q
  | _ => 1%Q
  end.

Section EnergyRun.

Variable env : Collaborators.
Variables (connectorId transactionId' interval : Z) (debug : bool).

Definition maximumEnergy (st : ChargingStation) : Q :=
  roundTo (getConnectorMaximumAvailablePower env st connectorId * inject_Z interval
           / inject_Z (3600 * 1000)) 2.

Definition minimumEnergy (t : SampledValueTemplate) : Q :=
  roundTo (orElse (template_minimumValue t) 0%Q) 2.

Lemma checkMeasurandPowerDivider_ok_inv s u s1 :
  checkMeasurandPowerDivider s = (Ok u, s1) → s1 = s.
Proof.
  unfold checkMeasurandPowerDivider, bind, getStation, logError, throw, ret.
  destruct (powerDivider (chargingStation s)) as [d|]; [|discriminate].
  destruct (d <=? 0); [discriminate|]. now intros [= _ <-].
Qed.

Lemma energyMeasurand_inv s t c s' :
  getSampledValueTemplate env (chargingStation s) connectorId None None = Some t →
  getConnectorStatus (chargingStation s) connectorId = Some c →
  energyMeasurand env connectorId transactionId' interval debug s = (Ok tt, s') →
  ∃ increment,
    chargingStation s'
    = setConnectorStatus (chargingStation s) connectorId (persistEnergy env increment c)
    ∧ (∃ before,
         sampled s'
         = before
           ++ [buildSampledValue t
                 (Some (roundTo (getEnergyActiveImportRegisterByTransactionId env
                                   (chargingStation s') transactionId'
                                 / unitDividerOf t) 2))
                 None None])
    ∧ (template_value t = None →
       increment
       = roundTo (minimumEnergy t
                  + random env (drawn s)
                    * (maximumEnergy (chargingStation s) - minimumEnergy t)) 2).
Proof.
  intros Ht Hc E. unfold energyMeasurand in E.
  unfold bind at 1 in E. unfold getStation at 1 in E. rewrite Ht, Hc in E.
  apply bind_inv in E as (u & s1 & Ec & E).
  apply checkMeasurandPowerDivider_ok_inv in Ec as ->.
  apply bind_inv in E as (custom & s2 & Ecu & E).
  apply bind_inv in E as (increment & s3 & Eo & E).
  apply bind_inv in E as (u' & s4 & Es & E).
  unfold setStation in Es. injection Es as _ <-.
  unfold bind, getStation, push, reportOutOfRange, logError, ret in E.
  cbn [chargingStation sampled] in E.
  exists increment. fold (unitDividerOf t) in E.
  assert (R : chargingStation s'
              = setConnectorStatus (chargingStation s) connectorId (persistEnergy env increment c)
              ∧ sampled s'
                = sampled s3
                  ++ [buildSampledValue t
                        (Some (roundTo (getEnergyActiveImportRegisterByTransactionId env
                                          (setConnectorStatus (chargingStation s) connectorId
                                             (persistEnergy env increment c)) transactionId'
                                        / unitDividerOf t) 2))
                        None None]).
  { destruct (Qltb _ _ || Qltb _ _ || debug); injection E as <-; split; reflexivity. }
  destruct R as [R1 R2]. split; [exact R1|]. split.
  - exists (sampled s3). now rewrite R1.
  - intros Hv. unfold fluctuatedCustomValue in Ecu. rewrite Hv in Ecu.
    injection Ecu as <- <-.
    unfold orElseRandom, firstDefined, getRandomFloatRounded, bind, draw, ret in Eo.
    injection Eo as <- _. reflexivity.
Qed.

(** The increment of the interval, [energyValueRounded] (lines 785-801), as
    it comes out of the draw [u]. *)
Definition energyValueOf (st : ChargingStation) (t : SampledValueTemplate) (u : Q) : Q :=
  match template_value t with
  | Some v =>
      let staticValue :=
        (getLimitFromSampledValueTemplateCustomValue v (maximumEnergy st) (minimumEnergy t)
           (customValueLimitationMeterValues (stationInfo st)) (minimumEnergy t)
           (unitDividerOf t) / 1)%Q in
      roundTo (staticValue * (1 - fluctuationOf t / 100)
               + u * (staticValue * (1 + fluctuationOf t / 100)
                      - staticValue * (1 - fluctuationOf t / 100))) 2
  | None => roundTo (minimumEnergy t + u * (maximumEnergy st - minimumEnergy t)) 2
  end.

(** A run of the energy section that returns: it draws once, persists the
    increment on the connector, and appends the energy sample. *)
Lemma energyMeasurand_run s t c s' :
  getSampledValueTemplate env (chargingStation s) connectorId None None = Some t →
  getConnectorStatus (chargingStation s) connectorId = Some c →
  energyMeasurand env connectorId transactionId' interval debug s = (Ok tt, s') →
  chargingStation s'
  = setConnectorStatus (chargingStation s) connectorId
      (persistEnergy env (energyValueOf (chargingStation s) t (random env (drawn s))) c)
  ∧ drawn s' = S (drawn s)
  ∧ ∃ before,
      sampled s'
      = before
        ++ [buildSampledValue t
              (Some (roundTo (getEnergyActiveImportRegisterByTransactionId env
                                (chargingStation s') transactionId'
                              / unitDividerOf t) 2))
              None None].
Proof.
  intros Ht Hc E. unfold energyMeasurand in E.
  unfold bind at 1 in E. unfold getStation at 1 in E. rewrite Ht, Hc in E.
  apply bind_inv in E as (u & s1 & Ec & E).
  apply checkMeasurandPowerDivider_ok_inv in Ec as ->.
  apply bind_inv in E as (custom & s2 & Ecu & E).
  apply bind_inv in E as (increment & s3 & Eo & E).
  apply bind_inv in E as (u' & s4 & Es & E).
  unfold setStation in Es. injection Es as _ <-.
  unfold bind, getStation, push, reportOutOfRange, logError, ret in E.
  cbn [chargingStation sampled drawn] in E.
  fold (unitDividerOf t) in E, Ecu.
  fold (maximumEnergy (chargingStation s)) in E, Ecu, Eo.
  fold (minimumEnergy t) in E, Ecu, Eo.
  assert (I : increment = energyValueOf (chargingStation s) t (random env (drawn s))
              ∧ drawn s3 = S (drawn s)).
  { unfold energyValueOf, fluctuatedCustomValue in *.
    destruct (template_value t) as [v|].
    - unfold bind, getStation, getRandomFloatFluctuatedRounded, getRandomFloatRounded,
        draw, ret in Ecu.
      injection Ecu as <- <-.
      unfold orElseRandom, firstDefined, ret in Eo. injection Eo as <- <-.
      split; reflexivity.
    - unfold ret in Ecu. injection Ecu as <- <-.
      unfold orElseRandom, firstDefined, getRandomFloatRounded, bind, draw, ret in Eo.
      injection Eo as <- <-. split; reflexivity. }
  destruct I as [-> D3].
  set (x := energyValueOf (chargingStation s) t (random env (drawn s))) in *.
  assert (R : chargingStation s'
              = setConnectorStatus (chargingStation s) connectorId (persistEnergy env x c)
              ∧ drawn s' = drawn s3
              ∧ sampled s'
                = sampled s3
                  ++ [buildSampledValue t
                        (Some (roundTo (getEnergyActiveImportRegisterByTransactionId env
                                          (setConnectorStatus (chargingStation s) connectorId
                                             (persistEnergy env x c)) transactionId'
                                        / unitDividerOf t) 2))
                        None None]).
  { destruct (Qltb _ _ || Qltb _ _ || debug); injection E as <-; repeat split; reflexivity. }
  destruct R as (R1 & R2 & R3). split; [exact R1|]. split; [congruence|].
  exists (sampled s3). now rewrite R1.
Qed.

Lemma persistEnergy_adds increment c energy transactionEnergy :
  energyActiveImportRegisterValue c = Some energy →
  transactionEnergyActiveImportRegisterValue c = Some transactionEnergy →
  (0 <= energy)%Q → (0 <= transactionEnergy)%Q →
  persistEnergy env increment c
  = with_registers (Number_add env energy increment)
      (Number_add env transactionEnergy increment) c.
Proof.
  intros He Ht Pe Pt. unfold persistEnergy. rewrite He, Ht.
  apply Qle_bool_iff in Pe, Pt. now rewrite Pe, Pt.
Qed.

Lemma measurands_inv st s' :
  measurands env connectorId transactionId' interval debug (initialSynth st) = (Ok tt, s') →
  ∃ s4, beforeEnergy env connectorId debug (initialSynth st) = (Ok tt, s4)
        ∧ chargingStation s4 = st
        ∧ energyMeasurand env connectorId transactionId' interval debug s4 = (Ok tt, s').
Proof.
  unfold measurands, beforeEnergy. intros E.
  apply bind_inv in E as ([] & s1 & E1 & E).
  apply bind_inv in E as ([] & s2 & E2 & E).
  apply bind_inv in E as ([] & s3 & E3 & E).
  apply bind_inv in E as ([] & s4 & E4 & E).
  exists s4. split; [|split; [|exact E]].
  - unfold bind. now rewrite E1, E2, E3.
  - rewrite (currentMeasurand_sameStation env _ _ _ _ _ E4).
    rewrite (powerMeasurand_sameStation env _ _ _ _ _ E3).
    rewrite (voltageMeasurand_sameStation env _ _ _ _ E2).
    exact (socMeasurand_sameStation env _ _ _ _ _ E1).
Qed.

Lemma buildMeterValue_inv st mv s' :
  buildMeterValue env st connectorId transactionId' interval debug = (Ok mv, s') →
  measurands env connectorId transactionId' interval debug (initialSynth st) = (Ok tt, s')
  ∧ mv = {| timestamp := now env; sampledValue := sampled s' |}.
Proof.
  unfold buildMeterValue.
  destruct (measurands env connectorId transactionId' interval debug (initialSynth st))
    as [[[]|e] s]; [|discriminate].
  intros [= <- <-]. auto.
Qed.

End EnergyRun.

(** ** What follows the SoC measurand only appends *)

Definition afterSoc (env : Collaborators) (connectorId transactionId' interval : Z)
    (debug : bool) : MV unit :=
  exec voltageMeasurand env connectorId ;
  exec powerMeasurand env connectorId debug ;
  exec currentMeasurand env connectorId debug ;
  energyMeasurand env connectorId transactionId' interval debug.

Definition logsMore (s s' : Synth) : Prop := ∃ l, logged s' = logged s ++ l.

Section AfterSoc.

Variable env : Collaborators.
Variables (connectorId transactionId' interval : Z) (debug : bool).

Lemma afterSoc_appends :
  steps appends (afterSoc env connectorId transactionId' interval debug).
Proof.
  unfold afterSoc.
  repeat (apply steps_bind; [exact appends_trans| |intros _]).
  - apply voltageMeasurand_appends.
  - apply powerMeasurand_appends.
  - apply currentMeasurand_appends.
  - apply energyMeasurand_appends.
Qed.

Lemma logsMore_refl s : logsMore s s.
Proof. exists []. now rewrite app_nil_r. Qed.

Lemma logsMore_trans s1 s2 s3 : logsMore s1 s2 → logsMore s2 s3 → logsMore s1 s3.
Proof. intros [l1 E1] [l2 E2]. exists (l1 ++ l2). now rewrite E2, E1, app_assoc. Qed.

Lemma logsMore_push v s s' : push v s = (Ok tt, s') → logsMore s s'.
Proof. intros E. injection E as <-. exists []. simpl. now rewrite app_nil_r. Qed.

Lemma logsMore_log e s s' : logError e s = (Ok tt, s') → logsMore s s'.
Proof. intros E. injection E as <-. now exists [e]. Qed.

Lemma logsMore_draw s u s' : draw env s = (Ok u, s') → logsMore s s'.
Proof. intros E. injection E as _ <-. exists []. simpl. now rewrite app_nil_r. Qed.

Lemma logsMore_set st s s' : setStation st s = (Ok tt, s') → logsMore s s'.
Proof. intros E. injection E as <-. exists []. simpl. now rewrite app_nil_r. Qed.

Lemma afterSoc_logsMore :
  steps logsMore (afterSoc env connectorId transactionId' interval debug).
Proof.
  unfold afterSoc.
  repeat (apply steps_bind; [exact logsMore_trans| |intros _]).
  - apply steps_voltageMeasurand;
      eauto using logsMore_refl, logsMore_trans, logsMore_push, logsMore_log, logsMore_draw.
  - apply steps_powerMeasurand;
      eauto using logsMore_refl, logsMore_trans, logsMore_push, logsMore_log, logsMore_draw.
  - apply steps_currentMeasurand;
      eauto using logsMore_refl, logsMore_trans, logsMore_push, logsMore_log, logsMore_draw.
  - apply steps_energyMeasurand;
      eauto using logsMore_refl, logsMore_trans, logsMore_push, logsMore_log, logsMore_draw,
                  logsMore_set.
Qed.

Lemma measurands_soc_first st s' :
  measurands env connectorId transactionId' interval debug (initialSynth st) = (Ok tt, s') →
  ∃ s1, socMeasurand env connectorId debug (initialSynth st) = (Ok tt, s1)
        ∧ appends s1 s' ∧ logsMore s1 s'.
Proof.
  intros E.
  change (measurands env connectorId transactionId' interval debug)
    with (exec socMeasurand env connectorId debug ;
          afterSoc env connectorId transactionId' interval debug) in E.
  apply bind_inv in E as ([] & s1 & E1 & E).
  exists s1. split; [exact E1|]. split.
  - exact (afterSoc_appends _ _ _ E).
  - exact (afterSoc_logsMore _ _ _ E).
Qed.

End AfterSoc.

(** * More on the smart-charging manager *)

(** The instant at which a period starts, for a schedule that starts at
    [intervalStart], lies within [interval]. *)
Definition instantWithin (intervalStart : Date) (interval : Interval)
    (p : ChargingSchedulePeriod) : bool :=
  (start interval <=? addSeconds intervalStart (startPeriod p))
  && (addSeconds intervalStart (startPeriod p) <=? end_ interval).

(** The limit and the number of phases of a period: what a copy or a reset
    of [startPeriod] keeps. *)
Definition sameLimit (p q : ChargingSchedulePeriod) : Prop :=
  limit p = limit q ∧ numberPhases p = numberPhases q.

Section ProjectionCases.

Variables (s : ChargingSchedule) (I ci : Interval) (h : Heap).
Hypothesis Hci : scheduleInterval s = Ok ci.

Lemma compose_overlapping_some :
  areIntervalsOverlapping ci I = Ok true →
  ∃ r h', composeChargingSchedule s I h = (Ok (Some r), h').
Proof.
  intros Ho.
  destruct (isBefore (start ci) (start I)) eqn:Hb.
  - eexists _, _. exact (compose_clip_start s I ci h Hci Ho Hb).
  - destruct (isAfter (end_ ci) (end_ I)) eqn:Ha.
    + eexists _, _. exact (compose_clip_end s I ci h Hci Ho Hb Ha).
    + eexists _, _. exact (compose_unchanged s I ci h Hci Ho Hb Ha).
Qed.

Lemma overlapping_of_valid :
  validInterval ci = true → validInterval I = true →
  areIntervalsOverlapping ci I = Ok ((start ci <? end_ I) && (start I <? end_ ci)).
Proof. intros V1 V2. unfold areIntervalsOverlapping. now rewrite V1, V2. Qed.

End ProjectionCases.

(** A schedule whose end is past the range of dates has an Invalid Date for
    end: the interval check of [areIntervalsOverlapping] throws, whatever
    the composite interval (so it is at [startSchedule] 0 with a duration of
    8640000000001 s). *)
Lemma composeChargingSchedule_invalid_end s I h st d :
  startSchedule s = Some st → duration s = Some d →
  isValid (addSeconds st d) = false →
  composeChargingSchedule s I h = (Throw RangeError, h).
Proof.
  intros Hs Hd V.
  unfold composeChargingSchedule, bind, lift, scheduleInterval. rewrite Hs, Hd.
  unfold areIntervalsOverlapping, validInterval. cbn [start end_].
  rewrite V, andb_false_r. reflexivity.
Qed.

Lemma composeChargingSchedule_past_last_date I h u a :
  composeChargingSchedule
    {| duration := Some 8640000000001; startSchedule := Some 0;
       chargingRateUnit := u; chargingSchedulePeriod := a |} I h
  = (Throw RangeError, h).
Proof. now apply (composeChargingSchedule_invalid_end _ I h 0 8640000000001). Qed.

Lemma withinB_instantWithin h st I p :
  withinB h st I p = instantWithin st I (deref h p).
Proof. reflexivity. Qed.

Lemma keptRec_none (w : ref → bool) l :
  Forall (λ p, w p = false) l → keptRec w l = [].
Proof.
  induction 1 as [|x l Hx F IH]; [reflexivity|].
  simpl. rewrite Hx, IH. destruct F as [|y l' Hy _]; [reflexivity|]. now rewrite Hy.
Qed.

Lemma elem_of_sort_by {A} (key : A → Z) (x : A) l : x ∈ sort_by key l ↔ x ∈ l.
Proof. now rewrite (sort_by_perm key l). Qed.

(** The interval of a projection. *)
Lemma projection_interval s I h r h' ci :
  projection s I h r h' → scheduleInterval s = Ok ci →
  ∃ ri, scheduleInterval r = Ok ri
        ∧ start ri = Z.max (start ci) (start I)
        ∧ start ri <= end_ ri ∧ end_ ri <= end_ ci
        ∧ (start I <= start ci → end_ ri <= end_ I).
Proof.
  intros P Hci.
  assert (Q : ∀ a, 0 <= a → 0 <= Z.quot a 1000 * 1000 <= a).
  { intros a Ha. pose proof (Z.quot_pos a 1000 Ha ltac:(lia)).
    pose proof (Z.mul_quot_le a 1000 Ha ltac:(lia)). lia. }
  destruct P as [ci' Hci' Ho Hb|ci' Hci' Ho Hb Ha|ci' Hci' Ho Hb Ha];
    rewrite Hci in Hci'; injection Hci' as <-;
    unfold areIntervalsOverlapping in Ho;
    destruct (validInterval ci && validInterval I) eqn:V; try discriminate;
    apply andb_true_iff in V as [V1 V2]; unfold validInterval in V1, V2;
    injection Ho as Ho; apply andb_true_iff in Ho as [O1 O2];
    unfold isBefore, isAfter in *.
  - eexists. split; [reflexivity|]. cbn [start end_].
    unfold addSeconds, differenceInSeconds.
    specialize (Q (end_ ci - start I) ltac:(lia)). lia.
  - unfold scheduleInterval in Hci |- *. unfold clippedEnd. cbn [startSchedule duration].
    destruct (startSchedule s) as [st|]; [|discriminate].
    destruct (duration s) as [d|]; [|discriminate]. injection Hci as <-.
    eexists. split; [reflexivity|]. cbn [start end_] in *.
    unfold addSeconds, differenceInSeconds in *.
    specialize (Q (end_ I - st) ltac:(lia)). lia.
  - exists ci. split; [exact Hci|]. lia.
Qed.

(** A schedule that covers the composite interval on both sides. *)
Module Covering.
Definition heap : Heap :=
  {| periods := [ S5Facts.period 0 32 ]; arrays := [ [0] ]%nat |}.
Definition schedule : ChargingSchedule :=
  {| duration := Some 1000; startSchedule := Some 0;
     chargingRateUnit := AMPERE; chargingSchedulePeriod := 0%nat |}.
Definition compositeInterval : Interval := {| start := 100000; end_ := 200000 |}.
Definition projected : ChargingSchedule :=
  {| duration := Some 900; startSchedule := Some 100000;
     chargingRateUnit := AMPERE; chargingSchedulePeriod := 1%nat |}.
Definition heapAfter : Heap :=
  {| periods := [ S5Facts.period 0 32 ]; arrays := [ [0]; [] ]%nat |}.
Lemma heap_wf_covering : heap_wf heap.
Proof.
  apply heap_wf_intro. simpl.
  repeat constructor; simpl; try lia;
    rewrite ?list_elem_of_In; simpl; intuition discriminate.
Qed.
Lemma run_covering :
  composeChargingSchedule schedule compositeInterval heap = (Ok (Some projected), heapAfter).
Proof. vm_compute. reflexivity. Qed.
End Covering.

(** When the start of the schedule is not clipped, no period object is
    written. *)
Lemma projection_periods_kept s I h r h' ci :
  projection s I h r h' → scheduleInterval s = Ok ci →
  isBefore (start ci) (start I) = false → periods h' = periods h.
Proof.
  intros P Hci Hb.
  destruct P as [ci' Hci' Ho Hb'|ci' Hci' Ho Hb' Ha|ci' Hci' Ho Hb' Ha];
    rewrite Hci in Hci'; injection Hci' as <-; [congruence| |]; reflexivity.
Qed.

Lemma fmap_filter_deref h (P : ChargingSchedulePeriod → bool) (l : list nat) :
  deref h <$> filter (λ p, P (deref h p) = true) l
  = filter (λ v, P v = true) (deref h <$> l).
Proof.
  induction l as [|x l IH]; [reflexivity|].
  rewrite fmap_cons, !filter_cons.
  destruct (decide (P (deref h x) = true)); [rewrite fmap_cons|]; now rewrite IH.
Qed.

Lemma periodsOf_projection_not_before s I h r h' ci :
  projection s I h r h' → scheduleInterval s = Ok ci →
  isBefore (start ci) (start I) = false →
  periodsOf h' r
  = if isAfter (end_ ci) (end_ I)
    then filter (λ p, instantWithin (start ci) I p = true) (sortPeriods (periodsOf h s))
    else sortPeriods (periodsOf h s).
Proof.
  intros P Hci Hb.
  destruct P as [ci' Hci' Ho Hb'|ci' Hci' Ho Hb' Ha|ci' Hci' Ho Hb' Ha];
    rewrite Hci in Hci'; injection Hci' as <-; [congruence| |]; rewrite Ha.
  - rewrite periodsOf_clippedEnd. unfold keptClippedEnd. cbv zeta.
    rewrite array_sortedHeap.
    change (deref h <$> filter (λ p, instantWithin (start ci) I (deref h p) = true)
                          (sort_by (startPeriodOf h) (array h (chargingSchedulePeriod s)))
            = filter (λ p, instantWithin (start ci) I p = true)
                (sortPeriods (periodsOf h s))).
    rewrite fmap_filter_deref. f_equal.
    apply (sort_by_fmap startPeriod (deref h)).
  - apply periodsOf_unchanged.
Qed.

(** The periods of a projection whose start is clipped. *)
Lemma periodsOf_projection_before s I h r h' ci :
  heap_wf h →
  projection s I h r h' → scheduleInterval s = Ok ci →
  isBefore (start ci) (start I) = true →
  periodsOf h' r
  = match keptRec (withinB h (start ci) I)
            (sort_by (startPeriodOf h) (array h (chargingSchedulePeriod s))) with
    | [] => []
    | k :: rest => with_startPeriod 0 (deref h k) :: (deref h <$> rest)
    end.
Proof.
  intros W P Hci Hb.
  destruct P as [ci' Hci' Ho Hb'|ci' Hci' Ho Hb' Ha|ci' Hci' Ho Hb' Ha];
    rewrite Hci in Hci'; injection Hci' as <-; [|congruence|congruence].
  rewrite periodsOf_clippedStart by now apply array_wf.
  rewrite keptClippedStart_keptRec, array_sortedHeap. reflexivity.
Qed.

(** ** Two schedules *)

(** The periods [l], each one copied with the [startPeriod] that [v] gives
    it. *)
Definition shifted (v : Z → Z) (l : list ChargingSchedulePeriod)
  : list ChargingSchedulePeriod :=
  (λ p, with_startPeriod (v (startPeriod p)) p) <$> l.

Lemma copies_shifted v h l : copies v h l = shifted v (deref h <$> l).
Proof. unfold copies, shifted. rewrite <- list_fmap_compose. reflexivity. Qed.

Lemma projection_unit s I h r h' :
  projection s I h r h' → chargingRateUnit r = chargingRateUnit s.
Proof. now destruct 1. Qed.

(** What a call on two schedules that returns a schedule went through. *)
Lemma composeChargingSchedules_both_inv higher lower I h r h' :
  composeChargingSchedules (Some higher) (Some lower) I h = (Ok (Some r), h') →
  ∃ ph pl h1 h2 ih il overlapping,
    composeChargingSchedule higher I h = (Ok (Some ph), h1)
    ∧ composeChargingSchedule lower I h1 = (Ok (Some pl), h2)
    ∧ scheduleInterval ph = Ok ih
    ∧ scheduleInterval pl = Ok il
    ∧ areIntervalsOverlapping ih il = Ok overlapping
    ∧ startSchedule r
      = Some (if isBefore (start ih) (start il) then start ih else start il)
    ∧ duration r
      = Some (if isBefore (start ih) (start il)
              then differenceInSeconds (end_ il) (start ih)
              else differenceInSeconds (end_ ih) (start il))
    ∧ chargingRateUnit r = chargingRateUnit ph.
Proof.
  unfold composeChargingSchedules. intros E.
  apply bind_inv in E as (oh & h1 & Hh & E).
  apply bind_inv in E as (ol & h2 & Hl & E).
  apply bind_inv in E as (ph & h3 & Dh & E).
  destruct oh as [ph'|]; [|discriminate]. injection Dh as -> <-.
  apply bind_inv in E as (pl & h4 & Dl & E).
  destruct ol as [pl'|]; [|discriminate]. injection Dl as -> <-.
  apply bind_inv in E as (ih & h5 & Hih & E).
  unfold lift in Hih. injection Hih as Hih <-.
  apply bind_inv in E as (il & h6 & Hil & E).
  unfold lift in Hil. injection Hil as Hil <-.
  cbv zeta in E.
  apply bind_inv in E as (o & h7 & Ho & E).
  unfold lift in Ho. injection Ho as Ho <-.
  exists ph, pl, h1, h2, ih, il, o.
  repeat (split; [assumption|]).
  destruct (negb o).
  - apply bind_inv in E as (he & h8 & _ & E).
    apply bind_inv in E as (hp & h9 & _ & E).
    apply bind_inv in E as (le & h10 & _ & E).
    apply bind_inv in E as (lp & h11 & _ & E).
    apply bind_inv in E as (arr & h12 & _ & E).
    apply bind_inv in E as (u & h13 & _ & E).
    injection E as <- _. auto.
  - apply bind_inv in E as (he & h8 & _ & E).
    apply bind_inv in E as (hp & h9 & _ & E).
    apply bind_inv in E as (le & h10 & _ & E).
    apply bind_inv in E as (kp & h11 & _ & E).
    apply bind_inv in E as (lp & h12 & _ & E).
    apply bind_inv in E as (arr & h13 & _ & E).
    apply bind_inv in E as (u & h14 & _ & E).
    injection E as <- _. auto.
Qed.

(** *** Projections that do not overlap *)

Definition disjointHeap (h : Heap) (ph pl : ChargingSchedule) (ih il : Interval) : Heap :=
  let higherFirst := isBefore (start ih) (start il) in
  let hA := pushPeriods (higherCopies h ph ih il) h in
  let lowerElements := array h (chargingSchedulePeriod pl) in
  let hC := pushPeriods (copies (shiftOfLower higherFirst ih il) hA lowerElements) hA in
  let fresh := seq (length (periods h)) (length (array h (chargingSchedulePeriod ph)))
               ++ seq (length (periods hA)) (length lowerElements) in
  sortedHeap (pushArray fresh hC) (length (arrays h)).

Section Disjoint.

Variables (higher lower ph pl : ChargingSchedule) (I ih il : Interval) (h0 h1 h2 : Heap).
Hypothesis W : heap_wf h2.
Hypothesis Hh : composeChargingSchedule higher I h0 = (Ok (Some ph), h1).
Hypothesis Hl : composeChargingSchedule lower I h1 = (Ok (Some pl), h2).
Hypothesis Hih : scheduleInterval ph = Ok ih.
Hypothesis Hil : scheduleInterval pl = Ok il.
Hypothesis Ho : areIntervalsOverlapping ih il = Ok false.

Let hf := isBefore (start ih) (start il).
Let hA := pushPeriods (higherCopies h2 ph ih il) h2.
Let lowerElements := array h2 (chargingSchedulePeriod pl).
Let hC := pushPeriods (copies (shiftOfLower hf ih il) hA lowerElements) hA.

Lemma composeChargingSchedules_disjoint :
  composeChargingSchedules (Some higher) (Some lower) I h0
  = (Ok (Some (combinedSchedule h2 ph ih il)), disjointHeap h2 ph pl ih il).
Proof.
  destruct (array_wf h2 (chargingSchedulePeriod ph) W) as [_ FH].
  destruct (array_wf h2 (chargingSchedulePeriod pl) W) as [_ FL].
  unfold composeChargingSchedules.
  rewrite (bind_ok _ _ _ _ _ Hh), (bind_ok _ _ _ _ _ Hl).
  rewrite (bind_ok (defined (Some ph)) _ h2 ph h2 eq_refl).
  rewrite (bind_ok (defined (Some pl)) _ h2 pl h2 eq_refl).
  rewrite (bind_ok (lift (scheduleInterval ph)) _ h2 ih h2)
    by (unfold lift; now rewrite Hih).
  rewrite (bind_ok (lift (scheduleInterval pl)) _ h2 il h2)
    by (unfold lift; now rewrite Hil).
  cbv zeta. fold hf.
  rewrite (bind_ok (lift (areIntervalsOverlapping ih il)) _ h2 false h2)
    by (unfold lift; now rewrite Ho).
  cbn [negb].
  rewrite (bind_ok (getArray (chargingSchedulePeriod ph)) _ h2 _ h2 eq_refl).
  rewrite (bind_ok _ _ _ _ _
             (map_copy_run (shiftOfHigher hf ih il) _ 0%nat h2 FH
              : Array_map (shiftHigher hf ih il) (array h2 (chargingSchedulePeriod ph)) h2 = _)).
  fold (higherCopies h2 ph ih il). fold hA.
  rewrite (bind_ok (getArray (chargingSchedulePeriod pl)) _ hA _ hA eq_refl).
  change (array hA (chargingSchedulePeriod pl)) with lowerElements.
  assert (FA : Forall (λ p, (p < length (periods hA))%nat) lowerElements).
  { eapply Forall_impl; [exact FL|]. intros p Hp.
    unfold hA, pushPeriods. cbn [periods]. rewrite length_app. simpl in *. lia. }
  rewrite (bind_ok _ _ _ _ _
             (map_copy_run (shiftOfLower hf ih il) lowerElements 0%nat hA FA
              : Array_map (shiftLower hf ih il) lowerElements hA = _)).
  reflexivity.
Qed.

Lemma periodsOf_disjoint :
  periodsOf (disjointHeap h2 ph pl ih il) (combinedSchedule h2 ph ih il)
  = sortPeriods (shifted (shiftOfHigher hf ih il) (periodsOf h2 ph)
                 ++ shifted (shiftOfLower hf ih il) (periodsOf h2 pl)).
Proof.
  destruct (array_wf h2 (chargingSchedulePeriod pl) W) as [_ FL].
  unfold periodsOf at 1. unfold disjointHeap, combinedSchedule.
  cbn [chargingSchedulePeriod]. fold hf hA lowerElements hC.
  rewrite array_sortedHeap.
  change (length (arrays h2)) with (length (arrays hC)) at 2.
  rewrite array_pushArray_new.
  set (fresh := seq _ _ ++ seq _ _).
  change (deref hC <$> sort_by (λ p, startPeriod (deref hC p)) fresh
          = sortPeriods (shifted (shiftOfHigher hf ih il) (periodsOf h2 ph)
                         ++ shifted (shiftOfLower hf ih il) (periodsOf h2 pl))).
  rewrite (sort_by_fmap startPeriod (deref hC)). unfold sortPeriods. f_equal.
  unfold fresh. rewrite fmap_app. f_equal.
  - assert (Hlen : length (higherCopies h2 ph ih il)
                   = length (array h2 (chargingSchedulePeriod ph)))
      by (unfold higherCopies, copies; apply length_fmap).
    rewrite <- Hlen.
    transitivity (deref hA <$> seq (length (periods h2)) (length (higherCopies h2 ph ih il))).
    + apply list_fmap_ext. intros i j Hj.
      apply lookup_seq in Hj as [-> Hi].
      unfold hC. apply deref_pushPeriods_old.
      unfold hA, pushPeriods. cbn [periods]. rewrite length_app. lia.
    + unfold hA. rewrite fmap_deref_new. unfold higherCopies.
      apply copies_shifted.
  - transitivity (copies (shiftOfLower hf ih il) hA lowerElements).
    + replace (length lowerElements)
        with (length (copies (shiftOfLower hf ih il) hA lowerElements))
        by (unfold copies; apply length_fmap).
      apply fmap_deref_new.
    + rewrite copies_shifted. unfold periodsOf. fold lowerElements. f_equal.
      apply list_fmap_ext. intros i p Hp. unfold hA. apply deref_pushPeriods_old.
      rewrite Forall_forall in FL. apply FL.
      eapply list_elem_of_lookup_2; eassumption.
Qed.

End Disjoint.

(** *** Projections that overlap, the lower one starting first *)

Lemma survivors_lower_first h pl ih il :
  isBefore (start ih) (start il) = false →
  deref h <$> survivors h pl ih il
  = filter (λ p, instantWithin (start il) {| start := start ih; end_ := end_ il |} p = false)
      (periodsOf h pl).
Proof.
  intros Hf. unfold survivors, keepLowerB. rewrite Hf.
  rewrite (filter_idx_const
             (λ p, negb (withinB h (start il) {| start := start ih; end_ := end_ il |} p))).
  unfold periodsOf.
  change (deref h <$> filter (λ p, (λ v, negb (instantWithin (start il)
                                       {| start := start ih; end_ := end_ il |} v))
                                     (deref h p) = true)
                        (array h (chargingSchedulePeriod pl))
          = filter (λ p, instantWithin (start il)
                           {| start := start ih; end_ := end_ il |} p = false)
              (deref h <$> array h (chargingSchedulePeriod pl))).
  rewrite fmap_filter_deref. apply list_filter_iff. intros v.
  now rewrite negb_true_iff.
Qed.

Lemma lowerCopies_lower_first h pl ih il :
  isBefore (start ih) (start il) = false →
  lowerCopies h pl ih il = with_startPeriod 0 <$> (deref h <$> survivors h pl ih il).
Proof.
  intros Hf. unfold lowerCopies. rewrite Hf.
  destruct (survivors h pl ih il) as [|k rest]; [reflexivity|].
  rewrite !fmap_cons. f_equal. unfold copies. rewrite <- list_fmap_compose. reflexivity.
Qed.

(** *** Scenarios with two schedules *)

(** The higher schedule runs over [[0 s, 100 s]], the lower one over
    [[200 s, 300 s]]. *)
Module Apart.
Definition heap : Heap :=
  {| periods := [ S5Facts.period 0 10; S5Facts.period 50 6; S5Facts.period 0 32 ];
     arrays := [ [0; 1]; [2] ]%nat |}.
Definition higher : ChargingSchedule :=
  {| duration := Some 100; startSchedule := Some 0;
     chargingRateUnit := AMPERE; chargingSchedulePeriod := 0%nat |}.
Definition lower : ChargingSchedule :=
  {| duration := Some 100; startSchedule := Some 200000;
     chargingRateUnit := WATT; chargingSchedulePeriod := 1%nat |}.
Definition compositeInterval : Interval := {| start := 0; end_ := 600000 |}.
Definition higherInterval : Interval := {| start := 0; end_ := 100000 |}.
Definition lowerInterval : Interval := {| start := 200000; end_ := 300000 |}.
Lemma heap_wf_apart : heap_wf heap.
Proof.
  apply heap_wf_intro. simpl.
  repeat constructor; simpl; try lia;
    rewrite ?list_elem_of_In; simpl; intuition discriminate.
Qed.
Lemma project_higher_apart :
  composeChargingSchedule higher compositeInterval heap = (Ok (Some higher), heap).
Proof. vm_compute. reflexivity. Qed.
Lemma project_lower_apart :
  composeChargingSchedule lower compositeInterval heap = (Ok (Some lower), heap).
Proof. vm_compute. reflexivity. Qed.
End Apart.

(** The lower schedule runs over [[0 s, 300 s]], the higher one over
    [[100 s, 400 s]]. *)
Module LowerFirst.
Definition heap : Heap :=
  {| periods := [ S5Facts.period 0 10; S5Facts.period 100 6;
                  S5Facts.period 0 32; S5Facts.period 50 20; S5Facts.period 150 16 ];
     arrays := [ [0; 1]; [2; 3; 4] ]%nat |}.
Definition higher : ChargingSchedule :=
  {| duration := Some 300; startSchedule := Some 100000;
     chargingRateUnit := AMPERE; chargingSchedulePeriod := 0%nat |}.
Definition lower : ChargingSchedule :=
  {| duration := Some 300; startSchedule := Some 0;
     chargingRateUnit := AMPERE; chargingSchedulePeriod := 1%nat |}.
Definition compositeInterval : Interval := {| start := 0; end_ := 600000 |}.
Definition higherInterval : Interval := {| start := 100000; end_ := 400000 |}.
Definition lowerInterval : Interval := {| start := 0; end_ := 300000 |}.
Lemma heap_wf_lower_first : heap_wf heap.
Proof.
  apply heap_wf_intro. simpl.
  repeat constructor; simpl; try lia;
    rewrite ?list_elem_of_In; simpl; intuition discriminate.
Qed.
Lemma project_higher_lower_first :
  composeChargingSchedule higher compositeInterval heap = (Ok (Some higher), heap).
Proof. vm_compute. reflexivity. Qed.
Lemma project_lower_lower_first :
  composeChargingSchedule lower compositeInterval heap = (Ok (Some lower), heap).
Proof. vm_compute. reflexivity. Qed.
End LowerFirst.

(** ** Where the limits of a composed schedule come from *)

Section Provenance.

Lemma sameLimit_refl p : sameLimit p p.
Proof. split; reflexivity. Qed.

Lemma sameLimit_trans p q r : sameLimit p q → sameLimit q r → sameLimit p r.
Proof. unfold sameLimit. intros [] []. split; congruence. Qed.

Lemma sameLimit_with_startPeriod v p : sameLimit (with_startPeriod v p) p.
Proof. split; reflexivity. Qed.

Lemma sameLimit_resetHead l h p : sameLimit (deref (resetHead l h) p) (deref h p).
Proof.
  destruct l as [|k rest]; [apply sameLimit_refl|].
  destruct (decide (p = k)) as [->|N].
  - rewrite deref_resetHead_head. apply sameLimit_with_startPeriod.
  - rewrite deref_resetHead_other by assumption. apply sameLimit_refl.
Qed.

(** A projection may reset a [startPeriod]; it keeps every limit. *)
Lemma projection_limits s I h r h' p :
  projection s I h r h' → sameLimit (deref h' p) (deref h p).
Proof.
  destruct 1.
  - exact (sameLimit_resetHead _ (sortedHeap h (chargingSchedulePeriod s)) p).
  - apply sameLimit_refl.
  - apply sameLimit_refl.
Qed.

Lemma filter_idx_sublist {A} (g : A → nat → bool) l : ∀ n, filter_idx g n l `sublist_of` l.
Proof.
  induction l as [|x l IH]; intros n; simpl; [constructor|].
  destruct (g x n); constructor; apply IH.
Qed.

(** The periods of a projection are periods of the schedule. *)
Lemma projection_elements s I h r h' p :
  projection s I h r h' →
  p ∈ array h' (chargingSchedulePeriod r) → p ∈ array h (chargingSchedulePeriod s).
Proof.
  destruct 1 as [ci Hci Ho Hb|ci Hci Ho Hb Ha|ci Hci Ho Hb Ha].
  - unfold clippedStart. cbn [chargingSchedulePeriod].
    rewrite <- (length_arrays_sortedHeap h (chargingSchedulePeriod s)).
    rewrite <- (length_arrays_resetHead (keptClippedStart h s ci I)
                  (sortedHeap h (chargingSchedulePeriod s))).
    rewrite array_pushArray_new. intros Hp.
    apply (elem_of_sort_by (startPeriodOf h)). rewrite <- array_sortedHeap.
    eapply elem_of_sublist; [exact Hp|]. apply filter_idx_sublist.
  - unfold clippedEnd. cbn [chargingSchedulePeriod].
    rewrite <- (length_arrays_sortedHeap h (chargingSchedulePeriod s)).
    rewrite array_pushArray_new. intros Hp.
    apply (elem_of_sort_by (startPeriodOf h)). rewrite <- array_sortedHeap.
    eapply elem_of_sublist; [exact Hp|]. apply sublist_filter.
  - rewrite array_sortedHeap. apply elem_of_sort_by.
Qed.

Lemma array_resetHead l h a : array (resetHead l h) a = array h a.
Proof. unfold array. now rewrite arrays_resetHead. Qed.

(** The arrays that exist before a projection keep their elements. *)
Lemma projection_other_arrays s I h r h' b p :
  projection s I h r h' → (b < length (arrays h))%nat →
  p ∈ array h' b → p ∈ array h b.
Proof.
  assert (S : ∀ a, p ∈ array (sortedHeap h a) b → p ∈ array h b).
  { intros a. destruct (decide (a = b)) as [->|N].
    - rewrite array_sortedHeap. apply elem_of_sort_by.
    - now rewrite array_sortedHeap_ne. }
  destruct 1 as [ci Hci Ho Hb|ci Hci Ho Hb Ha|ci Hci Ho Hb Ha]; intros Lb.
  - rewrite array_pushArray_old
      by now rewrite length_arrays_resetHead, length_arrays_sortedHeap.
    rewrite array_resetHead. apply S.
  - rewrite array_pushArray_old by now rewrite length_arrays_sortedHeap. apply S.
  - apply S.
Qed.

Lemma projection_ref_valid s I h r h' :
  projection s I h r h' →
  (chargingSchedulePeriod s < length (arrays h))%nat →
  (chargingSchedulePeriod r < length (arrays h'))%nat.
Proof.
  destruct 1; intros L; unfold pushArray, clippedStart, clippedEnd;
    cbn [chargingSchedulePeriod arrays];
    rewrite ?length_app, ?length_arrays_resetHead, ?length_arrays_sortedHeap;
    simpl; lia.
Qed.

Lemma projection_arrays_grow s I h r h' :
  projection s I h r h' → (length (arrays h) <= length (arrays h'))%nat.
Proof.
  destruct 1; unfold pushArray; cbn [arrays];
    rewrite ?length_app, ?length_arrays_resetHead, ?length_arrays_sortedHeap;
    simpl; lia.
Qed.

Lemma elem_of_copies v h l p :
  p ∈ copies v h l → ∃ k, k ∈ l ∧ sameLimit p (deref h k).
Proof.
  unfold copies. intros Hp. apply list_elem_of_fmap in Hp as (k & -> & Hk).
  exists k. split; [exact Hk|]. apply sameLimit_with_startPeriod.
Qed.

Lemma elem_of_lowerCopies h pl ih il p :
  p ∈ lowerCopies h pl ih il →
  ∃ k, k ∈ array h (chargingSchedulePeriod pl) ∧ sameLimit p (deref h k).
Proof.
  unfold lowerCopies. intros Hp.
  pose proof (filter_idx_sublist
                (keepLowerB h (chargingSchedulePeriod pl) (isBefore (start ih) (start il))
                   ih il) (array h (chargingSchedulePeriod pl)) 0) as Sub.
  fold (survivors h pl ih il) in Sub.
  destruct (survivors h pl ih il) as [|k rest]; [inversion Hp|].
  apply elem_of_cons in Hp as [->|Hp].
  - exists k. split; [|apply sameLimit_with_startPeriod].
    eapply elem_of_sublist; [|exact Sub]. left.
  - apply elem_of_copies in Hp as (k' & Hk' & SL). exists k'. split; [|exact SL].
    eapply elem_of_sublist; [|exact Sub]. now right.
Qed.

End Provenance.

Definition fromPeriodOf (h : Heap) (s : ChargingSchedule) (p : ChargingSchedulePeriod) : Prop :=
  ∃ q, q ∈ periodsOf h s ∧ sameLimit p q.

Lemma fromPeriodOf_ref h s k p :
  k ∈ array h (chargingSchedulePeriod s) → sameLimit p (deref h k) → fromPeriodOf h s p.
Proof.
  intros Hk SL. exists (deref h k). split; [|exact SL].
  unfold periodsOf. apply list_elem_of_fmap. now exists k.
Qed.

Lemma projection_provenance s I h r h' :
  projection s I h r h' → Forall (fromPeriodOf h s) (periodsOf h' r).
Proof.
  intros P. unfold periodsOf at 1. apply Forall_fmap, Forall_forall. intros k Hk.
  apply (fromPeriodOf_ref h s k).
  - exact (projection_elements s I h r h' k P Hk).
  - exact (projection_limits s I h r h' k P).
Qed.

Section ProvenanceOfTwo.

Variables (higher lower ph pl : ChargingSchedule) (I : Interval) (h0 h1 h2 : Heap).
Hypothesis Ph : projection higher I h0 ph h1.
Hypothesis Pl : projection lower I h1 pl h2.
Hypothesis Lh : (chargingSchedulePeriod higher < length (arrays h0))%nat.
Hypothesis Ll : (chargingSchedulePeriod lower < length (arrays h0))%nat.

Lemma higher_ref_provenance k p :
  k ∈ array h2 (chargingSchedulePeriod ph) → sameLimit p (deref h2 k) →
  fromPeriodOf h0 higher p.
Proof.
  intros Hk SL. apply (fromPeriodOf_ref h0 higher k).
  - apply (projection_elements higher I h0 ph h1 k Ph).
    apply (projection_other_arrays lower I h1 pl h2 _ k Pl); [|exact Hk].
    exact (projection_ref_valid higher I h0 ph h1 Ph Lh).
  - eapply sameLimit_trans; [exact SL|].
    eapply sameLimit_trans; [exact (projection_limits lower I h1 pl h2 k Pl)|].
    exact (projection_limits higher I h0 ph h1 k Ph).
Qed.

Lemma lower_ref_provenance k p :
  k ∈ array h2 (chargingSchedulePeriod pl) → sameLimit p (deref h2 k) →
  fromPeriodOf h0 lower p.
Proof.
  intros Hk SL. apply (fromPeriodOf_ref h0 lower k).
  - apply (projection_other_arrays higher I h0 ph h1 _ k Ph Ll).
    exact (projection_elements lower I h1 pl h2 k Pl Hk).
  - eapply sameLimit_trans; [exact SL|].
    eapply sameLimit_trans; [exact (projection_limits lower I h1 pl h2 k Pl)|].
    exact (projection_limits higher I h0 ph h1 k Ph).
Qed.

Lemma elem_of_shifted_periodsOf v h s p :
  p ∈ shifted v (periodsOf h s) →
  ∃ k, k ∈ array h (chargingSchedulePeriod s) ∧ sameLimit p (deref h k).
Proof.
  unfold periodsOf. rewrite <- copies_shifted. apply elem_of_copies.
Qed.

Lemma combined_provenance ih il l :
  l = higherCopies h2 ph ih il ++ lowerCopies h2 pl ih il
  ∨ l = shifted (shiftOfHigher (isBefore (start ih) (start il)) ih il) (periodsOf h2 ph)
        ++ shifted (shiftOfLower (isBefore (start ih) (start il)) ih il) (periodsOf h2 pl) →
  Forall (λ p, fromPeriodOf h0 higher p ∨ fromPeriodOf h0 lower p) (sortPeriods l).
Proof.
  intros Hl. apply Forall_forall. intros p Hp.
  unfold sortPeriods in Hp. apply (proj1 (elem_of_sort_by startPeriod p l)) in Hp.
  destruct Hl as [-> | ->]; apply elem_of_app in Hp as [Hp|Hp].
  - left. apply elem_of_copies in Hp as (k & Hk & SL).
    exact (higher_ref_provenance k p Hk SL).
  - right. apply elem_of_lowerCopies in Hp as (k & Hk & SL).
    exact (lower_ref_provenance k p Hk SL).
  - left. apply elem_of_shifted_periodsOf in Hp as (k & Hk & SL).
    exact (higher_ref_provenance k p Hk SL).
  - right. apply elem_of_shifted_periodsOf in Hp as (k & Hk & SL).
    exact (lower_ref_provenance k p Hk SL).
Qed.

End ProvenanceOfTwo.

(** ** What a projection leaves of the heap it was given *)

Lemma projection_array_kept s I h r h' b :
  projection s I h r h' → (b < length (arrays h))%nat → b ≠ chargingSchedulePeriod s →
  array h' b = array h b.
Proof.
  destruct 1 as [ci Hci Ho Hb|ci Hci Ho Hb Ha|ci Hci Ho Hb Ha]; intros Lb N.
  - rewrite array_pushArray_old
      by now rewrite length_arrays_resetHead, length_arrays_sortedHeap.
    rewrite array_resetHead. apply array_sortedHeap_ne. congruence.
  - rewrite array_pushArray_old by now rewrite length_arrays_sortedHeap.
    apply array_sortedHeap_ne. congruence.
  - apply array_sortedHeap_ne. congruence.
Qed.

Lemma projection_array_sorted s I h r h' :
  projection s I h r h' → (chargingSchedulePeriod s < length (arrays h))%nat →
  array h' (chargingSchedulePeriod s)
  = sort_by (startPeriodOf h) (array h (chargingSchedulePeriod s)).
Proof.
  destruct 1 as [ci Hci Ho Hb|ci Hci Ho Hb Ha|ci Hci Ho Hb Ha]; intros L.
  - rewrite array_pushArray_old
      by now rewrite length_arrays_resetHead, length_arrays_sortedHeap.
    rewrite array_resetHead. apply array_sortedHeap.
  - rewrite array_pushArray_old by now rewrite length_arrays_sortedHeap.
    apply array_sortedHeap.
  - apply array_sortedHeap.
Qed.

Lemma deref_resetHead_changed l h p :
  deref (resetHead l h) p ≠ deref h p →
  l !! 0%nat = Some p ∧ deref (resetHead l h) p = with_startPeriod 0 (deref h p).
Proof.
  destruct l as [|k rest]; [intros N; exfalso; apply N; reflexivity|].
  destruct (decide (p = k)) as [->|N].
  - intros _. split; [reflexivity|apply deref_resetHead_head].
  - rewrite deref_resetHead_other by assumption. intros M. exfalso. now apply M.
Qed.

Lemma projection_period_changed s I h r h' p :
  projection s I h r h' → deref h' p ≠ deref h p →
  array h' (chargingSchedulePeriod r) !! 0%nat = Some p
  ∧ deref h' p = with_startPeriod 0 (deref h p).
Proof.
  destruct 1 as [ci Hci Ho Hb|ci Hci Ho Hb Ha|ci Hci Ho Hb Ha]; intros N;
    [|exfalso; apply N; reflexivity|exfalso; apply N; reflexivity].
  change (deref (resetHead (keptClippedStart h s ci I)
                   (sortedHeap h (chargingSchedulePeriod s))) p
          ≠ deref (sortedHeap h (chargingSchedulePeriod s)) p) in N.
  apply deref_resetHead_changed in N as [N1 N2].
  split; [|exact N2].
  unfold clippedStart. cbn [chargingSchedulePeriod].
  rewrite <- (length_arrays_sortedHeap h (chargingSchedulePeriod s)).
  rewrite <- (length_arrays_resetHead (keptClippedStart h s ci I)
                (sortedHeap h (chargingSchedulePeriod s))).
  now rewrite array_pushArray_new.
Qed.

(** * More on the charging profiles *)

(** ** What [forEach] with [splice] visits

    After a removal the elements that follow move one index down while the
    loop goes one index up: the element that follows a removed one is not
    visited.  [clearedSkipping test l] is what is left of [l]. *)
Fixpoint clearedSkipping {A} (test : A → bool) (l : list A) : list A :=
  match l with
  | [] => []
  | x :: rest =>
      if test x
      then match rest with
           | [] => []
           | y :: rest' => y :: clearedSkipping test rest'
           end
      else x :: clearedSkipping test rest
  end.

(** No two profiles that both satisfy [test] are next to each other. *)
Fixpoint noAdjacent {A} (test : A → bool) (l : list A) : bool :=
  match l with
  | [] => true
  | x :: rest =>
      negb (test x && match rest with y :: _ => test y | [] => false end)
      && noAdjacent test rest
  end.

Section ForEachSplice.

Context {A : Type} (test : A → bool).

Let callback (x : A) (index : nat) (state : list A * bool) : list A * bool :=
  if test x then (delete index (fst state), true) else state.

Lemma forEach_past_end count : ∀ index (arr : list A) (acc : bool),
  (length arr <= index)%nat →
  forEach_from callback count index (arr, acc) = (arr, acc).
Proof.
  induction count as [|count IH]; intros index arr acc L; [reflexivity|].
  cbn [forEach_from fst]. rewrite lookup_ge_None_2 by lia. apply IH. lia.
Qed.

Lemma forEach_splice count : ∀ (todo seen : list A) (acc : bool),
  (length todo <= count)%nat →
  forEach_from callback count (length seen) (seen ++ todo, acc)
  = (seen ++ clearedSkipping test todo, acc || existsb test todo).
Proof.
  induction count as [|count IH]; intros todo seen acc L.
  - destruct todo; [|simpl in L; lia]. simpl. now rewrite orb_false_r.
  - destruct todo as [|x rest].
    + rewrite forEach_past_end by (rewrite length_app; simpl; lia).
      simpl. now rewrite orb_false_r.
    + cbn [forEach_from fst]. rewrite lookup_app_r by lia.
      rewrite Nat.sub_diag. cbn [lookup list_lookup length] in *.
      unfold callback at 2. cbn [clearedSkipping existsb]. destruct (test x) eqn:T.
      * cbn [fst]. rewrite delete_middle. rewrite orb_true_r.
        destruct rest as [|y rest'].
        -- rewrite forEach_past_end by (rewrite length_app; simpl; lia). reflexivity.
        -- replace (seen ++ y :: rest') with ((seen ++ [y]) ++ rest')
             by now rewrite <- app_assoc.
           replace (S (length seen)) with (length (seen ++ [y]))
             by (rewrite length_app; simpl; lia).
           rewrite IH by (simpl in L; lia). now rewrite <- app_assoc.
      * replace (seen ++ x :: rest) with ((seen ++ [x]) ++ rest)
          by now rewrite <- app_assoc.
        replace (S (length seen)) with (length (seen ++ [x]))
          by (rewrite length_app; simpl; lia).
        rewrite IH by lia. now rewrite <- app_assoc.
Qed.

Lemma clearedSkipping_sublist l : clearedSkipping test l `sublist_of` l.
Proof.
  induction l as [l IH] using (induction_ltof1 _ (@length A)).
  destruct l as [|x rest]; [constructor|].
  cbn [clearedSkipping]. destruct (test x).
  - destruct rest as [|y rest']; [apply sublist_nil_l|].
    apply sublist_cons, sublist_skip. apply IH. unfold ltof. simpl. lia.
  - apply sublist_skip. apply IH. unfold ltof. simpl. lia.
Qed.

Lemma clearedSkipping_keeps l :
  filter (λ x, test x = false) l `sublist_of` clearedSkipping test l.
Proof.
  induction l as [l IH] using (induction_ltof1 _ (@length A)).
  destruct l as [|x rest]; [constructor|].
  cbn [clearedSkipping]. rewrite filter_cons. destruct (test x) eqn:T.
  - rewrite decide_False by discriminate.
    destruct rest as [|y rest']; [constructor|].
    rewrite filter_cons. destruct (decide (test y = false)).
    + apply sublist_skip. apply IH. unfold ltof. simpl. lia.
    + apply sublist_cons. apply IH. unfold ltof. simpl. lia.
  - rewrite decide_True by reflexivity. apply sublist_skip. apply IH.
    unfold ltof. simpl. lia.
Qed.

Lemma clearedSkipping_noAdjacent l :
  noAdjacent test l = true → clearedSkipping test l = filter (λ x, test x = false) l.
Proof.
  induction l as [l IH] using (induction_ltof1 _ (@length A)).
  destruct l as [|x rest]; [reflexivity|].
  cbn [clearedSkipping noAdjacent]. rewrite filter_cons. intros N.
  apply andb_true_iff in N as [N1 N2]. destruct (test x) eqn:T.
  - rewrite decide_False by discriminate.
    destruct rest as [|y rest']; [reflexivity|].
    cbn [andb] in N1. apply negb_true_iff in N1.
    rewrite filter_cons, decide_True by assumption. f_equal.
    apply IH; [unfold ltof; simpl; lia|].
    cbn [noAdjacent] in N2. now apply andb_true_iff in N2 as [_ N2].
  - rewrite decide_True by reflexivity. f_equal. apply IH; [unfold ltof; simpl; lia|exact N2].
Qed.

Lemma clearedSkipping_last l x :
  existsb test l = false → test x = true → clearedSkipping test (l ++ [x]) = l.
Proof.
  intros E T. induction l as [|y l IH]; simpl; [now rewrite T|].
  cbn [existsb] in E. apply orb_false_iff in E as [Ty El].
  rewrite Ty. f_equal. now apply IH.
Qed.

End ForEachSplice.

Lemma clearChargingProfiles_run commandPayload l :
  clearChargingProfiles commandPayload (Some l)
  = (existsb (clearCurrentCP commandPayload) l,
     Some (clearedSkipping (clearCurrentCP commandPayload) l)).
Proof.
  destruct l as [|p ps]; [reflexivity|].
  assert (H : Array_forEach (clearCallback commandPayload) (p :: ps) false
              = (clearedSkipping (clearCurrentCP commandPayload) (p :: ps),
                 existsb (clearCurrentCP commandPayload) (p :: ps)))
    by exact (forEach_splice (clearCurrentCP commandPayload) (length (p :: ps)) (p :: ps) []
                false (le_n _)).
  unfold clearChargingProfiles. now rewrite H.
Qed.

(** ** The list that [setChargingProfile] leaves *)

Lemma sameProfileSlot_refl cp : sameProfileSlot cp cp = true.
Proof. unfold sameProfileSlot. now rewrite Z.eqb_refl. Qed.

(** The test of the [forEach] callback, read field by field. *)
Lemma purpose_eqb_eq a b : purpose_eqb a b = true ↔ a = b.
Proof. destruct a, b; simpl; split; intros E; congruence. Qed.

Lemma sameProfileSlot_fields cp p :
  sameProfileSlot cp p = true
  ↔ chargingProfileId p = chargingProfileId cp
    ∨ (stackLevel p = stackLevel cp
       ∧ chargingProfilePurpose p = chargingProfilePurpose cp).
Proof.
  unfold sameProfileSlot.
  rewrite orb_true_iff, andb_true_iff, !Z.eqb_eq, purpose_eqb_eq. reflexivity.
Qed.

Section Installed.

Variables (cp : ChargingProfile) (l : list ChargingProfile).

Lemma installed_replaced :
  existsb (sameProfileSlot cp) l = true →
  length (installed cp l) = length l
  ∧ ∀ i p, l !! i = Some p →
      installed cp l !! i = Some (if sameProfileSlot cp p then cp else p).
Proof.
  intros X. unfold installed. rewrite X. split; [apply length_fmap|].
  intros i p Hp. rewrite list_lookup_fmap, Hp. reflexivity.
Qed.

Lemma installed_appended :
  existsb (sameProfileSlot cp) l = false → installed cp l = l ++ [cp].
Proof. intros X. unfold installed. now rewrite X. Qed.

Lemma installed_elem : cp ∈ installed cp l.
Proof.
  unfold installed. destruct (existsb (sameProfileSlot cp) l) eqn:X.
  - apply existsb_exists in X as (p & Hp & Sp).
    apply list_elem_of_fmap. exists p. rewrite Sp. split; [reflexivity|].
    now apply list_elem_of_In.
  - apply elem_of_app. right. left.
Qed.

Lemma installed_slot p : p ∈ installed cp l → sameProfileSlot cp p = true → p = cp.
Proof.
  unfold installed. destruct (existsb (sameProfileSlot cp) l) eqn:X.
  - intros Hp Sp. apply list_elem_of_fmap in Hp as (q & -> & Hq).
    destruct (sameProfileSlot cp q) eqn:Sq; [reflexivity|congruence].
  - intros Hp Sp. apply elem_of_app in Hp as [Hp|Hp].
    + assert (sameProfileSlot cp p = false); [|congruence].
      rewrite <- not_true_iff_false in X. apply not_true_is_false. intros T. apply X.
      apply existsb_exists. exists p. split; [now apply list_elem_of_In|exact T].
    + now apply list_elem_of_singleton in Hp.
Qed.



Lemma installed_twice : installed cp (installed cp l) = installed cp l.
Proof.
  assert (X : existsb (sameProfileSlot cp) (installed cp l) = true).
  { apply existsb_exists. exists cp. split; [apply list_elem_of_In, installed_elem|].
    apply sameProfileSlot_refl. }
  unfold installed at 1. rewrite X.
  transitivity (id <$> installed cp l); [|apply list_fmap_id].
  apply list_fmap_ext. intros i p Hp.
  destruct (sameProfileSlot cp p) eqn:Sp; [|reflexivity].
  symmetry. apply installed_slot; [|exact Sp].
  eapply list_elem_of_lookup_2; eassumption.
Qed.

End Installed.

Lemma setConnectorStatus_twice chargingStation connectorId c c' :
  setConnectorStatus (setConnectorStatus chargingStation connectorId c) connectorId c'
  = setConnectorStatus chargingStation connectorId c'.
Proof. unfold setConnectorStatus. simpl. f_equal. apply insert_insert_eq. Qed.

(** *** Scenario: a default profile between two transaction profiles *)
Module Interleaved.
Definition profiles : list ChargingProfile :=
  [ Profiles.profile 1 1 TX_PROFILE; Profiles.profile 2 1 TX_DEFAULT_PROFILE;
    Profiles.profile 3 2 TX_PROFILE ].
(** [{ id: 5 }] *)
Definition clearId5 : ClearChargingProfileRequest :=
  {| clear_id := Some 5; clear_connectorId := None;
     clear_chargingProfilePurpose := None; clear_stackLevel := None |}.
End Interleaved.

(** * More on the meter-value synthesizer *)

(** A run of [bind m k], whatever its outcome: [m] threw, or [m] returned
    and [k] ran. *)
Lemma bind_cases {S A B} (m : ST S A) (k : A → ST S B) s r s' :
  bind m k s = (r, s') →
  (∃ e, m s = (Throw e, s') ∧ r = Throw e)
  ∨ (∃ a s1, m s = (Ok a, s1) ∧ k a s1 = (r, s')).
Proof.
  unfold bind. destruct (m s) as [[a|e] s1]; intros E.
  - right. eauto.
  - left. injection E as <- <-. eauto.
Qed.

(** ** What a call writes on the station *)

(** The station is as before, or as before with the two registers of the
    connector rewritten. *)
Definition registersWritten (connectorId : Z) (st st' : ChargingStation) : Prop :=
  st' = st
  ∨ ∃ c energy transactionEnergy,
      getConnectorStatus st connectorId = Some c
      ∧ st' = setConnectorStatus st connectorId (with_registers energy transactionEnergy c).

Section StationWrites.

Variable env : Collaborators.
Variables (connectorId transactionId' interval : Z) (debug : bool).

Lemma checkMeasurandPowerDivider_sameStation : steps sameStation checkMeasurandPowerDivider.
Proof.
  apply steps_checkMeasurandPowerDivider;
    eauto using sameStation_refl, sameStation_trans, sameStation_log.
Qed.

Lemma fluctuatedCustomValue_sameStation t max min u d :
  steps sameStation (fluctuatedCustomValue env t max min u d).
Proof.
  apply steps_fluctuatedCustomValue;
    eauto using sameStation_refl, sameStation_trans, sameStation_draw.
Qed.

Lemma orElseRandom_sameStation a b max min :
  steps sameStation (orElseRandom env a b max min).
Proof.
  apply steps_orElseRandom;
    eauto using sameStation_refl, sameStation_trans, sameStation_draw.
Qed.

Lemma reportOutOfRange_sameStation v x lo hi :
  steps sameStation (reportOutOfRange v x lo hi debug).
Proof.
  apply steps_reportOutOfRange; eauto using sameStation_refl, sameStation_log.
Qed.

Lemma persistEnergy_registers x c :
  ∃ energy transactionEnergy,
    persistEnergy env x c = with_registers energy transactionEnergy c.
Proof.
  unfold persistEnergy.
  destruct (energyActiveImportRegisterValue c) as [e|]; [|eauto].
  destruct (transactionEnergyActiveImportRegisterValue c) as [te|]; [|eauto].
  destruct (Qle_bool 0 e && Qle_bool 0 te); eauto.
Qed.

Lemma energyMeasurand_station s r s' :
  energyMeasurand env connectorId transactionId' interval debug s = (r, s') →
  registersWritten connectorId (chargingStation s) (chargingStation s').
Proof.
  intros E. unfold energyMeasurand in E.
  unfold bind at 1 in E. unfold getStation at 1 in E.
  destruct (getSampledValueTemplate env (chargingStation s) connectorId None None) as [t|];
    [|injection E as _ <-; now left].
  apply bind_cases in E as [(e & Ec & _)|(u & s1 & Ec & E)];
    [left; exact (checkMeasurandPowerDivider_sameStation _ _ _ Ec)|].
  pose proof (checkMeasurandPowerDivider_sameStation _ _ _ Ec) as S1.
  cbv zeta in E.
  apply bind_cases in E as [(e & Ecu & _)|(custom & s2 & Ecu & E)];
    [left; rewrite <- S1; exact (fluctuatedCustomValue_sameStation _ _ _ _ _ _ _ _ Ecu)|].
  pose proof (fluctuatedCustomValue_sameStation _ _ _ _ _ _ _ _ Ecu) as S2.
  apply bind_cases in E as [(e & Eo & _)|(x & s3 & Eo & E)];
    [left; rewrite <- S1, <- S2; exact (orElseRandom_sameStation _ _ _ _ _ _ _ Eo)|].
  pose proof (orElseRandom_sameStation _ _ _ _ _ _ _ Eo) as S3.
  assert (S03 : chargingStation s3 = chargingStation s)
    by (unfold sameStation in *; congruence).
  apply bind_cases in E as [(e & Es & _)|(u' & s4 & Es & E)].
  { destruct (getConnectorStatus (chargingStation s) connectorId); discriminate. }
  assert (S5 : chargingStation s' = chargingStation s4).
  { apply bind_cases in E as [(e & Eg & _)|(st' & s5 & Eg & E)]; [discriminate|].
    injection Eg as _ <-. cbv zeta in E.
    apply bind_cases in E as [(e & Ep & _)|([] & s6 & Ep & E)]; [discriminate|].
    rewrite (reportOutOfRange_sameStation _ _ _ _ _ _ _ E).
    exact (sameStation_push _ _ _ Ep). }
  rewrite S5.
  destruct (getConnectorStatus (chargingStation s) connectorId) as [c|] eqn:Hc.
  - right. destruct (persistEnergy_registers x c) as (en & te & Hp).
    exists c, en, te. split; [exact Hc|].
    unfold setStation in Es. injection Es as _ <-. cbn [chargingStation]. now rewrite Hp.
  - left. injection Es as _ <-. exact S03.
Qed.

Lemma beforeEnergy_measurands s :
  measurands env connectorId transactionId' interval debug s
  = (exec beforeEnergy env connectorId debug ;
     energyMeasurand env connectorId transactionId' interval debug) s.
Proof.
  unfold measurands, beforeEnergy, bind.
  destruct (socMeasurand env connectorId debug s) as [[u1|e1] s1]; [|reflexivity].
  destruct (voltageMeasurand env connectorId s1) as [[u2|e2] s2]; [|reflexivity].
  destruct (powerMeasurand env connectorId debug s2) as [[u3|e3] s3]; reflexivity.
Qed.

Lemma measurands_station s r s' :
  measurands env connectorId transactionId' interval debug s = (r, s') →
  registersWritten connectorId (chargingStation s) (chargingStation s').
Proof.
  rewrite beforeEnergy_measurands. intros E.
  apply bind_cases in E as [(e & Eb & _)|(u & s4 & Eb & E)].
  - left. exact (beforeEnergy_sameStation env _ _ _ _ _ Eb).
  - rewrite <- (beforeEnergy_sameStation env _ _ _ _ _ Eb).
    exact (energyMeasurand_station _ _ _ E).
Qed.

End StationWrites.

(** ** The meter values at the boundaries of a transaction *)

Section TransactionBoundaries.

Variable env : Collaborators.

(** [buildSampledValue(sampledValueTemplate!, ...)] on a template that may
    be undefined: reading [sampledValueTemplate.measurand] then throws. *)
Definition buildSampledValueOf (sampledValueTemplate : option SampledValueTemplate)
    (value : option Q) (context : option MeterValueContext)
    (phase : option MeterValuePhase) : outcome SampledValue :=
  match sampledValueTemplate with
  | Some t => Ok (buildSampledValue t value context phase)
  | None => Throw TypeError
  end.

(** [sampledValueTemplate?.unit === MeterValueUnit.KILO_WATT_HOUR ? 1000 : 1] *)
Definition unitDividerOfTemplate (sampledValueTemplate : option SampledValueTemplate) : Q :=
  match sampledValueTemplate with
  | Some t => unitDividerOf t
  | None => 1%Q
  end.

(** Lines 843-866 and 868-891: one meter value with one sampled value, the
    reading of the energy register ([meterStart ?? 0]) in the unit of the
    template, rounded to 4 decimals. *)
Definition buildTransactionMeterValue (context : MeterValueContext)
    (chargingStation : ChargingStation) (connectorId : Z) (meter : option Q)
  : outcome MeterValue :=
  let sampledValueTemplate := getSampledValueTemplate env chargingStation connectorId
                                None None in
  let unitDivider := unitDividerOfTemplate sampledValueTemplate in
  match buildSampledValueOf sampledValueTemplate
          (Some (roundTo (orElse meter 0%Q / unitDivider) 4)) (Some context) None with
  | Ok v => Ok {| timestamp := now env; sampledValue := [v] |}
  | Throw e => Throw e
  end.

Definition buildTransactionBeginMeterValue (chargingStation : ChargingStation)
    (connectorId : Z) (meterStart : option Q) : outcome MeterValue :=
  buildTransactionMeterValue TRANSACTION_BEGIN chargingStation connectorId meterStart.

Definition buildTransactionEndMeterValue (chargingStation : ChargingStation)
    (connectorId : Z) (meterStop : option Q) : outcome MeterValue :=
  buildTransactionMeterValue TRANSACTION_END chargingStation connectorId meterStop.

End TransactionBoundaries.

Section Rounding.

Local Open Scope Q_scope.

Lemma roundTo_le x y scale : x <= y → roundTo x scale <= roundTo y scale.
Proof.
  intros Hxy. unfold roundTo, Math_round.
  pose proof (pow10_pos scale) as Hp.
  apply Qle_shift_div_l; [assumption|].
  assert (Hz : (Qfloor (x * pow10 scale + (1 # 2)) <= Qfloor (y * pow10 scale + (1 # 2)))%Z)
    by (apply Qfloor_resp_le; nra).
  rewrite Zle_Qle in Hz.
  assert (E : inject_Z (Qfloor (x * pow10 scale + (1 # 2))) / pow10 scale * pow10 scale
              == inject_Z (Qfloor (x * pow10 scale + (1 # 2))))
    by (field; lra).
  rewrite E. exact Hz.
Qed.

Lemma unitDividerOf_pos t : 0 < unitDividerOf t.
Proof.
  unfold unitDividerOf. destruct (template_unit t) as [[]|]; reflexivity.
Qed.

End Rounding.

(** *** Scenario: a connector whose transaction register is not initialised *)
Module Uninitialised.
Definition connector : ConnectorStatus :=
  {| availability := Operative; status := Some Charging;
     transactionStarted := Some true; transactionId := Some 42;
     connector_idTag := None;
     energyActiveImportRegisterValue := Some 500%Q;
     transactionEnergyActiveImportRegisterValue := None;
     chargingProfiles := Profiles []; reservation := None |}.
Definition station : ChargingStation :=
  {| connectors := {[ 1 := connector ]};
     stationInfo := Meter.info;
     powerDivider := Some 1;
     sentStatusNotifications := [] |}.
End Uninitialised.

(** ** The power samples of a three-phase station *)

(** No sampled value is pushed. *)
Definition sameSampled (s s' : Synth) : Prop := sampled s' = sampled s.

Section PowerOfThreePhases.

Variable env : Collaborators.
Variables (connectorId : Z) (debug : bool).

Lemma sameSampled_refl s : sameSampled s s.
Proof. reflexivity. Qed.

Lemma sameSampled_trans s1 s2 s3 : sameSampled s1 s2 → sameSampled s2 s3 → sameSampled s1 s3.
Proof. unfold sameSampled. congruence. Qed.

Lemma sameSampled_log e s s' : logError e s = (Ok tt, s') → sameSampled s s'.
Proof. intros E. injection E as <-. reflexivity. Qed.

Lemma sameSampled_draw s u s' : draw env s = (Ok u, s') → sameSampled s s'.
Proof. intros E. injection E as _ <-. reflexivity. Qed.

Lemma checkMeasurandPowerDivider_sameSampled : steps sameSampled checkMeasurandPowerDivider.
Proof.
  apply steps_checkMeasurandPowerDivider;
    eauto using sameSampled_refl, sameSampled_trans, sameSampled_log.
Qed.

Lemma fluctuatedCustomValue_sameSampled t max min u d :
  steps sameSampled (fluctuatedCustomValue env t max min u d).
Proof.
  apply steps_fluctuatedCustomValue;
    eauto using sameSampled_refl, sameSampled_trans, sameSampled_draw.
Qed.

Lemma orElseRandom_sameSampled a b max min :
  steps sameSampled (orElseRandom env a b max min).
Proof.
  apply steps_orElseRandom;
    eauto using sameSampled_refl, sameSampled_trans, sameSampled_draw.
Qed.

Lemma reportOutOfRange_sameSampled v x lo hi :
  steps sameSampled (reportOutOfRange v x lo hi debug).
Proof.
  apply steps_reportOutOfRange; eauto using sameSampled_refl, sameSampled_log.
Qed.

Lemma powerPhase_pushes pt perPhase values lo hi phase s s' :
  powerPhase pt perPhase values lo hi debug phase s = (Ok tt, s') →
  sampled s'
  = sampled s ++ [buildSampledValue (orElse (perPhase phase) pt) (phaseValue values phase)
                    None (Some (lineToNeutral phase))].
Proof.
  unfold powerPhase. intros E.
  apply bind_inv in E as ([] & s1 & Ep & E).
  rewrite (reportOutOfRange_sameSampled _ _ _ _ _ _ _ E).
  unfold push in Ep. now injection Ep as <-.
Qed.

(** The per-phase templates of the power measurand (lines 246-267). *)
Definition powerPerPhaseTemplate (st : ChargingStation) (pt : SampledValueTemplate)
    (phase : Z) : SampledValueTemplate :=
  orElse (getSampledValueTemplate env st connectorId (Some POWER_ACTIVE_IMPORT)
            (Some (lineToNeutral phase))) pt.

Lemma powerMeasurand_three_phases s s' pt :
  powerMeasurand env connectorId debug s = (Ok tt, s') →
  getSampledValueTemplate env (chargingStation s) connectorId (Some POWER_ACTIVE_IMPORT) None
  = Some pt →
  currentOutType (stationInfo (chargingStation s)) = Some AC →
  threePhases (chargingStation s) = true →
  ∃ l1 l2 l3,
    sampled s'
    = sampled s
      ++ [ buildSampledValue pt (Some (roundTo (l1 + l2 + l3) 2)) None None;
           buildSampledValue (powerPerPhaseTemplate (chargingStation s) pt 1) (Some l1)
             None (Some L1_N);
           buildSampledValue (powerPerPhaseTemplate (chargingStation s) pt 2) (Some l2)
             None (Some L2_N);
           buildSampledValue (powerPerPhaseTemplate (chargingStation s) pt 3) (Some l3)
             None (Some L3_N) ].
Proof.
  intros E Ht Hc H3. unfold powerMeasurand in E.
  unfold bind at 1 in E. unfold getStation at 1 in E.
  rewrite Ht, Hc, H3 in E.
  apply bind_inv in E as ([] & s1 & Ec & E). cbv zeta in E.
  pose proof (checkMeasurandPowerDivider_sameSampled _ _ _ Ec) as S1.
  apply bind_inv in E as (values & s2 & Ev & E).
  apply bind_inv in Ev as (d & sa & Ed & Ev).
  apply bind_inv in Ev as (p1 & sb & E1 & Ev).
  apply bind_inv in Ev as (p2 & sc & E2 & Ev).
  apply bind_inv in Ev as (p3 & sd & E3 & Ev).
  apply bind_inv in Ev as (l1 & se & El1 & Ev).
  apply bind_inv in Ev as (l2 & sf & El2 & Ev).
  apply bind_inv in Ev as (l3 & sg & El3 & Ev).
  injection Ev as <- <-.
  assert (S2 : sampled sg = sampled s).
  { rewrite (orElseRandom_sameSampled _ _ _ _ _ _ _ El3).
    rewrite (orElseRandom_sameSampled _ _ _ _ _ _ _ El2).
    rewrite (orElseRandom_sameSampled _ _ _ _ _ _ _ El1).
    rewrite (fluctuatedCustomValue_sameSampled _ _ _ _ _ _ _ _ E3).
    rewrite (fluctuatedCustomValue_sameSampled _ _ _ _ _ _ _ _ E2).
    rewrite (fluctuatedCustomValue_sameSampled _ _ _ _ _ _ _ _ E1).
    rewrite (fluctuatedCustomValue_sameSampled _ _ _ _ _ _ _ _ Ed).
    exact S1. }
  apply bind_inv in E as ([] & s3 & Ep & E).
  apply bind_inv in E as ([] & s4 & Er & E).
  apply bind_inv in E as ([] & s5 & Ef1 & E).
  apply bind_inv in E as ([] & s6 & Ef2 & E).
  exists l1, l2, l3.
  rewrite (powerPhase_pushes _ _ _ _ _ _ _ _ E).
  rewrite (powerPhase_pushes _ _ _ _ _ _ _ _ Ef2).
  rewrite (powerPhase_pushes _ _ _ _ _ _ _ _ Ef1).
  rewrite (reportOutOfRange_sameSampled _ _ _ _ _ _ _ Er).
  unfold push in Ep. injection Ep as <-. cbn [sampled allPhases].
  rewrite S2, <- !app_assoc. reflexivity.
Qed.

End PowerOfThreePhases.

(** *** Scenario: a three-phase AC station with a power template *)
Module ThreePhases.
Definition info : ChargingStationInfo :=
  {| currentOutType := Some AC; voltageOut := 230; numberOfPhases := 3;
     mainVoltageMeterValues := false; phaseLineToLineVoltageMeterValues := false;
     customValueLimitationMeterValues := false |}.
Definition station : ChargingStation :=
  {| connectors := {[ 1 := Meter.connector 0 0 ]};
     stationInfo := info;
     powerDivider := Some 1;
     sentStatusNotifications := [] |}.
Definition powerTemplate : SampledValueTemplate :=
  Meter.template POWER_ACTIVE_IMPORT UNIT_WATT None None None.
Definition currentTemplate : SampledValueTemplate :=
  Meter.template CURRENT_IMPORT UNIT_AMP None None None.
Definition voltageTemplate : SampledValueTemplate :=
  Meter.template VOLTAGE UNIT_VOLT None None None.
(** The same station, reporting the line-to-line voltages. *)
Definition stationLineToLine : ChargingStation :=
  {| connectors := {[ 1 := Meter.connector 0 0 ]};
     stationInfo :=
       {| currentOutType := Some AC; voltageOut := 230; numberOfPhases := 3;
          mainVoltageMeterValues := false; phaseLineToLineVoltageMeterValues := true;
          customValueLimitationMeterValues := false |};
     powerDivider := Some 1;
     sentStatusNotifications := [] |}.
End ThreePhases.

(** ** The current samples of a three-phase station *)

Section CurrentOfThreePhases.

Variable env : Collaborators.
Variables (connectorId : Z) (debug : bool).

Lemma currentPhase_pushes ct perPhase values lo hi phase s s' :
  currentPhase ct perPhase values lo hi debug phase s = (Ok tt, s') →
  sampled s'
  = sampled s ++ [buildSampledValue (orElse (perPhase phase) ct) (phaseValue values phase)
                    None (Some (linePhase phase))].
Proof.
  unfold currentPhase. intros E.
  apply bind_inv in E as ([] & s1 & Ep & E).
  rewrite (reportOutOfRange_sameSampled _ _ _ _ _ _ _ _ E).
  unfold push in Ep. now injection Ep as <-.
Qed.

(** The per-phase templates of the current measurand (lines 518-539). *)
Definition currentPerPhaseTemplate (st : ChargingStation) (ct : SampledValueTemplate)
    (phase : Z) : SampledValueTemplate :=
  orElse (getSampledValueTemplate env st connectorId (Some CURRENT_IMPORT)
            (Some (linePhase phase))) ct.

Lemma currentMeasurand_three_phases s s' ct :
  currentMeasurand env connectorId debug s = (Ok tt, s') →
  getSampledValueTemplate env (chargingStation s) connectorId (Some CURRENT_IMPORT) None
  = Some ct →
  currentOutType (stationInfo (chargingStation s)) = Some AC →
  threePhases (chargingStation s) = true →
  ∃ l1 l2 l3,
    sampled s'
    = sampled s
      ++ [ buildSampledValue ct
             (Some (roundTo ((l1 + l2 + l3) / phasesQ (chargingStation s)) 2)) None None;
           buildSampledValue (currentPerPhaseTemplate (chargingStation s) ct 1) (Some l1)
             None (Some L1);
           buildSampledValue (currentPerPhaseTemplate (chargingStation s) ct 2) (Some l2)
             None (Some L2);
           buildSampledValue (currentPerPhaseTemplate (chargingStation s) ct 3) (Some l3)
             None (Some L3) ].
Proof.
  intros E Ht Hc H3. unfold currentMeasurand in E.
  unfold bind at 1 in E. unfold getStation at 1 in E.
  rewrite Ht, Hc, H3 in E.
  apply bind_inv in E as ([] & s1 & Ec & E). cbv zeta in E.
  pose proof (checkMeasurandPowerDivider_sameSampled _ _ _ Ec) as S1.
  apply bind_inv in E as ([maximum values] & s2 & Ev & E).
  apply bind_inv in Ev as ([[l1 l2] l3] & sh & Ev & Er).
  injection Er as <- <- <-.
  apply bind_inv in Ev as (d & sa & Ed & Ev).
  apply bind_inv in Ev as (p1 & sb & E1 & Ev).
  apply bind_inv in Ev as (p2 & sc & E2 & Ev).
  apply bind_inv in Ev as (p3 & sd & E3 & Ev).
  apply bind_inv in Ev as (l1' & se & El1 & Ev).
  apply bind_inv in Ev as (l2' & sf & El2 & Ev).
  apply bind_inv in Ev as (l3' & sg & El3 & Ev).
  injection Ev as -> -> -> <-.
  assert (S2 : sampled sg = sampled s).
  { rewrite (orElseRandom_sameSampled _ _ _ _ _ _ _ _ El3).
    rewrite (orElseRandom_sameSampled _ _ _ _ _ _ _ _ El2).
    rewrite (orElseRandom_sameSampled _ _ _ _ _ _ _ _ El1).
    rewrite (fluctuatedCustomValue_sameSampled _ _ _ _ _ _ _ _ _ E3).
    rewrite (fluctuatedCustomValue_sameSampled _ _ _ _ _ _ _ _ _ E2).
    rewrite (fluctuatedCustomValue_sameSampled _ _ _ _ _ _ _ _ _ E1).
    rewrite (fluctuatedCustomValue_sameSampled _ _ _ _ _ _ _ _ _ Ed).
    exact S1. }
  apply bind_inv in E as ([] & s3 & Ep & E).
  apply bind_inv in E as ([] & s4 & Er & E).
  apply bind_inv in E as ([] & s5 & Ef1 & E).
  apply bind_inv in E as ([] & s6 & Ef2 & E).
  exists l1, l2, l3.
  rewrite (currentPhase_pushes _ _ _ _ _ _ _ _ E).
  rewrite (currentPhase_pushes _ _ _ _ _ _ _ _ Ef2).
  rewrite (currentPhase_pushes _ _ _ _ _ _ _ _ Ef1).
  rewrite (reportOutOfRange_sameSampled _ _ _ _ _ _ _ _ Er).
  unfold push in Ep. injection Ep as <-. cbn [sampled allPhases].
  rewrite S2, <- !app_assoc. reflexivity.
Qed.

End CurrentOfThreePhases.

(** ** The voltage samples *)

(** The phases of the voltage samples, in the order of emission: the main
    voltage when the station is not three-phase or reports it, then, on a
    three-phase station, each line to neutral followed, when the station
    reports them, by the line-to-line voltage that starts at that line. *)
Definition voltagePhases (st : ChargingStation) (main : option MeterValuePhase)
  : list (option MeterValuePhase) :=
  let perPhase (neutral line : MeterValuePhase) :=
    Some neutral
    :: (if phaseLineToLineVoltageMeterValues (stationInfo st) then [Some line] else []) in
  (if negb (threePhases st) || mainVoltageMeterValues (stationInfo st) then [main] else [])
  ++ (if threePhases st
      then perPhase L1_N L1_L2 ++ perPhase L2_N L2_L3 ++ perPhase L3_N L3_L1
      else []).

Section VoltagePhases.

Variable env : Collaborators.
Variable connectorId : Z.

Lemma getRandomFloatFluctuatedRounded_sameSampled v p :
  steps sameSampled (getRandomFloatFluctuatedRounded env v p).
Proof.
  apply steps_getRandomFloatFluctuatedRounded;
    eauto using sameSampled_refl, sameSampled_trans, sameSampled_draw.
Qed.

Lemma getRandomFloatFluctuatedRounded_sameStation v p :
  steps sameStation (getRandomFloatFluctuatedRounded env v p).
Proof.
  apply steps_getRandomFloatFluctuatedRounded;
    eauto using sameStation_refl, sameStation_trans, sameStation_draw.
Qed.

Lemma optionalFluctuated_same (o : option SampledValueTemplate) (nominal : Q) s x s' :
  match o with
  | Some t =>
      do x <- getRandomFloatFluctuatedRounded env (voltageOfTemplate t nominal)
                (fluctuationOf t) ;
      ret (Some x)
  | None => ret None
  end s = (Ok x, s') →
  sampled s' = sampled s ∧ chargingStation s' = chargingStation s.
Proof.
  destruct o as [t|]; intros E.
  - apply bind_inv in E as (y & s1 & Ey & E). injection E as _ <-. split.
    + exact (getRandomFloatFluctuatedRounded_sameSampled _ _ _ _ _ Ey).
    + exact (getRandomFloatFluctuatedRounded_sameStation _ _ _ _ _ Ey).
  - injection E as _ <-. auto.
Qed.

Lemma voltagePhase_pushes t f v phase s s' :
  voltagePhase env connectorId t f v phase s = (Ok tt, s') →
  chargingStation s' = chargingStation s
  ∧ ∃ vs,
      sampled s' = sampled s ++ vs
      ∧ sampled_phase <$> vs
        = Some (lineToNeutral phase)
          :: (if phaseLineToLineVoltageMeterValues (stationInfo (chargingStation s))
              then [Some (lineToLine phase)] else []).
Proof.
  unfold voltagePhase. intros E.
  unfold bind at 1 in E. unfold getStation at 1 in E. cbv zeta in E.
  apply bind_inv in E as (x & s1 & Ex & E).
  apply optionalFluctuated_same in Ex as [X1 X2].
  apply bind_inv in E as ([] & s2 & Ep & E).
  unfold push in Ep. injection Ep as <-.
  destruct (phaseLineToLineVoltageMeterValues (stationInfo (chargingStation s))).
  - apply bind_inv in E as (y & s3 & Ey & E).
    apply optionalFluctuated_same in Ey as [Y1 Y2].
    apply bind_inv in E as (z & s4 & Ez & E).
    pose proof (getRandomFloatFluctuatedRounded_sameSampled _ _ _ _ _ Ez) as Z1.
    pose proof (getRandomFloatFluctuatedRounded_sameStation _ _ _ _ _ Ez) as Z2.
    unfold push in E. injection E as <-. cbn [chargingStation sampled] in *.
    split; [unfold sameStation in Z2; congruence|].
    eexists [_; _]. split.
    + unfold sameSampled in Z1. rewrite Z1, Y1, X1, <- app_assoc. reflexivity.
    + reflexivity.
  - injection E as <-. cbn [chargingStation sampled]. split; [exact X2|].
    eexists [_]. split; [now rewrite X1|reflexivity].
Qed.

Lemma voltageMeasurand_phases s s' vt :
  voltageMeasurand env connectorId s = (Ok tt, s') →
  getSampledValueTemplate env (chargingStation s) connectorId (Some VOLTAGE) None = Some vt →
  ∃ vs,
    sampled s' = sampled s ++ vs
    ∧ sampled_phase <$> vs = voltagePhases (chargingStation s) (template_phase vt).
Proof.
  unfold voltageMeasurand. intros E Ht.
  unfold bind at 1 in E. unfold getStation at 1 in E. rewrite Ht in E. cbv zeta in E.
  apply bind_inv in E as (v & s1 & Ev & E).
  pose proof (getRandomFloatFluctuatedRounded_sameSampled _ _ _ _ _ Ev) as V1.
  pose proof (getRandomFloatFluctuatedRounded_sameStation _ _ _ _ _ Ev) as V2.
  unfold sameSampled, sameStation in V1, V2.
  apply bind_inv in E as ([] & s2 & Em & E).
  unfold voltagePhases.
  assert (M : chargingStation s2 = chargingStation s
              ∧ ∃ ms, sampled s2 = sampled s ++ ms
                      ∧ sampled_phase <$> ms
                        = if negb (threePhases (chargingStation s))
                             || mainVoltageMeterValues (stationInfo (chargingStation s))
                          then [template_phase vt] else []).
  { destruct (threePhases (chargingStation s)),
             (mainVoltageMeterValues (stationInfo (chargingStation s)));
      cbn [negb orb andb] in Em |- *; injection Em as <-; cbn [chargingStation sampled];
      (split; [exact V2|]);
      try (exists []; split; [now rewrite app_nil_r|reflexivity]);
      (eexists [_]; split; [now rewrite V1|reflexivity]). }
  destruct M as (M2 & ms & Ms & Mp).
  destruct (threePhases (chargingStation s)) eqn:T.
  - apply bind_inv in E as ([] & s3 & E1 & E).
    apply bind_inv in E as ([] & s4 & E2 & E).
    apply voltagePhase_pushes in E1 as (P1 & v1 & A1 & B1).
    apply voltagePhase_pushes in E2 as (P2 & v2 & A2 & B2).
    apply voltagePhase_pushes in E as (P3 & v3 & A3 & B3).
    rewrite P2, P1, M2 in B3. rewrite P1, M2 in B2. rewrite M2 in B1.
    exists (ms ++ v1 ++ v2 ++ v3). split.
    + rewrite A3, A2, A1, Ms, <- !app_assoc. reflexivity.
    + rewrite !fmap_app, Mp, B1, B2, B3. reflexivity.
  - injection E as <-. exists ms. split; [exact Ms|].
    rewrite Mp, app_nil_r. reflexivity.
Qed.

End VoltagePhases.

(** * More on the session coordinator *)

Section ChangeAvailabilityMore.

Variables (chargePointStatus : ChargePointStatus) (availabilityType : AvailabilityType).

(** The loop over a list in two parts. *)
Lemma changeAvailability_loop_app connectorIds connectorIds' :
  ∀ chargingStation responses,
    changeAvailability_loop (connectorIds ++ connectorIds') chargePointStatus
      availabilityType chargingStation responses
    = match changeAvailability_loop connectorIds chargePointStatus availabilityType
              chargingStation responses with
      | (Ok responses', chargingStation') =>
          changeAvailability_loop connectorIds' chargePointStatus availabilityType
            chargingStation' responses'
      | (Throw e, chargingStation') => (Throw e, chargingStation')
      end.
Proof.
  induction connectorIds as [|connectorId ids IH]; intros chargingStation responses;
    [reflexivity|].
  cbn [app changeAvailability_loop].
  destruct (getConnectorStatus chargingStation connectorId) as [c|]; [|reflexivity].
  destruct (match (if transactionActive c
                   then AvailabilityScheduled else AvailabilityAccepted) with
            | AvailabilityAccepted => _
            | _ => _
            end) as [[u|e] station2]; [apply IH|reflexivity].
Qed.

Lemma hasActiveTransaction_foldl_turn connectorIds :
  ∀ chargingStation connectorId,
    hasActiveTransaction
      (foldl (turn chargePointStatus availabilityType) chargingStation connectorIds)
      connectorId
    = hasActiveTransaction chargingStation connectorId.
Proof.
  induction connectorIds as [|id ids IH]; intros chargingStation connectorId;
    [reflexivity|].
  cbn [foldl]. rewrite IH. apply hasActiveTransaction_turn.
Qed.

Lemma connectors_foldl_turn_twice connectorIds chargingStation :
  connectors (foldl (turn chargePointStatus availabilityType)
                (foldl (turn chargePointStatus availabilityType) chargingStation
                   connectorIds) connectorIds)
  = connectors (foldl (turn chargePointStatus availabilityType) chargingStation
                  connectorIds).
Proof.
  apply map_eq. intros k.
  change (getConnectorStatus
            (foldl (turn chargePointStatus availabilityType)
               (foldl (turn chargePointStatus availabilityType) chargingStation
                  connectorIds) connectorIds) k
          = getConnectorStatus
              (foldl (turn chargePointStatus availabilityType) chargingStation
                 connectorIds) k).
  rewrite !foldl_turn_lookup.
  destruct (decide (k ∈ connectorIds)); [|reflexivity].
  destruct (getConnectorStatus chargingStation k); [|reflexivity].
  cbn [fmap option_fmap option_map]. f_equal. apply change_idempotent.
Qed.

Lemma is_Some_foldl_turn connectorIds chargingStation connectorId :
  is_Some (getConnectorStatus chargingStation connectorId) →
  is_Some (getConnectorStatus
             (foldl (turn chargePointStatus availabilityType) chargingStation connectorIds)
             connectorId).
Proof.
  intros [c Hc]. rewrite foldl_turn_lookup, Hc.
  destruct (decide (connectorId ∈ connectorIds)); simpl; eauto.
Qed.

End ChangeAvailabilityMore.

(** * Main results: the smart-charging manager *)

(** C1 (as amended). When both schedules project onto the composite interval,
    the projected intervals overlap and the projected higher schedule starts
    first, [composeChargingSchedules] returns a schedule whose period
    sequence is the stable sort by [startPeriod] of: one copy of each period
    of the projected higher schedule, in order, with its limit and number of
    phases; followed by copies of exactly those periods of the projected
    lower schedule whose start instant lies outside
    [[lower.start, higher.end]] and whose immediate successor's start
    instant (when there is a successor) does not lie inside it.  The first
    survivor has its [startPeriod] reset to 0 before the shift, so it is
    emitted at [lower.start - higher.start]; every other survivor is emitted
    at its [startPeriod] plus [lower.start - higher.start]. *)
Theorem composeChargingSchedules_overlap_higher_first
    (higher lower ph pl : ChargingSchedule) (I ih il : Interval) (h0 h1 h2 : Heap) :
  heap_wf h0 →
  composeChargingSchedule higher I h0 = (Ok (Some ph), h1) →
  composeChargingSchedule lower I h1 = (Ok (Some pl), h2) →
  scheduleInterval ph = Ok ih →
  scheduleInterval pl = Ok il →
  areIntervalsOverlapping ih il = Ok true →
  isBefore (start ih) (start il) = true →
  let overlap := {| start := start il; end_ := end_ ih |} in
  let delta := differenceInSeconds (start il) (start ih) in
  let lowerArray := chargingSchedulePeriod pl in
  let kept :=
    filter_idx (λ p index, negb (withinB h2 (start il) overlap p)
                           && negb (nextWithinB h2 lowerArray (start il) overlap index))
      0 (array h2 lowerArray) in
  let lowerPart :=
    match kept with
    | [] => []
    | first :: rest =>
        with_startPeriod delta (deref h2 first)
        :: ((λ p, with_startPeriod (startPeriod (deref h2 p) + delta) (deref h2 p)) <$> rest)
    end in
  ∃ r h3 higherPart,
    composeChargingSchedules (Some higher) (Some lower) I h0 = (Ok (Some r), h3)
    ∧ Forall2 (λ p c, limit c = limit p ∧ numberPhases c = numberPhases p)
        (periodsOf h2 ph) higherPart
    ∧ periodsOf h3 r = sortPeriods (higherPart ++ lowerPart).
Proof.
  intros W0 Hh Hl Hih Hil Ho Hf overlap delta lowerArray kept lowerPart.
  assert (W2 : heap_wf h2).
  { eapply projection_wf; [|apply composeChargingSchedule_inv; exact Hl].
    eapply projection_wf; [exact W0|apply composeChargingSchedule_inv; exact Hh]. }
  exists (combinedSchedule h2 ph ih il), (combinedHeap h2 ph pl ih il),
         (higherCopies h2 ph ih il).
  split; [|split].
  - eapply composeChargingSchedules_overlapping; eassumption.
  - unfold higherCopies, copies, periodsOf.
    apply Forall2_fmap. apply Forall_Forall2_diag.
    apply Forall_forall. intros p _. split; reflexivity.
  - rewrite periodsOf_combined by assumption. do 2 f_equal.
    unfold lowerCopies, survivors, keepLowerB, shiftOfLower. rewrite Hf.
    fold overlap lowerArray kept. subst lowerPart.
    destruct kept as [|first rest]; [reflexivity|].
    unfold copies, startPeriodOf. simpl. reflexivity.
Qed.

(** C1, the scenario S5 of the specification as an instance of the theorem. *)
Lemma composeChargingSchedules_overlap_higher_first_S5 :
  ∃ r h3 higherPart,
    composeChargingSchedules (Some S5.higher) (Some S5.lower) S5.compositeInterval S5.heap
    = (Ok (Some r), h3)
    ∧ Forall2 (λ p c, limit c = limit p ∧ numberPhases c = numberPhases p)
        [S5Facts.period 0 10; S5Facts.period 150 6] higherPart
    ∧ periodsOf h3 r = sortPeriods (higherPart ++ [S5Facts.period 200 16]).
Proof.
  exact (composeChargingSchedules_overlap_higher_first
           S5.higher S5.lower S5.higher S5.lower S5.compositeInterval
           S5Facts.higherInterval S5Facts.lowerInterval S5.heap S5.heap S5.heap
           S5Facts.heap_wf_S5 S5Facts.project_higher S5Facts.project_lower
           eq_refl eq_refl eq_refl eq_refl).
Defined.

(** C1 as stated fails on scenario S5: the code returns
    [(0,10A), (0,6A), (200,16A)], not [(0,10A), (150,6A), (450,16A)]. *)
Lemma composeChargingSchedules_S5_not_as_specified :
  ∃ r h3,
    composeChargingSchedules (Some S5.higher) (Some S5.lower) S5.compositeInterval S5.heap
    = (Ok (Some r), h3)
    ∧ periodsOf h3 r = [S5Facts.period 0 10; S5Facts.period 0 6; S5Facts.period 200 16]
    ∧ periodsOf h3 r ≠ [S5Facts.period 0 10; S5Facts.period 150 6; S5Facts.period 450 16].
Proof.
  exists S5Facts.resultSchedule, S5Facts.resultHeap.
  split; [exact S5Facts.result_eq|]. split; [reflexivity|]. discriminate.
Qed.

(** C2 (as amended). Whenever [composeChargingSchedules] returns a schedule,
    its periods are sorted ascending by [startPeriod]; two periods may share
    a [startPeriod]. *)
Theorem composeChargingSchedules_sorted
    (chargingScheduleHigher chargingScheduleLower : option ChargingSchedule)
    (I : Interval) (h h' : Heap) (r : ChargingSchedule) :
  heap_wf h →
  composeChargingSchedules chargingScheduleHigher chargingScheduleLower I h
  = (Ok (Some r), h') →
  sortedByStartPeriod (periodsOf h' r).
Proof.
  intros W E.
  destruct chargingScheduleHigher as [higher|], chargingScheduleLower as [lower|].
  - eapply composeChargingSchedules_both_sorted; exact E.
  - eapply composeChargingSchedule_sorted; eassumption.
  - eapply composeChargingSchedule_sorted; eassumption.
  - discriminate.
Qed.

Lemma composeChargingSchedules_sorted_S5 :
  sortedByStartPeriod (periodsOf S5Facts.resultHeap S5Facts.resultSchedule).
Proof.
  exact (composeChargingSchedules_sorted (Some S5.higher) (Some S5.lower)
           S5.compositeInterval S5.heap S5Facts.resultHeap S5Facts.resultSchedule
           S5Facts.heap_wf_S5 S5Facts.result_eq).
Defined.

(** C2 as stated fails on scenario S5, whose input periods all have distinct
    start instants: the returned sequence holds two periods at
    [startPeriod = 0]. *)
Lemma composeChargingSchedules_S5_shared_startPeriod :
  ∃ r h3,
    composeChargingSchedules (Some S5.higher) (Some S5.lower) S5.compositeInterval S5.heap
    = (Ok (Some r), h3)
    ∧ sortedByStartPeriod (periodsOf h3 r)
    ∧ ¬ NoDup (startPeriod <$> periodsOf h3 r).
Proof.
  exists S5Facts.resultSchedule, S5Facts.resultHeap.
  split; [exact S5Facts.result_eq|]. split.
  - exact S5Facts.resultPeriods_sorted.
  - intros ND. apply NoDup_cons in ND as [N _]. apply N. left.
Qed.



(** * Main results: charging profiles *)

(** C3 (the code departs from it). With the payload
    [{ chargingProfilePurpose: TxProfile }] and two adjacent [TxProfile]
    profiles, both profiles match, the specification removes both, and
    [clearChargingProfiles] removes the first only: after the [splice] the
    second profile sits at the index just visited, and is skipped.  The
    function still returns true. *)
Theorem clearChargingProfiles_skips_adjacent_match :
  let p1 := Profiles.profile 1 1 TX_PROFILE in
  let p2 := Profiles.profile 2 2 TX_PROFILE in
  specifiedToClear Profiles.clearTxProfiles p1 = true
  ∧ specifiedToClear Profiles.clearTxProfiles p2 = true
  ∧ specifiedAfterClear Profiles.clearTxProfiles [p1; p2] = []
  ∧ clearChargingProfiles Profiles.clearTxProfiles (Some [p1; p2]) = (true, Some [p2]).
Proof. repeat split. Qed.

(** C4. On a connector whose profile list is initialised,
    [setChargingProfile] returns and leaves a list in which [cp] is written,
    in place, over every profile with the same [chargingProfileId] or the
    same [(stackLevel, chargingProfilePurpose)] and every other profile stays
    where it was, when there is such a profile; the list with [cp] appended
    when there is none.  Installing [{id=1, stackLevel=2, TxProfile}] and
    then [{id=2, stackLevel=2, TxProfile}] on an empty list leaves exactly
    the second profile. *)
Theorem setChargingProfile_replaces_or_appends
    (chargingStation : ChargingStation) (connectorId : Z) (c : ConnectorStatus)
    (l : list ChargingProfile) (cp : ChargingProfile) :
  getConnectorStatus chargingStation connectorId = Some c →
  chargingProfiles c = Profiles l →
  let matches (p : ChargingProfile) : Prop :=
    chargingProfileId p = chargingProfileId cp
    ∨ (stackLevel p = stackLevel cp
       ∧ chargingProfilePurpose p = chargingProfilePurpose cp) in
  (∃ chargingStation' l',
     setChargingProfile chargingStation connectorId cp = (Ok tt, chargingStation')
     ∧ (chargingProfiles <$> getConnectorStatus chargingStation' connectorId)
       = Some (Profiles l')
     ∧ ((∃ p, p ∈ l ∧ matches p) →
        length l' = length l
        ∧ ∀ i p, l !! i = Some p →
            (matches p → l' !! i = Some cp) ∧ (¬ matches p → l' !! i = Some p))
     ∧ ((∀ p, p ∈ l → ¬ matches p) → l' = l ++ [cp]))
  ∧ (l = [] →
     ∀ cp1 cp2,
       chargingProfileId cp1 = 1 → stackLevel cp1 = 2 →
       chargingProfilePurpose cp1 = TX_PROFILE →
       chargingProfileId cp2 = 2 → stackLevel cp2 = 2 →
       chargingProfilePurpose cp2 = TX_PROFILE →
       ∃ station1 station2,
         setChargingProfile chargingStation connectorId cp1 = (Ok tt, station1)
         ∧ setChargingProfile station1 connectorId cp2 = (Ok tt, station2)
         ∧ (chargingProfiles <$> getConnectorStatus station2 connectorId)
           = Some (Profiles [cp2])).
Proof.
  intros Hc Hl matches. split.
  - exists (setConnectorStatus chargingStation connectorId
              (with_chargingProfiles (Profiles (installed cp l)) c)), (installed cp l).
    split; [rewrite (setChargingProfile_run _ _ _ _ Hc), Hl; reflexivity|].
    split; [now rewrite getConnectorStatus_set|].
    split.
    + intros (q & Hq & Mq).
      assert (X : existsb (sameProfileSlot cp) l = true).
      { apply existsb_exists. exists q. split; [now apply list_elem_of_In|].
        now apply sameProfileSlot_fields. }
      destruct (installed_replaced cp l X) as [Len At]. split; [exact Len|].
      intros i p Hp. rewrite (At i p Hp). split; intros Mp.
      * apply sameProfileSlot_fields in Mp. now rewrite Mp.
      * destruct (sameProfileSlot cp p) eqn:Sp; [|reflexivity].
        exfalso. apply Mp. now apply sameProfileSlot_fields.
    + intros None_. apply installed_appended.
      apply not_true_is_false. intros X.
      apply existsb_exists in X as (q & Hq & Sq).
      apply (None_ q); [now apply list_elem_of_In|now apply sameProfileSlot_fields].
  - intros -> cp1 cp2 I1 S1 P1 I2 S2 P2.
    eexists _, _. split; [apply (setChargingProfile_run _ _ _ _ Hc)|].
    split; [apply setChargingProfile_run, getConnectorStatus_set|].
    rewrite getConnectorStatus_set. simpl. rewrite Hl. simpl.
    unfold installed. simpl. unfold sameProfileSlot.
    rewrite I1, I2, S1, S2, P1, P2. reflexivity.
Qed.

(** C4, on a station with one connector.  Over the list that holds
    [{id=7, stackLevel=1, TxDefaultProfile}] and [{id=2, stackLevel=2,
    TxProfile}], installing [{id=3, stackLevel=2, TxProfile}] keeps the first
    and overwrites the second; over the list that holds the first only, it is
    appended; and the two installations on the empty list leave the second
    profile alone. *)
Lemma setChargingProfile_replaces_or_appends_resident_kept :
  let resident := Profiles.profile 7 1 TX_DEFAULT_PROFILE in
  let cp := Profiles.profile 3 2 TX_PROFILE in
  (∃ station',
     setChargingProfile
       (Profiles.station (Profiles [resident; Profiles.profile 2 2 TX_PROFILE])) 1 cp
     = (Ok tt, station')
     ∧ (chargingProfiles <$> getConnectorStatus station' 1)
       = Some (Profiles [resident; cp]))
  ∧ (∃ station',
       setChargingProfile (Profiles.station (Profiles [resident])) 1 cp = (Ok tt, station')
       ∧ (chargingProfiles <$> getConnectorStatus station' 1)
         = Some (Profiles [resident; cp]))
  ∧ (∃ station1 station2,
       setChargingProfile (Profiles.station (Profiles [])) 1 (Profiles.profile 1 2 TX_PROFILE)
       = (Ok tt, station1)
       ∧ setChargingProfile station1 1 (Profiles.profile 2 2 TX_PROFILE) = (Ok tt, station2)
       ∧ (chargingProfiles <$> getConnectorStatus station2 1)
         = Some (Profiles [Profiles.profile 2 2 TX_PROFILE])).
Proof.
  intros resident cp. split; [|split].
  - destruct (setChargingProfile_replaces_or_appends
                (Profiles.station (Profiles [resident; Profiles.profile 2 2 TX_PROFILE])) 1
                (Profiles.connector (Profiles [resident; Profiles.profile 2 2 TX_PROFILE]))
                [resident; Profiles.profile 2 2 TX_PROFILE] cp eq_refl eq_refl)
      as [(station' & l' & Run & Get & Replaced & _) _].
    exists station'. split; [exact Run|]. rewrite Get.
    destruct Replaced as [Len At].
    { exists (Profiles.profile 2 2 TX_PROFILE). split; [right; left|].
      right. split; reflexivity. }
    assert (A0 : l' !! 0%nat = Some resident).
    { apply (At 0%nat resident eq_refl). simpl. intros [E|[E _]]; discriminate E. }
    assert (A1 : l' !! 1%nat = Some cp).
    { apply (At 1%nat (Profiles.profile 2 2 TX_PROFILE) eq_refl).
      right. split; reflexivity. }
    destruct l' as [|p0 [|p1 [|p2 l']]]; try discriminate Len.
    simpl in A0, A1. injection A0 as ->. injection A1 as ->. reflexivity.
  - destruct (setChargingProfile_replaces_or_appends
                (Profiles.station (Profiles [resident])) 1
                (Profiles.connector (Profiles [resident]))
                [resident] cp eq_refl eq_refl)
      as [(station' & l' & Run & Get & _ & Appended) _].
    exists station'. split; [exact Run|]. rewrite Get. do 2 f_equal.
    apply Appended. intros p Hp.
    apply list_elem_of_singleton in Hp. subst p. simpl.
    intros [E|[E _]]; discriminate E.
  - exact (proj2 (setChargingProfile_replaces_or_appends
                    (Profiles.station (Profiles [])) 1 (Profiles.connector (Profiles []))
                    [] (Profiles.profile 1 2 TX_PROFILE) eq_refl eq_refl)
             eq_refl (Profiles.profile 1 2 TX_PROFILE) (Profiles.profile 2 2 TX_PROFILE)
             eq_refl eq_refl eq_refl eq_refl eq_refl eq_refl).
Defined.

(** * Main results: the session coordinator *)

(** C8. [hasReservation] answers true iff the connector is [Reserved] and
    holds a reservation that has not expired and carries the same id tag, or
    the same holds on connector 0; it answers false when every reservation
    with that id tag, on the connector and on connector 0, has
    [expiryDate ≤ now]. *)
Theorem hasReservation_iff_valid_reservation
    (now : Date) (chargingStation : ChargingStation) (connectorId : Z)
    (idTag : String.string) :
  (hasReservation now chargingStation connectorId idTag = true
   ↔ reservedFor now chargingStation connectorId idTag
     ∨ reservedFor now chargingStation 0 idTag)
  ∧ ((∀ id r, id = connectorId ∨ id = 0 →
              getReservationByConnectorId chargingStation id = Some r →
              reservation_idTag r = idTag → expiryDate r <= now) →
     hasReservation now chargingStation connectorId idTag = false).
Proof.
  split; [apply hasReservation_reservedFor|].
  intros Hexp. apply not_true_is_false. intros H.
  apply hasReservation_reservedFor in H.
  destruct H as [(_ & r & Hr & Hlt & Htag)|(_ & r & Hr & Hlt & Htag)].
  - specialize (Hexp connectorId r (or_introl eq_refl) Hr Htag). lia.
  - specialize (Hexp 0 r (or_intror eq_refl) Hr Htag). lia.
Qed.

(** C8, scenario S6: the only reservation for tag A has expired. *)
Lemma hasReservation_iff_valid_reservation_S6 :
  hasReservation 10000 Session.reservedStation 1 "A"%string = false.
Proof.
  apply (proj2 (hasReservation_iff_valid_reservation 10000 Session.reservedStation 1 "A"%string)).
  intros id r [->| ->] Hr Htag.
  - vm_compute in Hr. injection Hr as <-. simpl. lia.
  - vm_compute in Hr. discriminate.
Defined.

(** C9. On connector ids that all designate connectors of the station,
    [changeAvailability] records [Scheduled] for each connector with an
    active transaction and [Accepted] for each one without; every connector
    listed gets the requested availability, and the requested status as well
    (with its notification sent) when it has no transaction; the other
    connectors are left as they were; the answer is [Scheduled] iff some
    connector listed has an active transaction, [Accepted] otherwise. *)
Theorem changeAvailability_scheduled_or_accepted
    (chargingStation : ChargingStation) (connectorIds : list Z)
    (chargePointStatus : ChargePointStatus) (availabilityType : AvailabilityType) :
  Forall (λ id, is_Some (getConnectorStatus chargingStation id)) connectorIds →
  ∃ chargingStation',
    changeAvailability chargingStation connectorIds chargePointStatus availabilityType
    = (Ok (if existsb (hasActiveTransaction chargingStation) connectorIds
           then AvailabilityScheduled else AvailabilityAccepted),
       chargingStation')
    ∧ changeAvailability_loop connectorIds chargePointStatus availabilityType
        chargingStation []
      = (Ok ((λ id, if hasActiveTransaction chargingStation id
                    then AvailabilityScheduled else AvailabilityAccepted)
               <$> connectorIds),
         chargingStation')
    ∧ (∀ id c, id ∈ connectorIds → getConnectorStatus chargingStation id = Some c →
         ∃ c', getConnectorStatus chargingStation' id = Some c'
               ∧ availability c' = availabilityType
               ∧ status c' = (if transactionActive c then status c
                              else Some chargePointStatus)
               ∧ transactionStarted c' = transactionStarted c)
    ∧ (∀ id, id ∉ connectorIds →
         getConnectorStatus chargingStation' id = getConnectorStatus chargingStation id)
    ∧ sentStatusNotifications chargingStation'
      = sentStatusNotifications chargingStation
        ++ ((λ id, (id, chargePointStatus))
              <$> filter (λ id, hasActiveTransaction chargingStation id = false)
                    connectorIds).
Proof.
  intros F.
  exists (foldl (turn chargePointStatus availabilityType) chargingStation connectorIds).
  pose proof (changeAvailability_loop_run chargePointStatus availabilityType
                connectorIds chargingStation [] F) as R.
  cbn [app] in R.
  split; [|split; [|split; [|split]]].
  - unfold changeAvailability. rewrite R.
    now rewrite includesScheduled_responses.
  - rewrite R. do 2 f_equal. apply list_fmap_ext. intros i id _.
    apply responseOf_hasActiveTransaction.
  - intros id c Hin Hc. rewrite foldl_turn_lookup, decide_True by assumption.
    rewrite Hc. simpl. eexists. split; [reflexivity|].
    unfold changedConnector. now destruct (transactionActive c).
  - intros id Hin. now rewrite foldl_turn_lookup, decide_False by assumption.
  - apply foldl_turn_notifications.
Qed.

(** C9, on a station where connector 1 is charging and connector 2 is idle:
    the answer is [Scheduled]. *)
Lemma changeAvailability_scheduled_or_accepted_busy_and_idle :
  ∃ chargingStation',
    changeAvailability Session.busyAndIdle [1; 2] Unavailable Inoperative
    = (Ok AvailabilityScheduled, chargingStation')
    ∧ changeAvailability_loop [1; 2] Unavailable Inoperative Session.busyAndIdle []
      = (Ok [AvailabilityScheduled; AvailabilityAccepted], chargingStation').
Proof.
  destruct (changeAvailability_scheduled_or_accepted Session.busyAndIdle [1; 2]
              Unavailable Inoperative) as (st' & E1 & E2 & _).
  - repeat constructor; vm_compute; eauto.
  - exists st'. split; [exact E1|exact E2].
Defined.

(** * Main results: the meter-value synthesizer *)

(** C5. [buildMeterValue] raises the OCPP [InternalError] bound to
    [MeterValues] when a power, current or energy template resolves and the
    power divider is undefined or not positive, and when a power or current
    template resolves and the current type is neither AC nor DC; when the
    power divider is a positive integer and the current type is known, it
    returns a meter value. *)
Theorem buildMeterValue_internal_error_branches
    (env : Collaborators) (st : ChargingStation)
    (connectorId transactionId' interval : Z) (debug : bool) :
  let resolved measurand :=
    is_Some (getSampledValueTemplate env st connectorId measurand None) in
  let raisesInternalError :=
    ∃ s, buildMeterValue env st connectorId transactionId' interval debug
         = (Throw (OCPPError InternalError METER_VALUES), s) in
  (resolved (Some POWER_ACTIVE_IMPORT) ∨ resolved (Some CURRENT_IMPORT) ∨ resolved None →
   powerDivider st = None ∨ (∃ d, powerDivider st = Some d ∧ d <= 0) →
   raisesInternalError)
  ∧ (resolved (Some POWER_ACTIVE_IMPORT) ∨ resolved (Some CURRENT_IMPORT) →
     currentOutType (stationInfo st) = None →
     raisesInternalError)
  ∧ ((∃ d, powerDivider st = Some d ∧ 0 < d) →
     currentOutType (stationInfo st) = Some AC ∨ currentOutType (stationInfo st) = Some DC →
     ∃ mv s, buildMeterValue env st connectorId transactionId' interval debug = (Ok mv, s)).
Proof.
  intros resolved raisesInternalError. split; [|split].
  - intros Hres Hd.
    destruct (measurands_throw_divider env connectorId transactionId' interval debug st
                Hres Hd) as [s E].
    exists s. now apply buildMeterValue_throws.
  - intros Hres Hc.
    destruct (measurands_throw_currentOutType env connectorId transactionId' interval debug
                st Hres Hc) as [s E].
    exists s. now apply buildMeterValue_throws.
  - intros Hd Hc.
    destruct (total_measurands env connectorId transactionId' interval debug
                (initialSynth st) (conj Hd Hc)) as ([] & s & E & _).
    eexists _, s. unfold buildMeterValue. now rewrite E.
Qed.

(** C5, on the single-phase station of scenario S1: with its power divider
    of 1 a meter value is returned; without a power divider the call
    raises. *)
Lemma buildMeterValue_internal_error_branches_S1 :
  (∃ mv s, buildMeterValue (Meter.env [Meter.energyTemplate] 7360 (1 # 2))
             (Meter.station 0 0) 1 42 60000 false = (Ok mv, s))
  ∧ (∃ s, buildMeterValue (Meter.env [Meter.energyTemplate] 7360 (1 # 2))
            (Meter.stationWithoutDivider 0 0) 1 42 60000 false
          = (Throw (OCPPError InternalError METER_VALUES), s)).
Proof.
  split.
  - apply (proj2 (proj2 (buildMeterValue_internal_error_branches
                           (Meter.env [Meter.energyTemplate] 7360 (1 # 2))
                           (Meter.station 0 0) 1 42 60000 false))).
    + exists 1. split; [reflexivity|lia].
    + left. reflexivity.
  - apply (proj1 (buildMeterValue_internal_error_branches
                    (Meter.env [Meter.energyTemplate] 7360 (1 # 2))
                    (Meter.stationWithoutDivider 0 0) 1 42 60000 false)).
    + right. right. vm_compute. eauto.
    + left. reflexivity.
Defined.

(** C6 (as amended). When [buildMeterValue] returns and the energy template
    resolves on a connector whose two registers are defined and
    non-negative, the call updates both registers with [+=] and the same
    increment: each register becomes the sum that the addition of JavaScript
    numbers gives for what it held and the increment.  The increment is the
    one that the last draw [u] of the call gives: without a literal value,
    between the rounded minimum value and the rounded maximum energy of the
    interval; with a literal value, the limited literal fluctuated by the
    fluctuation percent; rounded to 2 decimals.  The energy sample emitted
    last is the register read by [getEnergyActiveImportRegisterByTransactionId]
    after the update, divided by the unit divider and rounded to 2 decimals.
    The increment is non-negative, and neither register decreases, when the
    minimum value of the template is absent or non-negative, the draw lies
    in [[0, 1]], a literal value is non-negative (or limited) with a
    fluctuation percent within [[-100, 100]], without a literal value the
    power available times the interval is non-negative, and adding a
    non-negative number never gives less than the other operand. *)
Theorem buildMeterValue_energy_registers
    (env : Collaborators) (st : ChargingStation)
    (connectorId transactionId' interval : Z) (debug : bool)
    (mv : MeterValue) (s : Synth) (t : SampledValueTemplate) (c : ConnectorStatus)
    (energy transactionEnergy : Q) :
  buildMeterValue env st connectorId transactionId' interval debug = (Ok mv, s) →
  getSampledValueTemplate env st connectorId None None = Some t →
  getConnectorStatus st connectorId = Some c →
  energyActiveImportRegisterValue c = Some energy →
  transactionEnergyActiveImportRegisterValue c = Some transactionEnergy →
  (0 <= energy)%Q → (0 <= transactionEnergy)%Q →
  let u := random env (Nat.pred (drawn s)) in
  let power := getConnectorMaximumAvailablePower env st connectorId in
  let maximum := roundTo (power * inject_Z interval / inject_Z (3600 * 1000))%Q 2 in
  let minimum := roundTo (orElse (template_minimumValue t) 0%Q) 2 in
  let percent := orElse (template_fluctuationPercent t) DEFAULT_FLUCTUATION_PERCENT in
  let limitation := customValueLimitationMeterValues (stationInfo st) in
  let increment :=
    match template_value t with
    | None => roundTo (minimum + u * (maximum - minimum))%Q 2
    | Some literal =>
        let raw := (literal * unitDividerOf t)%Q in
        let limited :=
          if limitation && (Qltb raw minimum || Qltb maximum raw) then minimum else raw in
        roundTo (limited * (1 - percent / 100)
                 + u * (limited * (1 + percent / 100)
                        - limited * (1 - percent / 100)))%Q 2
    end in
  ∃ c',
    getConnectorStatus (chargingStation s) connectorId = Some c'
    ∧ energyActiveImportRegisterValue c' = Some (Number_add env energy increment)
    ∧ transactionEnergyActiveImportRegisterValue c'
      = Some (Number_add env transactionEnergy increment)
    ∧ (∃ before,
         sampledValue mv
         = before
           ++ [buildSampledValue t
                 (Some (roundTo (getEnergyActiveImportRegisterByTransactionId env
                                   (chargingStation s) transactionId'
                                 / unitDividerOf t) 2))
                 None None])
    ∧ ((0 <= orElse (template_minimumValue t) 0)%Q →
       (0 <= u)%Q → (u <= 1)%Q →
       (template_value t = None → (0 <= power * inject_Z interval)%Q) →
       (∀ literal, template_value t = Some literal →
          ((0 <= literal)%Q ∨ limitation = true)
          ∧ (-(100) <= percent)%Q ∧ (percent <= 100)%Q) →
       (∀ x y, (0 <= y)%Q → (x <= Number_add env x y)%Q) →
       (0 <= increment)%Q
       ∧ (energy <= Number_add env energy increment)%Q
       ∧ (transactionEnergy <= Number_add env transactionEnergy increment)%Q).
Proof.
  intros E Ht Hc He Hte Pe Pte u power maximum minimum percent limitation increment.
  apply buildMeterValue_inv in E as [E ->].
  apply measurands_inv in E as (s4 & _ & S4 & E).
  rewrite <- S4 in Ht, Hc.
  destruct (energyMeasurand_run env connectorId transactionId' interval debug
              s4 t c s Ht Hc E) as (Hst & Hd & Hsv).
  assert (Hinc : energyValueOf env connectorId interval (chargingStation s4) t
                   (random env (drawn s4)) = increment).
  { unfold increment, energyValueOf, u. rewrite Hd. cbn [Nat.pred].
    unfold maximumEnergy, minimumEnergy, fluctuationOf,
      getLimitFromSampledValueTemplateCustomValue.
    rewrite S4. fold power maximum minimum percent limitation.
    destruct (template_value t) as [literal|]; [|reflexivity].
    cbv zeta. apply roundTo_comp. field. }
  rewrite Hinc in Hst.
  exists (persistEnergy env increment c).
  rewrite Hst at 1. rewrite getConnectorStatus_set.
  rewrite (persistEnergy_adds env increment c energy transactionEnergy He Hte Pe Pte).
  split; [reflexivity|]. split; [reflexivity|]. split; [reflexivity|].
  split; [exact Hsv|].
  intros Hmin Hu0 Hu1 Hpow Hlit Hadd.
  assert (Pmin : (0 <= minimum)%Q) by now apply roundTo_nonneg.
  assert (Hpos : (0 <= increment)%Q).
  { unfold increment. destruct (template_value t) as [literal|].
    - destruct (Hlit literal eq_refl) as (Hl & Hp1 & Hp2).
      cbv zeta. apply roundTo_nonneg. apply fluctuated_nonneg; try assumption.
      assert (Pd : (0 < unitDividerOf t)%Q).
      { unfold unitDividerOf. destruct (template_unit t) as [[]|]; reflexivity. }
      destruct (limitation && _) eqn:L; [exact Pmin|].
      destruct Hl as [Hl|Hl]; [nra|].
      rewrite Hl in L. cbn [andb] in L.
      apply orb_false_iff in L as [L _]. unfold Qltb in L.
      apply negb_false_iff, Qle_bool_iff in L. lra.
    - apply roundTo_nonneg. apply mix_nonneg; try assumption.
      apply roundTo_nonneg.
      apply Qle_shift_div_l; [reflexivity|].
      rewrite Qmult_0_l. now apply Hpow. }
  split; [exact Hpos|]. split; now apply Hadd.
Qed.

(** C6, on scenario S1, with the exact sum for [Number_add]: from registers
    100 and 40, without a literal value, the draw 1/2 takes half of the
    122.67 Wh that 7360 W deliver in 60 s, 61.34 Wh, and leaves 161.34 and
    101.34; with the literal value 30 Wh fluctuated by 5 %, it takes 30 Wh
    and leaves 130 and 70.  Neither register has decreased. *)
Lemma buildMeterValue_energy_registers_S1 :
  (∃ mv s c',
     buildMeterValue (Meter.env [Meter.energyTemplate] 7360 (1 # 2))
       (Meter.station 100 40) 1 42 60000 false = (Ok mv, s)
     ∧ getConnectorStatus (chargingStation s) 1 = Some c'
     ∧ energyActiveImportRegisterValue c' = Some (16134 # 100)%Q
     ∧ transactionEnergyActiveImportRegisterValue c' = Some (10134 # 100)%Q
     ∧ (100 <= 16134 # 100)%Q ∧ (40 <= 10134 # 100)%Q)
  ∧ (∃ mv s c',
       buildMeterValue (Meter.env [Meter.energyLiteral30] 7360 (1 # 2))
         (Meter.station 100 40) 1 42 60000 false = (Ok mv, s)
       ∧ getConnectorStatus (chargingStation s) 1 = Some c'
       ∧ energyActiveImportRegisterValue c' = Some (13000 # 100)%Q
       ∧ transactionEnergyActiveImportRegisterValue c' = Some (7000 # 100)%Q
       ∧ (100 <= 13000 # 100)%Q ∧ (40 <= 7000 # 100)%Q).
Proof.
  split.
  - destruct (buildMeterValue (Meter.env [Meter.energyTemplate] 7360 (1 # 2))
                (Meter.station 100 40) 1 42 60000 false) as [[mv|e] s] eqn:E;
      [|vm_compute in E; discriminate].
    destruct (buildMeterValue_energy_registers _ _ _ _ _ _ mv s Meter.energyTemplate
                (Meter.connector 100 40) 100%Q 40%Q E eq_refl eq_refl eq_refl eq_refl)
      as (c' & H1 & H2 & H3 & _ & H5); [discriminate|discriminate|].
    exists mv, s, c'.
    split; [reflexivity|]. split; [exact H1|]. split; [exact H2|]. split; [exact H3|].
    destruct H5 as (_ & G1 & G2); [discriminate|discriminate|discriminate| | | |].
    + intros _. discriminate.
    + intros literal H. discriminate H.
    + intros x y Hy. simpl. lra.
    + split; [exact G1|exact G2].
  - destruct (buildMeterValue (Meter.env [Meter.energyLiteral30] 7360 (1 # 2))
                (Meter.station 100 40) 1 42 60000 false) as [[mv|e] s] eqn:E;
      [|vm_compute in E; discriminate].
    destruct (buildMeterValue_energy_registers _ _ _ _ _ _ mv s Meter.energyLiteral30
                (Meter.connector 100 40) 100%Q 40%Q E eq_refl eq_refl eq_refl eq_refl)
      as (c' & H1 & H2 & H3 & _ & H5); [discriminate|discriminate|].
    exists mv, s, c'.
    split; [reflexivity|]. split; [exact H1|]. split; [exact H2|]. split; [exact H3|].
    destruct H5 as (_ & G1 & G2); [discriminate|discriminate|discriminate| | | |].
    + intros H. discriminate H.
    + intros literal [= <-]. split; [left; discriminate|]. split; discriminate.
    + intros x y Hy. simpl. lra.
    + split; [exact G1|exact G2].
Defined.

(** C6 as stated fails when the energy template has a negative minimum
    value: from registers 100 and 40, with no power available and the draw
    0, the call leaves 50 and -10.  It fails as well when the template has a
    negative literal value: with -20 Wh and no fluctuation, the call leaves
    80 and 20. *)
Lemma buildMeterValue_energy_register_decreases :
  let decreases (templates : list SampledValueTemplate) (power u : Q) :=
    ∃ mv s c',
      buildMeterValue (Meter.env templates power u) (Meter.station 100 40) 1 42 60000 false
      = (Ok mv, s)
      ∧ getConnectorStatus (chargingStation s) 1 = Some c'
      ∧ (∃ r, energyActiveImportRegisterValue c' = Some r ∧ (r < 100)%Q)
      ∧ (∃ r, transactionEnergyActiveImportRegisterValue c' = Some r ∧ (r < 40)%Q) in
  decreases [Meter.energyNegativeMinimum] 0%Q 0%Q
  ∧ decreases [Meter.energyNegativeLiteral] 7360%Q (1 # 2)%Q.
Proof.
  split;
    (eexists _, _, _; split; [vm_compute; reflexivity|];
     split; [vm_compute; reflexivity|];
     split; eexists; (split; [reflexivity|reflexivity])).
Qed.

(** C7 (as amended). When [buildMeterValue] returns and the SoC template
    carries no literal value, has a minimum value that is absent or within
    [[0, 100]], and the draw lies in [[0, 1)], the first sampled value is the
    SoC, and [minimum ≤ value ≤ 100].  When the template carries a literal
    value, the SoC emitted is the fluctuated literal, as it is; when it is
    out of [[minimum, 100]] an error is logged, and the value is emitted all
    the same. *)
Theorem buildMeterValue_soc_bounds
    (env : Collaborators) (st : ChargingStation)
    (connectorId transactionId' interval : Z) (debug : bool)
    (mv : MeterValue) (s : Synth) (t : SampledValueTemplate) :
  buildMeterValue env st connectorId transactionId' interval debug = (Ok mv, s) →
  getSampledValueTemplate env st connectorId (Some STATE_OF_CHARGE) None = Some t →
  let minimum := orElse (template_minimumValue t) 0%Q in
  (template_value t = None →
   (0 <= minimum)%Q → (minimum <= 100)%Q →
   (0 <= random env 0)%Q → (random env 0 < 1)%Q →
   ∃ v rest,
     sampledValue mv = buildSampledValue t (Some v) None None :: rest
     ∧ (0 <= v)%Q ∧ (minimum <= v)%Q ∧ (v <= 100)%Q)
  ∧ (∀ literal,
       template_value t = Some literal →
       let v := socFluctuated t literal (random env 0) in
       ∃ rest,
         sampledValue mv = buildSampledValue t (Some v) None None :: rest
         ∧ (Qltb 100 (parseInt v) || Qltb (parseInt v) minimum = true →
            OutOfRange (template_measurand t) (template_phase t) minimum (parseInt v) 100
            ∈ logged s)).
Proof.
  intros E Ht minimum.
  apply buildMeterValue_inv in E as [E ->]. cbn [sampledValue].
  apply measurands_soc_first in E as (s1 & E1 & [l Hl] & [l' Hl']).
  split.
  - intros Hv Hmin0 Hmin1 Hu0 Hu1.
    destruct (socMeasurand_random env connectorId debug (initialSynth st) t Ht Hv)
      as (s1' & E1' & Hs).
    rewrite E1 in E1'. injection E1' as <-.
    destruct (socDraw_range minimum (random env 0) Hu0 Hu1 Hmin1) as [B1 B2].
    eexists _, l. rewrite Hl, Hs. split; [reflexivity|].
    fold minimum. cbn [drawn initialSynth]. split; [|split]; try assumption. lra.
  - intros literal Hv.
    destruct (socMeasurand_literal env connectorId debug (initialSynth st) t literal Ht Hv)
      as (s1' & E1' & Hs & Hlog).
    rewrite E1 in E1'. injection E1' as <-.
    exists l. rewrite Hl, Hs. split; [reflexivity|].
    intros Hout. rewrite Hl', (Hlog Hout). cbn [logged initialSynth app].
    apply list_elem_of_In. left. reflexivity.
Qed.

(** C7, with a SoC template that carries no literal value: the value drawn
    lies in [[0, 100]]. *)
Lemma buildMeterValue_soc_bounds_random :
  ∃ mv s v rest,
    buildMeterValue (Meter.env [Meter.socRandom; Meter.energyTemplate] 7360 (1 # 2))
      (Meter.station 0 0) 1 42 60000 false = (Ok mv, s)
    ∧ sampledValue mv = buildSampledValue Meter.socRandom (Some v) None None :: rest
    ∧ (0 <= v)%Q ∧ (v <= 100)%Q.
Proof.
  destruct (buildMeterValue (Meter.env [Meter.socRandom; Meter.energyTemplate] 7360 (1 # 2))
              (Meter.station 0 0) 1 42 60000 false) as [[mv|e] s] eqn:E;
    [|vm_compute in E; discriminate].
  destruct (proj1 (buildMeterValue_soc_bounds _ _ _ _ _ _ mv s Meter.socRandom E eq_refl)
              eq_refl) as (v & rest & Hsv & B0 & _ & B1).
  - discriminate.
  - discriminate.
  - discriminate.
  - reflexivity.
  - exists mv, s, v, rest. repeat split; assumption.
Defined.

(** C7 as stated fails on a SoC template with the literal value 150 and no
    fluctuation: the SoC emitted is 150. *)
Lemma buildMeterValue_soc_above_100 :
  ∃ mv s sv rest v,
    buildMeterValue (Meter.env [Meter.socLiteral150; Meter.energyTemplate] 7360 (1 # 2))
      (Meter.station 0 0) 1 42 60000 false = (Ok mv, s)
    ∧ sampledValue mv = sv :: rest
    ∧ sampled_measurand sv = Some STATE_OF_CHARGE
    ∧ sampled_value sv = Some v
    ∧ (100 < v)%Q.
Proof.
  eexists _, _, _, _, _. split; [vm_compute; reflexivity|].
  split; [reflexivity|]. split; [reflexivity|]. split; reflexivity.
Qed.

(** * Further results: the projection of one schedule *)

(** X1. On a schedule whose start and duration are defined, with a
    non-negative duration, and a composite interval whose start is not after
    its end, all four end points being valid dates (time values of at most
    8.64e15 ms in magnitude), [composeChargingSchedule] returns; it returns
    undefined exactly when the two intervals do not overlap (intervals that
    only touch do not overlap), and then it leaves the heap as it was. *)
Theorem composeChargingSchedule_undefined_iff_disjoint
    (s : ChargingSchedule) (I ci : Interval) (h : Heap) :
  scheduleInterval s = Ok ci → validInterval ci = true → validInterval I = true →
  ∃ o h',
    composeChargingSchedule s I h = (Ok o, h')
    ∧ (o = None ↔ end_ I <= start ci ∨ end_ ci <= start I)
    ∧ (o = None → h' = h).
Proof.
  intros Hci V1 V2.
  pose proof (overlapping_of_valid I ci V1 V2) as Ho.
  destruct ((start ci <? end_ I) && (start I <? end_ ci)) eqn:B.
  - destruct (compose_overlapping_some s I ci h Hci Ho) as (r & h' & E).
    exists (Some r), h'. split; [exact E|]. split; [|discriminate].
    split; [discriminate|]. apply andb_true_iff in B as [B1 B2]. lia.
  - exists None, h. split; [exact (compose_disjoint s I ci h Hci Ho)|].
    split; [|reflexivity]. split; [|reflexivity]. intros _.
    apply andb_false_iff in B as [B|B]; lia.
Qed.

(** X1, on the higher schedule of scenario S5 and a composite interval that
    starts when the schedule ends. *)
Lemma composeChargingSchedule_undefined_iff_disjoint_touching :
  ∃ o h',
    composeChargingSchedule S5.higher {| start := 300000; end_ := 600000 |} S5.heap
    = (Ok o, h')
    ∧ (o = None ↔ 600000 <= 0 ∨ 300000 <= 300000)
    ∧ (o = None → h' = S5.heap).
Proof.
  exact (composeChargingSchedule_undefined_iff_disjoint
           S5.higher {| start := 300000; end_ := 600000 |} S5Facts.higherInterval S5.heap
           eq_refl eq_refl eq_refl).
Defined.

(** X2. The projection returned by [composeChargingSchedule] starts at the
    later of the two starts and does not end after the schedule does.  It
    ends within the composite interval when the schedule does not start
    before it; when the start is clipped the end is that of the schedule, to
    the second, wherever the composite interval ends. *)
Theorem composeChargingSchedule_interval
    (s r : ChargingSchedule) (I ci : Interval) (h h' : Heap) :
  composeChargingSchedule s I h = (Ok (Some r), h') →
  scheduleInterval s = Ok ci →
  ∃ ri,
    scheduleInterval r = Ok ri
    ∧ start ri = Z.max (start ci) (start I)
    ∧ start ri <= end_ ri ∧ end_ ri <= end_ ci
    ∧ (start I <= start ci → end_ ri <= end_ I)
    ∧ (start ci < start I → end_ ci - 1000 < end_ ri).
Proof.
  intros E Hci. pose proof (composeChargingSchedule_inv _ _ _ _ _ E) as P.
  destruct (projection_interval s I h r h' ci P Hci) as (ri & Hri & B1 & B2 & B3 & B4).
  exists ri. repeat (split; [assumption|]).
  intros Hlt.
  destruct P as [ci' Hci' Ho Hb|ci' Hci' Ho Hb Ha|ci' Hci' Ho Hb Ha];
    rewrite Hci in Hci'; injection Hci' as <-; unfold isBefore in Hb; try lia.
  injection Hri as <-. cbn [start end_]. unfold addSeconds, differenceInSeconds.
  unfold areIntervalsOverlapping in Ho.
  destruct (validInterval ci && validInterval I); [|discriminate].
  injection Ho as Ho. apply andb_true_iff in Ho as [_ O2].
  pose proof (Z.quot_rem' (end_ ci - start I) 1000).
  pose proof (Z.rem_bound_pos (end_ ci - start I) 1000 ltac:(lia) ltac:(lia)). lia.
Qed.

(** X2, on a schedule of 1000 s that covers the composite interval
    [[100 s, 200 s]] on both sides: the projection runs from 100 s to
    1000 s. *)
Lemma composeChargingSchedule_interval_covering :
  ∃ ri,
    scheduleInterval Covering.projected = Ok ri
    ∧ start ri = Z.max 0 100000
    ∧ start ri <= end_ ri ∧ end_ ri <= 1000000
    ∧ (100000 <= 0 → end_ ri <= 200000)
    ∧ (0 < 100000 → 1000000 - 1000 < end_ ri).
Proof.
  exact (composeChargingSchedule_interval
           Covering.schedule Covering.projected Covering.compositeInterval
           {| start := 0; end_ := 1000000 |} Covering.heap Covering.heapAfter
           Covering.run_covering eq_refl).
Defined.

(** X3. When the schedule does not start before the composite interval, the
    projection writes no period object, and its periods are the periods of
    the schedule sorted by [startPeriod]: all of them when the schedule ends
    within the composite interval, those that start within the composite
    interval when its end is clipped. *)
Theorem composeChargingSchedule_not_clipped_at_start
    (s r : ChargingSchedule) (I ci : Interval) (h h' : Heap) :
  composeChargingSchedule s I h = (Ok (Some r), h') →
  scheduleInterval s = Ok ci →
  start I <= start ci →
  periods h' = periods h
  ∧ periodsOf h' r
    = if end_ I <? end_ ci
      then filter (λ p, instantWithin (start ci) I p = true) (sortPeriods (periodsOf h s))
      else sortPeriods (periodsOf h s).
Proof.
  intros E Hci Hle. apply composeChargingSchedule_inv in E.
  assert (Hb : isBefore (start ci) (start I) = false)
    by (unfold isBefore; apply Z.ltb_ge; exact Hle).
  split.
  - exact (projection_periods_kept s I h r h' ci E Hci Hb).
  - exact (periodsOf_projection_not_before s I h r h' ci E Hci Hb).
Qed.

(** X3, on the higher schedule of scenario S5, clipped at 100 s: the period
    that starts at 150 s is dropped. *)
Lemma composeChargingSchedule_not_clipped_at_start_S5 :
  ∃ r h',
    composeChargingSchedule S5.higher {| start := 0; end_ := 100000 |} S5.heap
    = (Ok (Some r), h')
    ∧ periods h' = periods S5.heap
    ∧ periodsOf h' r = [S5Facts.period 0 10].
Proof.
  destruct (composeChargingSchedule S5.higher {| start := 0; end_ := 100000 |} S5.heap)
    as [[[r|]|e] h'] eqn:E; try (vm_compute in E; discriminate).
  destruct (composeChargingSchedule_not_clipped_at_start
              S5.higher r {| start := 0; end_ := 100000 |} S5Facts.higherInterval
              S5.heap h' E eq_refl) as [H1 H2].
  - simpl. lia.
  - exists r, h'. split; [reflexivity|]. split; [exact H1|]. rewrite H2.
    vm_compute. reflexivity.
Defined.

(** X4. When the schedule starts before the composite interval and none of
    its periods starts within the composite interval, the projection is
    returned with no period at all: the period in force when the composite
    interval starts is not kept. *)
Theorem composeChargingSchedule_clipped_start_without_periods
    (s r : ChargingSchedule) (I ci : Interval) (h h' : Heap) :
  heap_wf h →
  composeChargingSchedule s I h = (Ok (Some r), h') →
  scheduleInterval s = Ok ci →
  start ci < start I →
  Forall (λ p, instantWithin (start ci) I p = false) (periodsOf h s) →
  periodsOf h' r = [].
Proof.
  intros W E Hci Hlt F. apply composeChargingSchedule_inv in E.
  assert (Hb : isBefore (start ci) (start I) = true)
    by (unfold isBefore; apply Z.ltb_lt; exact Hlt).
  rewrite (periodsOf_projection_before s I h r h' ci W E Hci Hb).
  rewrite keptRec_none; [reflexivity|].
  apply Forall_forall. intros p Hp. apply elem_of_sort_by in Hp.
  rewrite withinB_instantWithin.
  rewrite Forall_forall in F. apply F.
  unfold periodsOf. apply list_elem_of_fmap. now exists p.
Qed.

(** X4, on a schedule of 1000 s with the single period [(0, 32 A)], projected
    on [[100 s, 200 s]]. *)
Lemma composeChargingSchedule_clipped_start_without_periods_single :
  periodsOf Covering.heapAfter Covering.projected = [].
Proof.
  apply (composeChargingSchedule_clipped_start_without_periods
           Covering.schedule Covering.projected Covering.compositeInterval
           {| start := 0; end_ := 1000000 |} Covering.heap Covering.heapAfter
           Covering.heap_wf_covering Covering.run_covering eq_refl).
  - simpl. lia.
  - repeat constructor.
Defined.

(** X5. When the schedule starts before the composite interval, the first
    period of the projection has [startPeriod = 0] and the limit of a period
    of the schedule; every other period of the projection is a period of the
    schedule, as it was, that starts within the composite interval. *)
Theorem composeChargingSchedule_clipped_start_periods
    (s r : ChargingSchedule) (I ci : Interval) (h h' : Heap)
    (first : ChargingSchedulePeriod) (rest : list ChargingSchedulePeriod) :
  heap_wf h →
  composeChargingSchedule s I h = (Ok (Some r), h') →
  scheduleInterval s = Ok ci →
  start ci < start I →
  periodsOf h' r = first :: rest →
  startPeriod first = 0
  ∧ (∃ q, q ∈ periodsOf h s ∧ sameLimit first q)
  ∧ Forall (λ p, p ∈ periodsOf h s ∧ instantWithin (start ci) I p = true) rest.
Proof.
  intros W E Hci Hlt Hr. apply composeChargingSchedule_inv in E.
  assert (Hb : isBefore (start ci) (start I) = true)
    by (unfold isBefore; apply Z.ltb_lt; exact Hlt).
  rewrite (periodsOf_projection_before s I h r h' ci W E Hci Hb) in Hr.
  set (l := sort_by (startPeriodOf h) (array h (chargingSchedulePeriod s))) in *.
  assert (S : sorted_by (startPeriodOf h) l) by apply sort_by_sorted.
  assert (T : match keptRec (withinB h (start ci) I) l with
              | [] => True
              | _ :: tl => Forall (λ p, withinB h (start ci) I p = true) tl
              end)
    by exact (keptRec_tail_within (startPeriodOf h) (start ci) I l S).
  pose proof (keptRec_sublist (withinB h (start ci) I) l) as Sub.
  assert (In_s : ∀ p, p ∈ keptRec (withinB h (start ci) I) l → deref h p ∈ periodsOf h s).
  { intros p Hp. unfold periodsOf. apply list_elem_of_fmap. exists p. split; [reflexivity|].
    apply (elem_of_sort_by (startPeriodOf h)). fold l.
    eapply elem_of_sublist; [exact Hp|exact Sub]. }
  destruct (keptRec (withinB h (start ci) I) l) as [|k tl]; [discriminate|].
  injection Hr as <- <-. split; [reflexivity|]. split.
  - exists (deref h k). split; [apply In_s; left|]. split; reflexivity.
  - apply Forall_fmap. apply Forall_forall. intros p Hp. cbn [compose].
    split.
    + apply In_s. now right.
    + rewrite Forall_forall in T. exact (T p Hp).
Qed.

(** X5, on the schedule [(0, 32 A), (100, 20 A), (250, 16 A)] of 400 s
    projected on [[150 s, 600 s]]: the projection is
    [(0, 20 A), (250, 16 A)]. *)
Lemma composeChargingSchedule_clipped_start_periods_example :
  startPeriod (S5Facts.period 0 20) = 0
  ∧ (∃ q, q ∈ periodsOf ClippedStart.heap ClippedStart.schedule
          ∧ sameLimit (S5Facts.period 0 20) q)
  ∧ Forall (λ p, p ∈ periodsOf ClippedStart.heap ClippedStart.schedule
                 ∧ instantWithin 0 ClippedStart.compositeInterval p = true)
      [S5Facts.period 250 16].
Proof.
  apply (composeChargingSchedule_clipped_start_periods
           ClippedStart.schedule ClippedStart.projected ClippedStart.compositeInterval
           ClippedStart.scheduleInterval ClippedStart.heap ClippedStart.heapAfter
           (S5Facts.period 0 20) [S5Facts.period 250 16]
           ClippedStart.heap_wf_clipped ClippedStart.run_clipped eq_refl).
  - simpl. lia.
  - reflexivity.
Defined.

(** * Further results: the composition of two schedules *)

(** X6. When both schedules are given and one of them does not overlap the
    composite interval, so that its projection is undefined,
    [composeChargingSchedules] throws a [TypeError] (it reads [startSchedule]
    of the undefined projection) instead of returning the projection of the
    other schedule; what the two projections did to the heap stays. *)
Theorem composeChargingSchedules_throws_on_undefined_projection
    (higher lower : ChargingSchedule) (I : Interval) (h0 h1 h2 : Heap)
    (projectedHigher projectedLower : option ChargingSchedule) :
  composeChargingSchedule higher I h0 = (Ok projectedHigher, h1) →
  composeChargingSchedule lower I h1 = (Ok projectedLower, h2) →
  projectedHigher = None ∨ projectedLower = None →
  composeChargingSchedules (Some higher) (Some lower) I h0 = (Throw TypeError, h2).
Proof.
  intros Hh Hl N. unfold composeChargingSchedules.
  rewrite (bind_ok _ _ _ _ _ Hh), (bind_ok _ _ _ _ _ Hl).
  destruct projectedHigher as [ph|]; [|reflexivity].
  destruct N as [N|N]; [discriminate|]. subst projectedLower. reflexivity.
Qed.

(** X6, on the schedules of scenario S5 and the composite interval
    [[300 s, 600 s]], which the higher schedule only touches. *)
Lemma composeChargingSchedules_throws_on_undefined_projection_S5 :
  ∃ h2,
    composeChargingSchedules (Some S5.higher) (Some S5.lower)
      {| start := 300000; end_ := 600000 |} S5.heap
    = (Throw TypeError, h2).
Proof.
  eexists.
  eapply (composeChargingSchedules_throws_on_undefined_projection
            S5.higher S5.lower {| start := 300000; end_ := 600000 |} S5.heap).
  - vm_compute. reflexivity.
  - vm_compute. reflexivity.
  - left. reflexivity.
Defined.

(** X7. The schedule that [composeChargingSchedules] returns for two
    schedules starts at the earlier of the two projected starts; its
    duration runs, to the second, up to the end of the projection that
    starts later (whether or not the other one ends after it); its charging
    rate unit is that of the higher schedule. *)
Theorem composeChargingSchedules_span
    (higher lower r : ChargingSchedule) (I : Interval) (h h' : Heap) :
  composeChargingSchedules (Some higher) (Some lower) I h = (Ok (Some r), h') →
  ∃ ph pl h1 h2 ih il,
    composeChargingSchedule higher I h = (Ok (Some ph), h1)
    ∧ composeChargingSchedule lower I h1 = (Ok (Some pl), h2)
    ∧ scheduleInterval ph = Ok ih
    ∧ scheduleInterval pl = Ok il
    ∧ startSchedule r = Some (Z.min (start ih) (start il))
    ∧ duration r
      = Some (if start ih <? start il
              then differenceInSeconds (end_ il) (start ih)
              else differenceInSeconds (end_ ih) (start il))
    ∧ chargingRateUnit r = chargingRateUnit higher.
Proof.
  intros E.
  destruct (composeChargingSchedules_both_inv _ _ _ _ _ _ E)
    as (ph & pl & h1 & h2 & ih & il & o & Hh & Hl & Hih & Hil & _ & Hs & Hd & Hu).
  exists ph, pl, h1, h2, ih, il. repeat (split; [assumption|]).
  split; [|split].
  - rewrite Hs. f_equal. unfold isBefore.
    destruct (start ih <? start il) eqn:B; [apply Z.ltb_lt in B|apply Z.ltb_ge in B]; lia.
  - exact Hd.
  - rewrite Hu. apply (projection_unit higher I h ph h1).
    now apply composeChargingSchedule_inv.
Qed.

(** X7, on scenario S5: the result starts at [t0] and lasts 600 s. *)
Lemma composeChargingSchedules_span_S5 :
  ∃ ph pl h1 h2 ih il,
    composeChargingSchedule S5.higher S5.compositeInterval S5.heap = (Ok (Some ph), h1)
    ∧ composeChargingSchedule S5.lower S5.compositeInterval h1 = (Ok (Some pl), h2)
    ∧ scheduleInterval ph = Ok ih
    ∧ scheduleInterval pl = Ok il
    ∧ startSchedule S5Facts.resultSchedule = Some (Z.min (start ih) (start il))
    ∧ duration S5Facts.resultSchedule
      = Some (if start ih <? start il
              then differenceInSeconds (end_ il) (start ih)
              else differenceInSeconds (end_ ih) (start il))
    ∧ chargingRateUnit S5Facts.resultSchedule = chargingRateUnit S5.higher.
Proof.
  exact (composeChargingSchedules_span S5.higher S5.lower S5Facts.resultSchedule
           S5.compositeInterval S5.heap S5Facts.resultHeap S5Facts.result_eq).
Defined.

(** X8. When the two projections do not overlap, no period is dropped: the
    result holds a copy of every period of both projections, sorted by
    [startPeriod] (stably).  The periods of the projection that starts
    first are all copied with [startPeriod = 0]; those of the other one are
    shifted by the distance, in seconds, between the two starts. *)
Theorem composeChargingSchedules_disjoint_projections
    (higher lower ph pl : ChargingSchedule) (I ih il : Interval) (h0 h1 h2 : Heap) :
  heap_wf h0 →
  composeChargingSchedule higher I h0 = (Ok (Some ph), h1) →
  composeChargingSchedule lower I h1 = (Ok (Some pl), h2) →
  scheduleInterval ph = Ok ih →
  scheduleInterval pl = Ok il →
  areIntervalsOverlapping ih il = Ok false →
  ∃ r h3,
    composeChargingSchedules (Some higher) (Some lower) I h0 = (Ok (Some r), h3)
    ∧ periodsOf h3 r
      = sortPeriods
          (if start ih <? start il
           then shifted (λ _, 0) (periodsOf h2 ph)
                ++ shifted (λ startPeriod,
                              startPeriod + differenceInSeconds (start il) (start ih))
                     (periodsOf h2 pl)
           else shifted (λ startPeriod,
                           startPeriod + differenceInSeconds (start ih) (start il))
                  (periodsOf h2 ph)
                ++ shifted (λ _, 0) (periodsOf h2 pl)).
Proof.
  intros W0 Hh Hl Hih Hil Ho.
  assert (W2 : heap_wf h2).
  { eapply projection_wf; [|apply composeChargingSchedule_inv; exact Hl].
    eapply projection_wf; [exact W0|apply composeChargingSchedule_inv; exact Hh]. }
  exists (combinedSchedule h2 ph ih il), (disjointHeap h2 ph pl ih il).
  split.
  - eapply composeChargingSchedules_disjoint; eassumption.
  - rewrite periodsOf_disjoint by assumption.
    unfold shiftOfHigher, shiftOfLower, isBefore.
    now destruct (start ih <? start il).
Qed.

(** X8, on a higher schedule over [[0 s, 100 s]] with periods
    [(0, 10), (50, 6)] and a lower one over [[200 s, 300 s]] with the period
    [(0, 32)]: the result is [(0, 10), (0, 6), (200, 32)]. *)
Lemma composeChargingSchedules_disjoint_projections_apart :
  ∃ r h3,
    composeChargingSchedules (Some Apart.higher) (Some Apart.lower)
      Apart.compositeInterval Apart.heap = (Ok (Some r), h3)
    ∧ periodsOf h3 r = [S5Facts.period 0 10; S5Facts.period 0 6; S5Facts.period 200 32].
Proof.
  exact (composeChargingSchedules_disjoint_projections
           Apart.higher Apart.lower Apart.higher Apart.lower Apart.compositeInterval
           Apart.higherInterval Apart.lowerInterval Apart.heap Apart.heap Apart.heap
           Apart.heap_wf_apart Apart.project_higher_apart Apart.project_lower_apart
           eq_refl eq_refl eq_refl).
Defined.

(** X9. When the two projections overlap and the higher one does not start
    first, the result holds, sorted by [startPeriod] (stably): a copy of
    every period of the higher projection, shifted by the distance between
    the two starts; and a copy, with [startPeriod = 0], of every period of
    the lower projection that does not start within
    [[higher.start, lower.end]]. *)
Theorem composeChargingSchedules_overlap_lower_first
    (higher lower ph pl : ChargingSchedule) (I ih il : Interval) (h0 h1 h2 : Heap) :
  heap_wf h0 →
  composeChargingSchedule higher I h0 = (Ok (Some ph), h1) →
  composeChargingSchedule lower I h1 = (Ok (Some pl), h2) →
  scheduleInterval ph = Ok ih →
  scheduleInterval pl = Ok il →
  areIntervalsOverlapping ih il = Ok true →
  start il <= start ih →
  ∃ r h3,
    composeChargingSchedules (Some higher) (Some lower) I h0 = (Ok (Some r), h3)
    ∧ periodsOf h3 r
      = sortPeriods
          (shifted (λ startPeriod,
                      startPeriod + differenceInSeconds (start ih) (start il))
             (periodsOf h2 ph)
           ++ (with_startPeriod 0
                 <$> filter (λ p, instantWithin (start il)
                                    {| start := start ih; end_ := end_ il |} p = false)
                       (periodsOf h2 pl))).
Proof.
  intros W0 Hh Hl Hih Hil Ho Hle.
  assert (W2 : heap_wf h2).
  { eapply projection_wf; [|apply composeChargingSchedule_inv; exact Hl].
    eapply projection_wf; [exact W0|apply composeChargingSchedule_inv; exact Hh]. }
  assert (Hf : isBefore (start ih) (start il) = false)
    by (unfold isBefore; apply Z.ltb_ge; exact Hle).
  exists (combinedSchedule h2 ph ih il), (combinedHeap h2 ph pl ih il).
  split.
  - eapply composeChargingSchedules_overlapping; eassumption.
  - rewrite periodsOf_combined by assumption. do 2 f_equal.
    + unfold higherCopies. rewrite Hf. apply copies_shifted.
    + rewrite lowerCopies_lower_first by assumption.
      now rewrite survivors_lower_first.
Qed.

(** X9, on a lower schedule over [[0 s, 300 s]] with periods
    [(0, 32), (50, 20), (150, 16)] and a higher one over [[100 s, 400 s]]
    with periods [(0, 10), (100, 6)]: the result is
    [(0, 32), (0, 20), (100, 10), (200, 6)]. *)
Lemma composeChargingSchedules_overlap_lower_first_example :
  ∃ r h3,
    composeChargingSchedules (Some LowerFirst.higher) (Some LowerFirst.lower)
      LowerFirst.compositeInterval LowerFirst.heap = (Ok (Some r), h3)
    ∧ periodsOf h3 r
      = [S5Facts.period 0 32; S5Facts.period 0 20; S5Facts.period 100 10;
         S5Facts.period 200 6].
Proof.
  refine (composeChargingSchedules_overlap_lower_first
            LowerFirst.higher LowerFirst.lower LowerFirst.higher LowerFirst.lower
            LowerFirst.compositeInterval LowerFirst.higherInterval LowerFirst.lowerInterval
            LowerFirst.heap LowerFirst.heap LowerFirst.heap
            LowerFirst.heap_wf_lower_first LowerFirst.project_higher_lower_first
            LowerFirst.project_lower_lower_first eq_refl eq_refl eq_refl _).
  simpl. lia.
Defined.

(** X10. [composeChargingSchedules] invents no limit: whenever it returns a
    schedule, every period of it carries the limit and the number of phases
    of a period that one of the schedules passed in had before the call.
    (Only [startPeriod] is ever rewritten.) *)
Theorem composeChargingSchedules_keeps_limits
    (chargingScheduleHigher chargingScheduleLower : option ChargingSchedule)
    (I : Interval) (h h' : Heap) (r : ChargingSchedule) :
  heap_wf h →
  (∀ s, chargingScheduleHigher = Some s ∨ chargingScheduleLower = Some s →
        (chargingSchedulePeriod s < length (arrays h))%nat) →
  composeChargingSchedules chargingScheduleHigher chargingScheduleLower I h
  = (Ok (Some r), h') →
  Forall (λ p, ∃ q,
            (q ∈ from_option (periodsOf h) [] chargingScheduleHigher
             ∨ q ∈ from_option (periodsOf h) [] chargingScheduleLower)
            ∧ limit p = limit q ∧ numberPhases p = numberPhases q)
    (periodsOf h' r).
Proof.
  intros W L E.
  destruct chargingScheduleHigher as [higher|], chargingScheduleLower as [lower|];
    cbn [from_option].
  - destruct (composeChargingSchedules_both_inv _ _ _ _ _ _ E)
      as (ph & pl & h1 & h2 & ih & il & o & Hh & Hl & Hih & Hil & Ho & _).
    pose proof (composeChargingSchedule_inv _ _ _ _ _ Hh) as Ph.
    pose proof (composeChargingSchedule_inv _ _ _ _ _ Hl) as Pl.
    assert (W2 : heap_wf h2)
      by (eapply projection_wf; [eapply projection_wf; [exact W|exact Ph]|exact Pl]).
    assert (F : Forall (λ p, fromPeriodOf h higher p ∨ fromPeriodOf h lower p)
                  (periodsOf h' r)).
    { destruct o.
      - rewrite (composeChargingSchedules_overlapping higher lower ph pl I ih il h h1 h2
                   W2 Hh Hl Hih Hil Ho) in E.
        injection E as <- <-. rewrite periodsOf_combined by assumption.
        apply (combined_provenance higher lower ph pl I h h1 h2 Ph Pl
                 ltac:(auto) ltac:(auto) ih il); auto.
      - rewrite (composeChargingSchedules_disjoint higher lower ph pl I ih il h h1 h2
                   W2 Hh Hl Hih Hil Ho) in E.
        injection E as <- <-.
        rewrite (periodsOf_disjoint ph pl ih il h2 W2).
        apply (combined_provenance higher lower ph pl I h h1 h2 Ph Pl
                 ltac:(auto) ltac:(auto) ih il); auto. }
    eapply Forall_impl; [exact F|]. cbv beta.
    intros p [(q & Hq & SL)|(q & Hq & SL)]; exists q; destruct SL; auto.
  - apply composeChargingSchedule_inv in E.
    eapply Forall_impl; [exact (projection_provenance _ _ _ _ _ E)|]. cbv beta.
    intros p (q & Hq & SL). exists q. destruct SL. auto.
  - apply composeChargingSchedule_inv in E.
    eapply Forall_impl; [exact (projection_provenance _ _ _ _ _ E)|]. cbv beta.
    intros p (q & Hq & SL). exists q. destruct SL. auto.
  - discriminate.
Qed.

(** X10, on scenario S5. *)
Lemma composeChargingSchedules_keeps_limits_S5 :
  Forall (λ p, ∃ q,
            (q ∈ periodsOf S5.heap S5.higher ∨ q ∈ periodsOf S5.heap S5.lower)
            ∧ limit p = limit q ∧ numberPhases p = numberPhases q)
    (periodsOf S5Facts.resultHeap S5Facts.resultSchedule).
Proof.
  apply (composeChargingSchedules_keeps_limits (Some S5.higher) (Some S5.lower)
           S5.compositeInterval S5.heap S5Facts.resultHeap S5Facts.resultSchedule
           S5Facts.heap_wf_S5).
  - intros s [E|E]; injection E as <-; simpl; lia.
  - exact S5Facts.result_eq.
Defined.

(** X26. What [composeChargingSchedule] leaves of the heap when it returns a
    projection: the period array of the schedule holds the same periods
    (sorted); every other array is as it was; at most one period object is
    written, the first period of the projection, and only its [startPeriod],
    which becomes 0. *)
Theorem composeChargingSchedule_frame
    (s r : ChargingSchedule) (I : Interval) (h h' : Heap) :
  composeChargingSchedule s I h = (Ok (Some r), h') →
  (chargingSchedulePeriod s < length (arrays h))%nat →
  array h' (chargingSchedulePeriod s) ≡ₚ array h (chargingSchedulePeriod s)
  ∧ (∀ b, (b < length (arrays h))%nat → b ≠ chargingSchedulePeriod s →
          array h' b = array h b)
  ∧ (∀ p, deref h' p ≠ deref h p →
          array h' (chargingSchedulePeriod r) !! 0%nat = Some p
          ∧ deref h' p = with_startPeriod 0 (deref h p)).
Proof.
  intros E L. apply composeChargingSchedule_inv in E. split; [|split].
  - rewrite (projection_array_sorted s I h r h' E L). apply sort_by_perm.
  - intros b Lb N. exact (projection_array_kept s I h r h' b E Lb N).
  - intros p N. exact (projection_period_changed s I h r h' p E N).
Qed.

(** X26, on the schedule clipped at its start: the array of the schedule
    still holds its three periods. *)
Lemma composeChargingSchedule_frame_clipped :
  array ClippedStart.heapAfter (chargingSchedulePeriod ClippedStart.schedule)
  ≡ₚ array ClippedStart.heap (chargingSchedulePeriod ClippedStart.schedule).
Proof.
  apply (composeChargingSchedule_frame ClippedStart.schedule ClippedStart.projected
           ClippedStart.compositeInterval ClippedStart.heap ClippedStart.heapAfter
           ClippedStart.run_clipped).
  simpl. lia.
Defined.

(** * Further results: charging profiles *)

(** X11. [clearChargingProfiles] returns true iff some profile of the list
    matches the payload.  The list it leaves is the list it was given
    without each matching profile that does not come right after a removed
    one ([clearedSkipping]): the order is kept, no profile that does not
    match is removed, and a matching profile that follows a removed one
    stays.  On an undefined list it returns false. *)
Theorem clearChargingProfiles_skips_after_each_removal
    (commandPayload : ClearChargingProfileRequest) (l : list ChargingProfile) :
  let test := clearCurrentCP commandPayload in
  clearChargingProfiles commandPayload (Some l)
  = (existsb test l, Some (clearedSkipping test l))
  ∧ clearedSkipping test l `sublist_of` l
  ∧ filter (λ p, test p = false) l `sublist_of` clearedSkipping test l
  ∧ clearChargingProfiles commandPayload None = (false, None).
Proof.
  intros test. split; [|split; [|split]].
  - apply clearChargingProfiles_run.
  - apply clearedSkipping_sublist.
  - apply clearedSkipping_keeps.
  - reflexivity.
Qed.

(** X12. When no two profiles that match the payload are next to each other
    in the list, [clearChargingProfiles] removes exactly the profiles that
    match. *)
Theorem clearChargingProfiles_without_adjacent_matches
    (commandPayload : ClearChargingProfileRequest) (l : list ChargingProfile) :
  noAdjacent (clearCurrentCP commandPayload) l = true →
  clearChargingProfiles commandPayload (Some l)
  = (existsb (clearCurrentCP commandPayload) l,
     Some (filter (λ p, clearCurrentCP commandPayload p = false) l)).
Proof.
  intros N. rewrite clearChargingProfiles_run.
  now rewrite (clearedSkipping_noAdjacent _ _ N).
Qed.

(** X12, on two transaction profiles with a default profile between them,
    cleared by purpose: the default profile is left. *)
Lemma clearChargingProfiles_without_adjacent_matches_interleaved :
  clearChargingProfiles Profiles.clearTxProfiles (Some Interleaved.profiles)
  = (true, Some [Profiles.profile 2 1 TX_DEFAULT_PROFILE]).
Proof.
  exact (clearChargingProfiles_without_adjacent_matches
           Profiles.clearTxProfiles Interleaved.profiles eq_refl).
Defined.

(** X13. With a payload that gives a purpose and a stack level and no id, a
    profile matches when its purpose is the payload's and either its stack
    level is the payload's or the payload's stack level is 0 (a stack level
    of 0 is read as no stack level): [clearChargingProfiles] returns true iff
    the list holds such a profile. *)
Theorem clearChargingProfiles_stack_level_zero
    (commandPayload : ClearChargingProfileRequest) (l : list ChargingProfile)
    (purpose : ChargingProfilePurposeType) (level : Z) :
  clear_id commandPayload = None →
  clear_chargingProfilePurpose commandPayload = Some purpose →
  clear_stackLevel commandPayload = Some level →
  let matches (p : ChargingProfile) :=
    purpose_eqb (chargingProfilePurpose p) purpose
    && ((level =? 0) || (stackLevel p =? level)) in
  (∀ p, clearCurrentCP commandPayload p = matches p)
  ∧ fst (clearChargingProfiles commandPayload (Some l)) = existsb matches l.
Proof.
  intros Hid Hp Hl matches.
  assert (M : ∀ p, clearCurrentCP commandPayload p = matches p).
  { intros p. unfold clearCurrentCP, matches. rewrite Hid, Hp, Hl.
    cbn [strictEqZ strictEqPurpose falsyPurpose falsyZ].
    destruct (purpose_eqb _ _), (level =? 0), (stackLevel p =? level); reflexivity. }
  split; [exact M|].
  rewrite clearChargingProfiles_run. cbn [fst].
  induction l as [|p l IH]; [reflexivity|].
  cbn [existsb]. now rewrite M, IH.
Qed.

(** X13, with [{ chargingProfilePurpose: TxProfile, stackLevel: 0 }] and one
    transaction profile at stack level 3. *)
Lemma clearChargingProfiles_stack_level_zero_example :
  fst (clearChargingProfiles Profiles.clearTxProfilesLevel0
         (Some [Profiles.profile 7 3 TX_PROFILE])) = true.
Proof.
  exact (proj2 (clearChargingProfiles_stack_level_zero
                  Profiles.clearTxProfilesLevel0 [Profiles.profile 7 3 TX_PROFILE]
                  TX_PROFILE 0 eq_refl eq_refl eq_refl)).
Defined.



(** X15. [setChargingProfile] is idempotent: installing the same profile
    again on the station that the first call left changes nothing. *)
Theorem setChargingProfile_idempotent
    (chargingStation chargingStation' : ChargingStation) (connectorId : Z)
    (cp : ChargingProfile) :
  setChargingProfile chargingStation connectorId cp = (Ok tt, chargingStation') →
  setChargingProfile chargingStation' connectorId cp = (Ok tt, chargingStation').
Proof.
  intros E.
  destruct (getConnectorStatus chargingStation connectorId) as [c|] eqn:Hc.
  - rewrite (setChargingProfile_run _ _ _ cp Hc) in E. injection E as <-.
    rewrite (setChargingProfile_run _ _ _ cp (getConnectorStatus_set _ _ _)).
    rewrite setConnectorStatus_twice. cbn [chargingProfiles with_chargingProfiles
                                           initialisedProfiles].
    now rewrite installed_twice.
  - unfold setChargingProfile in E. rewrite Hc in E. discriminate.
Qed.

(** X15, on a connector with an empty profile list. *)
Lemma setChargingProfile_idempotent_S3 :
  ∃ station1,
    setChargingProfile (Profiles.station (Profiles [])) 1 (Profiles.profile 1 2 TX_PROFILE)
    = (Ok tt, station1)
    ∧ setChargingProfile station1 1 (Profiles.profile 1 2 TX_PROFILE) = (Ok tt, station1).
Proof.
  eexists. split; [reflexivity|].
  apply (setChargingProfile_idempotent (Profiles.station (Profiles [])) _ 1).
  reflexivity.
Defined.

(** X16. Installing a profile on a connector that holds no profile with its
    id, nor with its stack level and purpose, and then clearing by that id
    alone, gives back the list of before: the profile is appended by the
    first call and is the only one that the second removes. *)
Theorem setChargingProfile_then_clear_by_id
    (chargingStation : ChargingStation) (connectorId : Z) (c : ConnectorStatus)
    (l : list ChargingProfile) (cp : ChargingProfile) :
  getConnectorStatus chargingStation connectorId = Some c →
  chargingProfiles c = Profiles l →
  existsb (sameProfileSlot cp) l = false →
  let byId := {| clear_id := Some (chargingProfileId cp); clear_connectorId := None;
                 clear_chargingProfilePurpose := None; clear_stackLevel := None |} in
  ∃ chargingStation',
    setChargingProfile chargingStation connectorId cp = (Ok tt, chargingStation')
    ∧ (chargingProfiles <$> getConnectorStatus chargingStation' connectorId)
      = Some (Profiles (l ++ [cp]))
    ∧ clearChargingProfiles byId (Some (l ++ [cp])) = (true, Some l).
Proof.
  intros Hc Hl X byId.
  eexists. split; [exact (setChargingProfile_run _ _ _ cp Hc)|].
  split.
  - rewrite getConnectorStatus_set. cbn [fmap option_fmap option_map chargingProfiles
                                         with_chargingProfiles].
    rewrite Hl. cbn [initialisedProfiles]. unfold installed. now rewrite X.
  - assert (M : ∀ p, clearCurrentCP byId p = (chargingProfileId p =? chargingProfileId cp)).
    { intros p. unfold clearCurrentCP, byId.
      cbn [clear_id clear_chargingProfilePurpose clear_stackLevel strictEqZ
           strictEqPurpose falsyPurpose falsyZ].
      destruct (chargingProfileId p =? chargingProfileId cp); reflexivity. }
    assert (N : existsb (clearCurrentCP byId) l = false).
    { clear Hl. induction l as [|p ps IH]; [reflexivity|].
      cbn [existsb] in *. apply orb_false_iff in X as [Xp Xs].
      rewrite (IH Xs), M. unfold sameProfileSlot in Xp.
      apply orb_false_iff in Xp as [Xp _]. now rewrite Xp. }
    rewrite clearChargingProfiles_run.
    rewrite (clearedSkipping_last _ l cp N) by (rewrite M; apply Z.eqb_refl).
    rewrite existsb_app. cbn [existsb]. rewrite M, Z.eqb_refl, N. reflexivity.
Qed.

(** X16, on a connector that holds the three profiles of ids 1, 2 and 3,
    and a new profile of id 5 at stack level 9. *)
Lemma setChargingProfile_then_clear_by_id_example :
  ∃ chargingStation',
    setChargingProfile (Profiles.station (Profiles Interleaved.profiles)) 1
      (Profiles.profile 5 9 TX_PROFILE) = (Ok tt, chargingStation')
    ∧ (chargingProfiles <$> getConnectorStatus chargingStation' 1)
      = Some (Profiles (Interleaved.profiles ++ [Profiles.profile 5 9 TX_PROFILE]))
    ∧ clearChargingProfiles Interleaved.clearId5
        (Some (Interleaved.profiles ++ [Profiles.profile 5 9 TX_PROFILE]))
      = (true, Some Interleaved.profiles).
Proof.
  exact (setChargingProfile_then_clear_by_id
           (Profiles.station (Profiles Interleaved.profiles)) 1
           (Profiles.connector (Profiles Interleaved.profiles))
           Interleaved.profiles (Profiles.profile 5 9 TX_PROFILE)
           eq_refl eq_refl eq_refl).
Defined.

(** * Further results: the session coordinator *)

(** X17. When a connector id of the list designates no connector,
    [changeAvailability] throws a [TypeError] when it reaches it, and
    nothing is undone: every connector listed before it already has the
    requested availability, the connectors that are not listed before it
    are as they were. *)
Theorem changeAvailability_unknown_connector
    (chargingStation : ChargingStation) (before after : list Z) (unknown : Z)
    (chargePointStatus : ChargePointStatus) (availabilityType : AvailabilityType) :
  Forall (λ id, is_Some (getConnectorStatus chargingStation id)) before →
  getConnectorStatus chargingStation unknown = None →
  ∃ chargingStation',
    changeAvailability chargingStation (before ++ unknown :: after)
      chargePointStatus availabilityType
    = (Throw TypeError, chargingStation')
    ∧ (∀ id c, id ∈ before → getConnectorStatus chargingStation id = Some c →
         ∃ c', getConnectorStatus chargingStation' id = Some c'
               ∧ availability c' = availabilityType)
    ∧ (∀ id, id ∉ before →
         getConnectorStatus chargingStation' id = getConnectorStatus chargingStation id).
Proof.
  intros F N.
  exists (foldl (turn chargePointStatus availabilityType) chargingStation before).
  split; [|split].
  - unfold changeAvailability.
    rewrite changeAvailability_loop_app, (changeAvailability_loop_run _ _ _ _ _ F).
    cbn [changeAvailability_loop].
    rewrite foldl_turn_lookup, N.
    now destruct (decide (unknown ∈ before)).
  - intros id c Hin Hc. rewrite foldl_turn_lookup, decide_True, Hc by assumption.
    eexists. split; [reflexivity|].
    unfold changedConnector. now destruct (transactionActive c).
  - intros id Hin. now rewrite foldl_turn_lookup, decide_False.
Qed.

(** X17, on the station with connectors 0, 1 and 2, and the list
    [[2; 7; 1]]: connector 2 is made inoperative, connector 1 is not
    reached. *)
Lemma changeAvailability_unknown_connector_7 :
  ∃ chargingStation',
    changeAvailability Session.busyAndIdle [2; 7; 1] Unavailable Inoperative
    = (Throw TypeError, chargingStation')
    ∧ (availability <$> getConnectorStatus chargingStation' 2) = Some Inoperative
    ∧ getConnectorStatus chargingStation' 1 = getConnectorStatus Session.busyAndIdle 1.
Proof.
  destruct (changeAvailability_unknown_connector Session.busyAndIdle [2] [1] 7
              Unavailable Inoperative) as (st' & E & H1 & H2).
  - repeat constructor. vm_compute. eauto.
  - reflexivity.
  - exists st'. split; [exact E|]. split.
    + destruct (H1 2 (Session.connector Available false None)) as (c' & Hc' & Ha).
      * left.
      * reflexivity.
      * rewrite Hc'. simpl. now rewrite Ha.
    + apply H2. intros Hin. apply list_elem_of_singleton in Hin. discriminate.
Defined.

(** X18. On connector ids that all designate connectors, a second identical
    call to [changeAvailability] gives the same answer and leaves every
    connector as the first call left it; it sends again the status
    notification of every connector listed that has no active
    transaction. *)
Theorem changeAvailability_twice
    (chargingStation : ChargingStation) (connectorIds : list Z)
    (chargePointStatus : ChargePointStatus) (availabilityType : AvailabilityType) :
  Forall (λ id, is_Some (getConnectorStatus chargingStation id)) connectorIds →
  ∃ response station1 station2,
    changeAvailability chargingStation connectorIds chargePointStatus availabilityType
    = (Ok response, station1)
    ∧ changeAvailability station1 connectorIds chargePointStatus availabilityType
      = (Ok response, station2)
    ∧ connectors station2 = connectors station1
    ∧ stationInfo station2 = stationInfo station1
    ∧ powerDivider station2 = powerDivider station1
    ∧ sentStatusNotifications station2
      = sentStatusNotifications station1
        ++ ((λ id, (id, chargePointStatus))
              <$> filter (λ id, hasActiveTransaction chargingStation id = false)
                    connectorIds).
Proof.
  intros F.
  set (station1 := foldl (turn chargePointStatus availabilityType) chargingStation
                     connectorIds).
  assert (F1 : Forall (λ id, is_Some (getConnectorStatus station1 id)) connectorIds).
  { eapply Forall_impl; [exact F|]. intros id. apply is_Some_foldl_turn. }
  eexists _, station1, (foldl (turn chargePointStatus availabilityType) station1
                          connectorIds).
  split; [|split; [|split; [|split; [|split]]]].
  - unfold changeAvailability.
    rewrite (changeAvailability_loop_run _ _ _ _ _ F). reflexivity.
  - unfold changeAvailability.
    rewrite (changeAvailability_loop_run _ _ _ _ _ F1). cbn [app].
    rewrite !includesScheduled_responses. do 2 f_equal.
    assert (E : existsb (hasActiveTransaction station1) connectorIds
                = existsb (hasActiveTransaction chargingStation) connectorIds).
    { assert (G : ∀ l, existsb (hasActiveTransaction station1) l
                       = existsb (hasActiveTransaction chargingStation) l).
      { induction l as [|k ks IHk]; [reflexivity|].
        cbn [existsb]. f_equal; [|exact IHk].
        apply hasActiveTransaction_foldl_turn. }
      apply G. }
    now rewrite E.
  - apply connectors_foldl_turn_twice.
  - clear. generalize station1. induction connectorIds as [|id ids IH]; intros st;
      [reflexivity|]. cbn [foldl]. now rewrite IH.
  - clear. generalize station1. induction connectorIds as [|id ids IH]; intros st;
      [reflexivity|]. cbn [foldl]. now rewrite IH.
  - rewrite foldl_turn_notifications. do 2 f_equal.
    apply list_filter_iff. intros id. unfold station1.
    now rewrite hasActiveTransaction_foldl_turn.
Qed.

(** X18, on the station where connector 1 is charging and connector 2 is
    idle. *)
Lemma changeAvailability_twice_busy_and_idle :
  ∃ response station1 station2,
    changeAvailability Session.busyAndIdle [1; 2] Unavailable Inoperative
    = (Ok response, station1)
    ∧ changeAvailability station1 [1; 2] Unavailable Inoperative = (Ok response, station2)
    ∧ connectors station2 = connectors station1.
Proof.
  destruct (changeAvailability_twice Session.busyAndIdle [1; 2] Unavailable Inoperative)
    as (r & st1 & st2 & E1 & E2 & E3 & _).
  - repeat constructor; vm_compute; eauto.
  - exists r, st1, st2. auto.
Defined.

(** * Further results: the meter-value synthesizer *)

(** X19. Whatever its outcome, a call to [buildMeterValue] leaves the
    station as it was, or as it was with the two energy registers of the
    connector rewritten: it writes nothing else, on no other connector. *)
Theorem buildMeterValue_writes_only_registers
    (env : Collaborators) (st : ChargingStation)
    (connectorId transactionId' interval : Z) (debug : bool)
    (r : outcome MeterValue) (s : Synth) :
  buildMeterValue env st connectorId transactionId' interval debug = (r, s) →
  chargingStation s = st
  ∨ ∃ c energy transactionEnergy,
      getConnectorStatus st connectorId = Some c
      ∧ chargingStation s
        = setConnectorStatus st connectorId (with_registers energy transactionEnergy c).
Proof.
  unfold buildMeterValue. intros E.
  destruct (measurands env connectorId transactionId' interval debug (initialSynth st))
    as [o s0] eqn:M.
  assert (s0 = s) as -> by (destruct o; now injection E).
  exact (measurands_station env connectorId transactionId' interval debug _ _ _ M).
Qed.

(** X19, on scenario S1. *)
Lemma buildMeterValue_writes_only_registers_S1 :
  let run := buildMeterValue (Meter.env [Meter.energyTemplate] 7360 (1 # 2))
               (Meter.station 100 40) 1 42 60000 false in
  chargingStation (snd run) = Meter.station 100 40
  ∨ ∃ c energy transactionEnergy,
      getConnectorStatus (Meter.station 100 40) 1 = Some c
      ∧ chargingStation (snd run)
        = setConnectorStatus (Meter.station 100 40) 1
            (with_registers energy transactionEnergy c).
Proof.
  intros run.
  exact (buildMeterValue_writes_only_registers
           (Meter.env [Meter.energyTemplate] 7360 (1 # 2)) (Meter.station 100 40)
           1 42 60000 false (fst run) (snd run) (surjective_pairing run)).
Defined.

(** X20. When the energy template resolves and one of the two registers of
    the connector is undefined or negative, a call to [buildMeterValue] that
    returns leaves both registers at 0: the increment of the interval is
    dropped, and so is what the other register held. *)
Theorem buildMeterValue_resets_registers
    (env : Collaborators) (st : ChargingStation)
    (connectorId transactionId' interval : Z) (debug : bool)
    (mv : MeterValue) (s : Synth) (t : SampledValueTemplate) (c : ConnectorStatus) :
  buildMeterValue env st connectorId transactionId' interval debug = (Ok mv, s) →
  getSampledValueTemplate env st connectorId None None = Some t →
  getConnectorStatus st connectorId = Some c →
  energyActiveImportRegisterValue c = None
  ∨ transactionEnergyActiveImportRegisterValue c = None
  ∨ (∃ energy, energyActiveImportRegisterValue c = Some energy ∧ (energy < 0)%Q)
  ∨ (∃ transactionEnergy,
       transactionEnergyActiveImportRegisterValue c = Some transactionEnergy
       ∧ (transactionEnergy < 0)%Q) →
  chargingStation s = setConnectorStatus st connectorId (with_registers 0 0 c).
Proof.
  intros E Ht Hc Hr.
  apply buildMeterValue_inv in E as [E _].
  apply measurands_inv in E as (s4 & _ & S4 & E).
  rewrite <- S4 in Ht, Hc.
  destruct (energyMeasurand_inv env connectorId transactionId' interval debug
              s4 t c s Ht Hc E) as (increment & Hst & _).
  rewrite Hst, S4. f_equal. unfold persistEnergy.
  destruct (energyActiveImportRegisterValue c) as [e|]; [|reflexivity].
  destruct (transactionEnergyActiveImportRegisterValue c) as [te|]; [|reflexivity].
  destruct Hr as [Hr|[Hr|[(e' & He & Hneg)|(te' & Hte & Hneg)]]]; try discriminate.
  - injection He as <-.
    assert (Qle_bool 0 e = false) as ->; [|reflexivity].
    apply not_true_is_false. rewrite Qle_bool_iff. lra.
  - injection Hte as <-.
    assert (Qle_bool 0 te = false) as ->; [|now rewrite andb_false_r].
    apply not_true_is_false. rewrite Qle_bool_iff. lra.
Qed.

(** X20, on a connector whose lifetime register holds 500 Wh and whose
    transaction register is undefined: the call leaves 0 and 0. *)
Lemma buildMeterValue_resets_registers_uninitialised :
  ∃ mv s,
    buildMeterValue (Meter.env [Meter.energyTemplate] 7360 (1 # 2))
      Uninitialised.station 1 42 60000 false = (Ok mv, s)
    ∧ chargingStation s
      = setConnectorStatus Uninitialised.station 1
          (with_registers 0 0 Uninitialised.connector).
Proof.
  destruct (buildMeterValue (Meter.env [Meter.energyTemplate] 7360 (1 # 2))
              Uninitialised.station 1 42 60000 false) as [[mv|e] s] eqn:E;
    [|vm_compute in E; discriminate].
  exists mv, s. split; [reflexivity|].
  apply (buildMeterValue_resets_registers _ _ _ _ _ _ mv s Meter.energyTemplate
           Uninitialised.connector E eq_refl eq_refl).
  right. left. reflexivity.
Defined.

(** X21. When no template resolves for the connector, [buildMeterValue]
    returns a meter value with no sampled value; it draws nothing, logs
    nothing, leaves the station as it is, and does not check the power
    divider. *)
Theorem buildMeterValue_without_templates
    (env : Collaborators) (st : ChargingStation)
    (connectorId transactionId' interval : Z) (debug : bool) :
  (∀ measurand, getSampledValueTemplate env st connectorId measurand None = None) →
  buildMeterValue env st connectorId transactionId' interval debug
  = (Ok {| timestamp := now env; sampledValue := [] |}, initialSynth st).
Proof.
  intros N. unfold buildMeterValue, measurands.
  unfold socMeasurand, voltageMeasurand, powerMeasurand, currentMeasurand, energyMeasurand.
  unfold bind, getStation, ret. cbn [chargingStation initialSynth].
  rewrite !N. reflexivity.
Qed.

(** X21, on a station without power divider and with no template. *)
Lemma buildMeterValue_without_templates_no_divider :
  buildMeterValue (Meter.env [] 7360 (1 # 2)) (Meter.stationWithoutDivider 0 0)
    1 42 60000 false
  = (Ok {| timestamp := 0; sampledValue := [] |},
     initialSynth (Meter.stationWithoutDivider 0 0)).
Proof.
  apply (buildMeterValue_without_templates (Meter.env [] 7360 (1 # 2))).
  reflexivity.
Defined.

(** X22. [buildTransactionBeginMeterValue] and
    [buildTransactionEndMeterValue] throw a [TypeError] when no energy
    template resolves for the connector.  Otherwise each returns one sampled
    value built on that template, with the context [Transaction.Begin]
    (resp. [Transaction.End]) whatever context the template carries, and the
    meter reading divided by the unit divider and rounded to 4 decimals; when
    [0 ≤ meterStart ≤ meterStop] the two values [b] and [e] satisfy
    [0 ≤ b ≤ e]. *)
Theorem buildTransactionMeterValues_at_boundaries
    (env : Collaborators) (st : ChargingStation) (connectorId : Z)
    (meterStart meterStop : Q) :
  let template := getSampledValueTemplate env st connectorId None None in
  let begin := buildTransactionBeginMeterValue env st connectorId (Some meterStart) in
  let end' := buildTransactionEndMeterValue env st connectorId (Some meterStop) in
  (template = None → begin = Throw TypeError ∧ end' = Throw TypeError)
  ∧ (∀ t, template = Some t →
       let b := roundTo (meterStart / unitDividerOf t) 4 in
       let e := roundTo (meterStop / unitDividerOf t) 4 in
       begin = Ok {| timestamp := now env;
                     sampledValue :=
                       [buildSampledValue t (Some b) (Some TRANSACTION_BEGIN) None] |}
       ∧ end' = Ok {| timestamp := now env;
                      sampledValue :=
                        [buildSampledValue t (Some e) (Some TRANSACTION_END) None] |}
       ∧ sampled_context (buildSampledValue t (Some b) (Some TRANSACTION_BEGIN) None)
         = Some TRANSACTION_BEGIN
       ∧ sampled_context (buildSampledValue t (Some e) (Some TRANSACTION_END) None)
         = Some TRANSACTION_END
       ∧ ((0 <= meterStart)%Q → (meterStart <= meterStop)%Q → (0 <= b)%Q ∧ (b <= e)%Q)).
Proof.
  intros template begin end'. subst begin end'.
  unfold buildTransactionBeginMeterValue, buildTransactionEndMeterValue,
    buildTransactionMeterValue. fold template. split.
  - intros ->. split; reflexivity.
  - intros t ->. cbn [buildSampledValueOf unitDividerOfTemplate orElse default].
    split; [reflexivity|]. split; [reflexivity|].
    split; [reflexivity|]. split; [reflexivity|].
    intros H0 Hle. pose proof (unitDividerOf_pos t) as Hd. split.
    + apply roundTo_nonneg. apply Qle_shift_div_l; [exact Hd|]. lra.
    + apply roundTo_le. apply Qle_shift_div_l; [exact Hd|].
      assert (E : (meterStart / unitDividerOf t * unitDividerOf t == meterStart)%Q)
        by (field; lra).
      rewrite E. exact Hle.
Qed.

(** X22, on scenario S1 with a meter that goes from 1000 Wh to 2500 Wh. *)
Lemma buildTransactionMeterValues_at_boundaries_S1 :
  (0 <= roundTo (1000 / unitDividerOf Meter.energyTemplate) 4)%Q
  ∧ (roundTo (1000 / unitDividerOf Meter.energyTemplate) 4
     <= roundTo (2500 / unitDividerOf Meter.energyTemplate) 4)%Q.
Proof.
  apply (proj2 (buildTransactionMeterValues_at_boundaries
                  (Meter.env [Meter.energyTemplate] 7360 (1 # 2)) (Meter.station 0 0) 1
                  1000 2500) Meter.energyTemplate eq_refl).
  - discriminate.
  - discriminate.
Defined.

(** X23. On a three-phase AC station with a power template, a call to
    [buildMeterValue] that returns emits four power samples in a row: the
    aggregate, built on the power template, then one sample per phase
    ([L1-N], [L2-N], [L3-N]), each built on the template of its phase when
    there is one and on the power template otherwise.  The aggregate is the
    sum of the three per-phase values, rounded to 2 decimals. *)
Theorem buildMeterValue_power_of_three_phases
    (env : Collaborators) (st : ChargingStation)
    (connectorId transactionId' interval : Z) (debug : bool)
    (mv : MeterValue) (s : Synth) (pt : SampledValueTemplate) :
  buildMeterValue env st connectorId transactionId' interval debug = (Ok mv, s) →
  getSampledValueTemplate env st connectorId (Some POWER_ACTIVE_IMPORT) None = Some pt →
  currentOutType (stationInfo st) = Some AC →
  numberOfPhases (stationInfo st) = 3 →
  ∃ before after l1 l2 l3,
    sampledValue mv
    = before
      ++ [ buildSampledValue pt (Some (roundTo (l1 + l2 + l3) 2)) None None;
           buildSampledValue (powerPerPhaseTemplate env connectorId st pt 1) (Some l1)
             None (Some L1_N);
           buildSampledValue (powerPerPhaseTemplate env connectorId st pt 2) (Some l2)
             None (Some L2_N);
           buildSampledValue (powerPerPhaseTemplate env connectorId st pt 3) (Some l3)
             None (Some L3_N) ]
      ++ after.
Proof.
  intros E Ht Hc H3.
  apply buildMeterValue_inv in E as [E ->]. cbn [sampledValue].
  unfold measurands in E.
  apply bind_inv in E as ([] & s1 & E1 & E).
  apply bind_inv in E as ([] & s2 & E2 & E).
  apply bind_inv in E as ([] & s3 & E3 & E).
  assert (S2 : chargingStation s2 = st).
  { rewrite (voltageMeasurand_sameStation env _ _ _ _ E2).
    exact (socMeasurand_sameStation env _ _ _ _ _ E1). }
  rewrite <- S2 in Ht, Hc, H3.
  destruct (powerMeasurand_three_phases env connectorId debug s2 s3 pt E3 Ht Hc)
    as (l1 & l2 & l3 & Hp).
  { unfold threePhases. rewrite H3. reflexivity. }
  assert (A : appends s3 s).
  { revert E. apply steps_bind.
    - exact appends_trans.
    - apply currentMeasurand_appends.
    - intros _. apply energyMeasurand_appends. }
  destruct A as [after Ha].
  exists (sampled s2), after, l1, l2, l3.
  rewrite Ha, Hp, S2, <- app_assoc. reflexivity.
Qed.

(** X23, on a three-phase station of 230 V whose connector offers 11040 W,
    with draws of 1/2: each phase reads 1840 W and the aggregate 5520 W. *)
Lemma buildMeterValue_power_of_three_phases_example :
  ∃ mv s before after l1 l2 l3,
    buildMeterValue (Meter.env [ThreePhases.powerTemplate] 11040 (1 # 2))
      ThreePhases.station 1 42 60000 false = (Ok mv, s)
    ∧ sampledValue mv
      = before
        ++ [ buildSampledValue ThreePhases.powerTemplate
               (Some (roundTo (l1 + l2 + l3) 2)) None None;
             buildSampledValue ThreePhases.powerTemplate (Some l1) None (Some L1_N);
             buildSampledValue ThreePhases.powerTemplate (Some l2) None (Some L2_N);
             buildSampledValue ThreePhases.powerTemplate (Some l3) None (Some L3_N) ]
        ++ after.
Proof.
  destruct (buildMeterValue (Meter.env [ThreePhases.powerTemplate] 11040 (1 # 2))
              ThreePhases.station 1 42 60000 false) as [[mv|e] s] eqn:E;
    [|vm_compute in E; discriminate].
  destruct (buildMeterValue_power_of_three_phases _ _ _ _ _ _ mv s
              ThreePhases.powerTemplate E eq_refl eq_refl eq_refl)
    as (before & after & l1 & l2 & l3 & H).
  exists mv, s, before, after, l1, l2, l3. split; [reflexivity|exact H].
Defined.

(** X24. On a three-phase AC station with a current template, a call to
    [buildMeterValue] that returns emits four current samples in a row: the
    aggregate, built on the current template, then one sample per phase
    ([L1], [L2], [L3]), each built on the template of its phase when there
    is one and on the current template otherwise.  The aggregate is the mean
    of the three per-phase values (their sum divided by the number of
    phases), rounded to 2 decimals. *)
Theorem buildMeterValue_current_of_three_phases
    (env : Collaborators) (st : ChargingStation)
    (connectorId transactionId' interval : Z) (debug : bool)
    (mv : MeterValue) (s : Synth) (ct : SampledValueTemplate) :
  buildMeterValue env st connectorId transactionId' interval debug = (Ok mv, s) →
  getSampledValueTemplate env st connectorId (Some CURRENT_IMPORT) None = Some ct →
  currentOutType (stationInfo st) = Some AC →
  numberOfPhases (stationInfo st) = 3 →
  ∃ before after l1 l2 l3,
    sampledValue mv
    = before
      ++ [ buildSampledValue ct (Some (roundTo ((l1 + l2 + l3) / 3) 2)) None None;
           buildSampledValue (currentPerPhaseTemplate env connectorId st ct 1) (Some l1)
             None (Some L1);
           buildSampledValue (currentPerPhaseTemplate env connectorId st ct 2) (Some l2)
             None (Some L2);
           buildSampledValue (currentPerPhaseTemplate env connectorId st ct 3) (Some l3)
             None (Some L3) ]
      ++ after.
Proof.
  intros E Ht Hc H3.
  apply buildMeterValue_inv in E as [E ->]. cbn [sampledValue].
  unfold measurands in E.
  apply bind_inv in E as ([] & s1 & E1 & E).
  apply bind_inv in E as ([] & s2 & E2 & E).
  apply bind_inv in E as ([] & s3 & E3 & E).
  apply bind_inv in E as ([] & s4 & E4 & E).
  assert (S3 : chargingStation s3 = st).
  { rewrite (powerMeasurand_sameStation env _ _ _ _ _ E3).
    rewrite (voltageMeasurand_sameStation env _ _ _ _ E2).
    exact (socMeasurand_sameStation env _ _ _ _ _ E1). }
  rewrite <- S3 in Ht, Hc, H3.
  destruct (currentMeasurand_three_phases env connectorId debug s3 s4 ct E4 Ht Hc)
    as (l1 & l2 & l3 & Hp).
  { unfold threePhases. rewrite H3. reflexivity. }
  destruct (energyMeasurand_appends env _ _ _ _ _ _ _ E) as [after Ha].
  exists (sampled s3), after, l1, l2, l3.
  rewrite Ha, Hp, <- app_assoc. unfold phasesQ. rewrite H3, S3. reflexivity.
Qed.

(** X24, on a three-phase station of 230 V whose connector offers 11040 W
    (16 A per phase), with draws of 1/2: each phase reads 8 A, and so does
    the aggregate. *)
Lemma buildMeterValue_current_of_three_phases_example :
  ∃ mv s before after l1 l2 l3,
    buildMeterValue (Meter.env [ThreePhases.currentTemplate] 11040 (1 # 2))
      ThreePhases.station 1 42 60000 false = (Ok mv, s)
    ∧ sampledValue mv
      = before
        ++ [ buildSampledValue ThreePhases.currentTemplate
               (Some (roundTo ((l1 + l2 + l3) / 3) 2)) None None;
             buildSampledValue ThreePhases.currentTemplate (Some l1) None (Some L1);
             buildSampledValue ThreePhases.currentTemplate (Some l2) None (Some L2);
             buildSampledValue ThreePhases.currentTemplate (Some l3) None (Some L3) ]
        ++ after.
Proof.
  destruct (buildMeterValue (Meter.env [ThreePhases.currentTemplate] 11040 (1 # 2))
              ThreePhases.station 1 42 60000 false) as [[mv|e] s] eqn:E;
    [|vm_compute in E; discriminate].
  destruct (buildMeterValue_current_of_three_phases _ _ _ _ _ _ mv s
              ThreePhases.currentTemplate E eq_refl eq_refl eq_refl)
    as (before & after & l1 & l2 & l3 & H).
  exists mv, s, before, after, l1, l2, l3. split; [reflexivity|exact H].
Defined.

(** X25. With a voltage template, a call to [buildMeterValue] that returns
    emits its voltage samples in a row, with these phases: the phase of the
    template (the main voltage) when the station is not three-phase or
    reports the main voltage; then, on a three-phase station, [L1-N],
    [L2-N], [L3-N], each followed, when the station reports line-to-line
    voltages, by [L1-L2], [L2-L3], [L3-L1] respectively. *)
Theorem buildMeterValue_voltage_phases
    (env : Collaborators) (st : ChargingStation)
    (connectorId transactionId' interval : Z) (debug : bool)
    (mv : MeterValue) (s : Synth) (vt : SampledValueTemplate) :
  buildMeterValue env st connectorId transactionId' interval debug = (Ok mv, s) →
  getSampledValueTemplate env st connectorId (Some VOLTAGE) None = Some vt →
  ∃ before voltages after,
    sampledValue mv = before ++ voltages ++ after
    ∧ sampled_phase <$> voltages = voltagePhases st (template_phase vt).
Proof.
  intros E Ht.
  apply buildMeterValue_inv in E as [E ->]. cbn [sampledValue].
  unfold measurands in E.
  apply bind_inv in E as ([] & s1 & E1 & E).
  apply bind_inv in E as ([] & s2 & E2 & E).
  pose proof (socMeasurand_sameStation env _ _ _ _ _ E1) as S1.
  unfold sameStation in S1. cbn [chargingStation initialSynth] in S1.
  rewrite <- S1 in Ht.
  destruct (voltageMeasurand_phases env connectorId s1 s2 vt E2 Ht) as (vs & Hs & Hp).
  assert (A : appends s2 s).
  { revert E. apply steps_bind; [exact appends_trans|apply powerMeasurand_appends|].
    intros _. apply steps_bind; [exact appends_trans|apply currentMeasurand_appends|].
    intros _. apply energyMeasurand_appends. }
  destruct A as [after Ha].
  exists (sampled s1), vs, after. split.
  - rewrite Ha, Hs, <- app_assoc. reflexivity.
  - rewrite Hp, S1. reflexivity.
Qed.

(** X25, on a three-phase station that reports the line-to-line voltages and
    not the main voltage: six samples. *)
Lemma buildMeterValue_voltage_phases_line_to_line :
  ∃ mv s before voltages after,
    buildMeterValue (Meter.env [ThreePhases.voltageTemplate] 11040 (1 # 2))
      ThreePhases.stationLineToLine 1 42 60000 false = (Ok mv, s)
    ∧ sampledValue mv = before ++ voltages ++ after
    ∧ sampled_phase <$> voltages
      = [Some L1_N; Some L1_L2; Some L2_N; Some L2_L3; Some L3_N; Some L3_L1].
Proof.
  destruct (buildMeterValue (Meter.env [ThreePhases.voltageTemplate] 11040 (1 # 2))
              ThreePhases.stationLineToLine 1 42 60000 false) as [[mv|e] s] eqn:E;
    [|vm_compute in E; discriminate].
  destruct (buildMeterValue_voltage_phases _ _ _ _ _ _ mv s
              ThreePhases.voltageTemplate E eq_refl)
    as (before & voltages & after & H1 & H2).
  exists mv, s, before, voltages, after. split; [reflexivity|]. split; [exact H1|exact H2].
Defined.
